(** * Deriv proxy bridge: a shallow embedding of the two proxy servers

    The repository holds two versions of one Node.js program:
    - the extended proxy (header comment [// backend/server.js], 204 lines):
      session store, [/me], [/logout], [/api/buy], per-client upstream socket,
      authorize / tick / buy handling, client [subscribe];
    - the simple proxy ([src/backend/server.js], 101 lines): session store,
      per-client upstream socket, ticks, client [config] / [subscribe] /
      [unsubscribe].

    Both are event-driven: every handler runs to completion on one thread.
    A handler is modelled as a function from the program state and the event
    (with what the environment decides: the clock reading, a fresh uuid,
    whether a write to the upstream socket throws) to the new state and the
    list of effects it performs, in program order.  An uncaught exception is
    [None]. *)

From Stdlib Require Import QArith Qround Qpower Qabs Lqa Ascii.
From stdpp Require Import gmap strings list fin_maps.

Local Set Warnings "-register-all".

Open Scope string_scope.
Open Scope Z_scope.
Open Scope list_scope.
Open Scope nat_scope.

(** ** JavaScript values *)

(** The values the handlers see: what [JSON.parse] returns (null, booleans,
    numbers, strings, arrays, objects), plus [undefined] (a missing property)
    and function objects (members of [Object.prototype]).  An object is the
    list of its own enumerable properties, in the order of enumeration.

    A number is an IEEE 754 double: [JNum q] is the finite double of value
    [q], [JInf negative] is [Infinity] or [-Infinity], which [JSON.parse]
    returns for a literal beyond the range.  [NaN] does not arise: the
    handlers do no arithmetic.  [-0] is not told from [0]: both are falsy
    and both are written as [0]. *)
Inductive jsval : Type :=
| JUndef
| JNull
| JBool (b : bool)
| JNum (q : Q)
| JStr (s : string)
| JArr (items : list jsval)
| JObj (fields : list (string * jsval))
| JFun
| JInf (negative : bool).

(** ToBoolean: [undefined], [null], [false], [0] and [""] are falsy. *)
Definition truthy (v : jsval) : bool :=
  match v with
  | JUndef | JNull => false
  | JBool b => b
  | JNum q => negb (Qeq_bool q 0)
  | JStr s => negb (String.eqb s "")
  | JArr _ | JObj _ | JFun | JInf _ => true
  end.

(** Own property of an object literal. *)
Fixpoint own (fields : list (string * jsval)) (k : string) : option jsval :=
  match fields with
  | [] => None
  | (k', v) :: rest => if String.eqb k' k then Some v else own rest k
  end.

(** The function-valued members every plain object inherits. *)
Definition Object_prototype_methods : list string :=
  [ "constructor"; "toString"; "toLocaleString"; "valueOf"; "hasOwnProperty";
    "isPrototypeOf"; "propertyIsEnumerable"; "__defineGetter__";
    "__defineSetter__"; "__lookupGetter__"; "__lookupSetter__" ].

(** [({})[k]] for a name that is not an own property: the [__proto__]
    accessor returns [Object.prototype] itself, an object without enumerable
    own properties; the inherited methods are functions; anything else is
    [undefined]. *)
Definition Object_prototype_get (k : string) : jsval :=
  if String.eqb k "__proto__" then JObj []
  else if existsb (String.eqb k) Object_prototype_methods then JFun
  else JUndef.

(** [v[k]] / [v.k].  Reading a property of [undefined] or [null] throws a
    TypeError ([None]).  On primitives and arrays the names this program reads
    ([authorize], [error], [message], [tick], [symbol], ...) are not defined,
    so the read is [undefined]. *)
Definition get (v : jsval) (k : string) : option jsval :=
  match v with
  | JUndef | JNull => None
  | JObj fields =>
      Some (match own fields k with
            | Some x => x
            | None => Object_prototype_get k
            end)
  | _ => Some JUndef
  end.

(** [JSON.stringify] leaves out a property whose value is [undefined] or a
    function, and writes such an array item as [null].  A number that is not
    finite is written as [null] wherever it stands. *)
Definition serialisable (v : jsval) : bool :=
  match v with
  | JUndef | JFun => false
  | _ => true
  end.

(** What the peer reads back from [JSON.stringify(v)].  A finite double is
    written with the digits that tell it from every other double, so the
    peer reads the same double back. *)
Fixpoint wire (v : jsval) : jsval :=
  match v with
  | JArr items =>
      JArr (map (fun x => if serialisable x then wire x else JNull) items)
  | JObj fields =>
      JObj ((fix go (fs : list (string * jsval)) : list (string * jsval) :=
               match fs with
               | [] => []
               | (k, x) :: rest =>
                   if serialisable x then (k, wire x) :: go rest else go rest
               end) fields)
  | JInf _ => JNull
  | _ => v
  end.

(** Strict equality with a string literal: [v === 'subscribe']. *)
Definition is_str (v : jsval) (s : string) : bool :=
  match v with
  | JStr s' => String.eqb s' s
  | _ => false
  end.

(** SameValueZero as a [Set] applies it to a value that [JSON.parse] has just
    built: primitives compare by value; a fresh array or object is identical
    to nothing that is already stored. *)
Definition same_value_zero (fresh stored : jsval) : bool :=
  match fresh, stored with
  | JUndef, JUndef | JNull, JNull => true
  | JBool a, JBool b => Bool.eqb a b
  | JNum a, JNum b => Qeq_bool a b
  | JStr a, JStr b => String.eqb a b
  | JInf a, JInf b => Bool.eqb a b
  | _, _ => false
  end.

(** [set.add(v)]: keeps insertion order, adds nothing that is there. *)
Definition Set_add (v : jsval) (s : list jsval) : list jsval :=
  if existsb (same_value_zero v) s then s else s ++ [v].

(** [set.delete(v)]. *)
Definition Set_delete (v : jsval) (s : list jsval) : list jsval :=
  filter (fun x => same_value_zero v x = false) s.

(** [set.has(v)]. *)
Definition Set_has (v : jsval) (s : list jsval) : bool :=
  existsb (same_value_zero v) s.

(** ** JSON texts *)

(** For a positive [x], the [l] with [2 ^ l <= x < 2 ^ (l + 1)]. *)
Definition Qlog2 (x : Q) : Z :=
  let k := (Z.log2 (Qnum x) - Z.log2 (Z.pos (Qden x)))%Z in
  if Qle_bool (2 ^ k) x then k else (k - 1)%Z.

(** The nearest integer, and of two that are as near the even one. *)
Definition nearest_even (x : Q) : Z :=
  let f := Qfloor x in
  match (x - inject_Z f ?= 1 # 2)%Q with
  | Lt => f
  | Gt => (f + 1)%Z
  | Eq => if Z.even f then f else (f + 1)%Z
  end.

(** The double nearest to a positive [x]: 53 binary digits from the leading
    one, but no digit below [2 ^ -1074]; no double ([None]) when the rounded
    value reaches [2 ^ 1024]. *)
Definition double_of (x : Q) : option Q :=
  let e := Z.max (Qlog2 x - 52) (-1074) in
  let d := Qred (inject_Z (nearest_even (x / 2 ^ e)) * 2 ^ e) in
  if Qle_bool (2 ^ 1024) d then None else Some d.

(** The Number value of a numeric literal of value [q]. *)
Definition Number_of (q : Q) : jsval :=
  match Qnum q with
  | Z0 => JNum 0
  | Z.pos _ =>
      match double_of q with
      | Some d => JNum d
      | None => JInf false
      end
  | Z.neg _ =>
      match double_of (- q) with
      | Some d => JNum (Qred (- d))
      | None => JInf true
      end
  end.

(** The finite doubles: [m * 2 ^ e] with a significand [m] of at most 53
    binary digits and [-1074 <= e <= 971], as a fraction in lowest terms. *)
Definition double (q : Q) : Prop :=
  ∃ m e : Z, (Z.abs m < 2 ^ 53)%Z ∧ (-1074 <= e <= 971)%Z
             ∧ q = Qred (inject_Z m * 2 ^ e).

(** A JSON text as it stands in a frame: a number is the decimal that is
    written, an object the list of its members as written. *)
Inductive text : Type :=
| TNull
| TBool (b : bool)
| TNum (q : Q)
| TStr (s : string)
| TArr (items : list text)
| TObj (members : list (string * text)).

Definition digit (a : ascii) : option N :=
  let n := N_of_ascii a in
  if ((48 <=? n) && (n <=? 57))%N then Some (n - 48)%N else None.

Fixpoint digits (s : string) (acc : N) : option N :=
  match s with
  | EmptyString => Some acc
  | String a rest =>
      match digit a with
      | Some d => digits rest (10 * acc + d)%N
      | None => None
      end
  end.

(** A property name that is an array index: the canonical decimal of an
    integer below [2 ^ 32 - 1]. *)
Definition array_index (k : string) : option N :=
  match k with
  | EmptyString => None
  | String "0" EmptyString => Some 0%N
  | String "0" _ => None
  | _ =>
      match digits k 0 with
      | Some n => if (n <? 4294967295)%N then Some n else None
      | None => None
      end
  end.

Fixpoint replace_own (k : string) (v : jsval) (fields : list (string * jsval)) : list (string * jsval) :=
  match fields with
  | [] => []
  | (k', x) :: rest =>
      if String.eqb k' k then (k', v) :: rest else (k', x) :: replace_own k v rest
  end.

Fixpoint insert_index (i : N) (k : string) (v : jsval) (fields : list (string * jsval)) : list (string * jsval) :=
  match fields with
  | [] => [(k, v)]
  | (k', x) :: rest =>
      match array_index k' with
      | Some j =>
          if (j <? i)%N then (k', x) :: insert_index i k v rest
          else (k, v) :: fields
      | None => (k, v) :: fields
      end
  end.

(** [JSON.parse] defines the members of an object in turn: a name the object
    has keeps its place and takes the new value; a new array index goes
    among the array indices, which an object enumerates first and in
    ascending order; any other new name goes to the end. *)
Definition define_property (k : string) (v : jsval) (fields : list (string * jsval)) : list (string * jsval) :=
  match own fields k with
  | Some _ => replace_own k v fields
  | None =>
      match array_index k with
      | Some i => insert_index i k v fields
      | None => fields ++ [(k, v)]
      end
  end.

(** The value [JSON.parse] builds from a JSON text. *)
Fixpoint parse (t : text) : jsval :=
  match t with
  | TNull => JNull
  | TBool b => JBool b
  | TNum q => Number_of q
  | TStr s => JStr s
  | TArr items => JArr (map parse items)
  | TObj members =>
      JObj ((fix go (ms : list (string * text)) (fields : list (string * jsval)) :=
               match ms with
               | [] => fields
               | (k, x) :: rest => go rest (define_property k (parse x) fields)
               end) members [])
  end.

(** [JSON.parse(data)] for the data of a frame; [None], a SyntaxError, when
    the data is not a JSON text. *)
Definition JSON_parse (data : option text) : option jsval := parse <$> data.

(** The member of name [k] that counts in an object as written: the last. *)
Fixpoint member (members : list (string * text)) (k : string) : option text :=
  match members with
  | [] => None
  | (k', x) :: rest =>
      match member rest k with
      | Some y => Some y
      | None => if String.eqb k' k then Some x else None
      end
  end.

(** ** Sockets and effects *)

(** [readyState] of a [ws] socket. *)
Inductive ReadyState : Type := CONNECTING | OPEN | CLOSING | CLOSED.

Definition is_open (s : option ReadyState) : bool :=
  match s with
  | Some OPEN => true
  | _ => false
  end.

(** What a handler does to the outside, in program order.  A connection is
    named by the order of its arrival (0, 1, ...), an HTTP exchange by the
    number [res] of its response object.
    - [ClientSend c v]: [ws.send(JSON.stringify(v))] on the client socket
      (a server-side socket is never CONNECTING; the write does not throw);
    - [UpstreamSend c v]: [derivWs.send(JSON.stringify(v))] that returned
      normally;
    - [UpstreamClose c]: [derivWs.close()];
    - [HttpReply res status body]: [res.status(status).json(body)]. *)
Inductive Effect : Type :=
| ClientSend (c : nat) (payload : jsval)
| UpstreamSend (c : nat) (payload : jsval)
| UpstreamClose (c : nat)
| HttpReply (res : nat) (status : nat) (body : jsval).

(** The payloads written to the upstream socket of connection [c]. *)
Definition upstream_of (c : nat) (out : list Effect) : list jsval :=
  omap (fun e => match e with
                 | UpstreamSend c' v => if Nat.eqb c' c then Some v else None
                 | _ => None
                 end) out.

(** The messages written to the client socket of connection [c]. *)
Definition client_of (c : nat) (out : list Effect) : list jsval :=
  omap (fun e => match e with
                 | ClientSend c' v => if Nat.eqb c' c then Some v else None
                 | _ => None
                 end) out.

(** The replies given on response object [res]. *)
Definition replies_of (res : nat) (out : list Effect) : list (nat * jsval) :=
  omap (fun e => match e with
                 | HttpReply r status body =>
                     if Nat.eqb r res then Some (status, body) else None
                 | _ => None
                 end) out.

(** A JSON text that carries the top-level key [k]. *)
Definition has_key (k : string) (v : jsval) : bool :=
  match v with
  | JObj fields => match own fields k with Some _ => true | None => false end
  | _ => false
  end.

Definition num (z : Z) : jsval := JNum (inject_Z z).

(** The objects the handlers build. *)
Definition authorize_request (token : jsval) : jsval :=
  JObj [("authorize", token)].
Definition ticks_request (symbol : jsval) : jsval :=
  JObj [("ticks", symbol); ("subscribe", num 1)].
Definition forget_request : jsval :=
  JObj [("forget", JStr "ticks")].
Definition buy_request (stake symbol : jsval) : jsval :=
  JObj [("buy", num 1); ("price", stake); ("subscribe", num 0);
        ("symbol", symbol)].

Definition tick_event (symbol quote epoch : jsval) : jsval :=
  JObj [("type", JStr "tick"); ("symbol", symbol); ("quote", quote);
        ("epoch", epoch)].
Definition typed_symbol (type : string) (symbol : jsval) : jsval :=
  JObj [("type", JStr type); ("symbol", symbol)].
Definition error_event (message : jsval) : jsval :=
  JObj [("type", JStr "error"); ("message", message)].
Definition authorized_event (account : jsval) : jsval :=
  JObj [("type", JStr "authorized"); ("account", account)].
Definition balance_event (balance : jsval) : jsval :=
  JObj [("type", JStr "balance"); ("balance", balance)].
Definition buy_result_event (result : jsval) : jsval :=
  JObj [("type", JStr "buy_result"); ("result", result)].
Definition fail_body (error : jsval) : jsval :=
  JObj [("ok", JBool false); ("error", error)].
Definition result_body (result : jsval) : jsval :=
  JObj [("ok", JBool true); ("result", result)].

(** The session store is a plain object used as a map: [store[sid]] finds an
    own property or falls back to [Object.prototype]. *)
Definition store_get (store : gmap string jsval) (sid : string) : jsval :=
  match store !! sid with
  | Some v => v
  | None => Object_prototype_get sid
  end.

(** [sid ? sessionTokenStore[sid] : null], the [token] a connection handler
    captures when the connection arrives. *)
Definition token_of (store : gmap string jsval) (sid : option string) : jsval :=
  match sid with
  | Some s => if truthy (JStr s) then store_get store s else JNull
  | None => JNull
  end.

(** [!sid || !sessionTokenStore[sid]] is false. *)
Definition logged (store : gmap string jsval) (sid : option string) : bool :=
  match sid with
  | Some s => truthy (JStr s) && truthy (store_get store s)
  | None => false
  end.

(** ** The extended proxy *)

Module Proxy.

(** The [meta] object of one client connection.  [derivWs] is [None] for
    [null], else the state of the upstream socket.  [pendingRequests] is the
    object keyed by [reqId]; its value, the closure
    [(resp) => res.json({ ok:true, result: resp })], is named by its [res].
    The keys are [Date.now()] readings, far above the array-index range, so
    the object enumerates them in insertion order. *)
Record Meta : Type := {
  sessionId : option string;
  derivWs : option ReadyState;
  subscribed : list jsval;
  accountInfo : jsval;
  authorized : bool;
  pendingRequests : list (Z * nat)
}.

(** What the handlers of one connection share by closure: the [token] read
    when the connection arrived, and the [meta] object, which stays alive
    after [clientMeta.delete(ws)]. *)
Record Conn : Type := {
  token : jsval;
  meta : Meta
}.

(** The module-level stores.  [conns] holds the closures of every connection
    accepted so far, by connection number; [clientMeta] lists the keys of the
    [Map] in insertion order, which is the order [values()] and [entries()]
    follow. *)
Record State : Type := {
  sessionTokenStore : gmap string jsval;
  conns : list Conn;
  clientMeta : list nat
}.

Definition initial : State :=
  {| sessionTokenStore := ∅; conns := []; clientMeta := [] |}.

Definition set_store (f : gmap string jsval → gmap string jsval) (st : State) : State :=
  {| sessionTokenStore := f (sessionTokenStore st);
     conns := conns st;
     clientMeta := clientMeta st |}.

(** A write through the shared [meta] reference of connection [c]. *)
Definition set_meta (c : nat) (m : Meta) (st : State) : State :=
  {| sessionTokenStore := sessionTokenStore st;
     conns := alter (fun cn => {| token := token cn; meta := m |}) c (conns st);
     clientMeta := clientMeta st |}.

Definition with_derivWs (s : option ReadyState) (m : Meta) : Meta :=
  {| sessionId := sessionId m; derivWs := s; subscribed := subscribed m;
     accountInfo := accountInfo m; authorized := authorized m;
     pendingRequests := pendingRequests m |}.

Definition with_subscribed (s : list jsval) (m : Meta) : Meta :=
  {| sessionId := sessionId m; derivWs := derivWs m; subscribed := s;
     accountInfo := accountInfo m; authorized := authorized m;
     pendingRequests := pendingRequests m |}.

Definition with_account (info : jsval) (m : Meta) : Meta :=
  {| sessionId := sessionId m; derivWs := derivWs m;
     subscribed := subscribed m; accountInfo := info; authorized := true;
     pendingRequests := pendingRequests m |}.

Definition with_pending (p : list (Z * nat)) (m : Meta) : Meta :=
  {| sessionId := sessionId m; derivWs := derivWs m;
     subscribed := subscribed m; accountInfo := accountInfo m;
     authorized := authorized m; pendingRequests := p |}.

(** [pendingRequests[reqId] = resolver]: an existing key keeps its place and
    takes the new value. *)
Fixpoint pending_set (reqId : Z) (res : nat) (p : list (Z * nat)) : list (Z * nat) :=
  match p with
  | [] => [(reqId, res)]
  | (k, r) :: rest =>
      if Z.eqb k reqId then (reqId, res) :: rest
      else (k, r) :: pending_set reqId res rest
  end.

(** [delete pendingRequests[reqId]]. *)
Definition pending_delete (reqId : Z) (p : list (Z * nat)) : list (Z * nat) :=
  filter (fun e => e.1 ≠ reqId) p.

(** [pendingRequests[reqId]]. *)
Fixpoint pending_get (reqId : Z) (p : list (Z * nat)) : option nat :=
  match p with
  | [] => None
  | (k, r) :: rest => if Z.eqb k reqId then Some r else pending_get reqId rest
  end.

(** [meta.sessionId === sid] for a string [sid]. *)
Definition same_session (sid : string) (m : Meta) : bool :=
  match sessionId m with
  | Some s => String.eqb s sid
  | None => false
  end.

(** The test of the [/me] loop. *)
Definition has_account (sid : string) (m : Meta) : bool :=
  same_session sid m && truthy (accountInfo m).

(** The test of the [/api/buy] loop:
    [meta.sessionId === sid && meta.derivWs && meta.authorized]. *)
Definition buy_ready (sid : string) (m : Meta) : bool :=
  same_session sid m
  && match derivWs m with Some _ => true | None => false end
  && authorized m.

(** [for (... of clientMeta.values()) if (test) { found = meta; break; }] *)
Fixpoint find_meta (test : Meta → bool) (cs : list Conn) (keys : list nat) : option (nat * Meta) :=
  match keys with
  | [] => None
  | c :: rest =>
      match cs !! c with
      | Some cn => if test (meta cn) then Some (c, meta cn)
                   else find_meta test cs rest
      | None => find_meta test cs rest
      end
  end.

(** What reaches the handlers.  [res] numbers the response object of an HTTP
    exchange; [sid] is [req.cookies['SESSION_ID']], resp. [ws.sessionId], the
    text that the upgrade handler's [/SESSION_ID=([^;]+)/] took from the
    cookie header ([None] without a match);
    [token], [symbol], [stake] are the fields of [req.body]; [uuid] is what
    [uuidv4()] returns and [now] what [Date.now()] returns; [fault] is the
    message of the exception that the write to the upstream socket throws, if
    it throws; [data] and [raw] are [JSON.parse] of the frame, [None] when it
    throws. *)
Inductive Event : Type :=
| PostStoreToken (res : nat) (token : jsval) (uuid : string)
| GetMe (res : nat) (sid : option string)
| PostLogout (res : nat) (sid : option string)
| PostBuy (res : nat) (sid : option string) (symbol stake : jsval)
          (now : Z) (fault : option string)
| Connection (sid : option string)
| DerivOpen (c : nat) (fault : option string)
| DerivMessage (c : nat) (data : option jsval)
| DerivClose (c : nat)
| ClientMessage (c : nat) (raw : option jsval) (fault : option string)
| ClientClose (c : nat).

Definition reply (st : State) (res status : nat) (body : jsval) : option (State * list Effect) :=
  Some (st, [HttpReply res status (wire body)]).

(** [app.post('/store-token', ...)] *)
Definition store_token (st : State) (res : nat) (tok : jsval) (uuid : string) : option (State * list Effect) :=
  if negb (truthy tok) then reply st res 400 (fail_body (JStr "token missing"))
  else reply (set_store (insert uuid tok) st) res 200
         (JObj [("ok", JBool true); ("sessionId", JStr uuid)]).

(** [app.get('/me', ...)] *)
Definition me (st : State) (res : nat) (sid : option string) : option (State * list Effect) :=
  if negb (logged (sessionTokenStore st) sid) then
    reply st res 401 (JObj [("authorized", JBool false)])
  else
    match find_meta (has_account (default "" sid)) (conns st) (clientMeta st) with
    | Some (_, m) =>
        reply st res 200 (JObj [("authorized", JBool true); ("account", accountInfo m)])
    | None =>
        reply st res 200 (JObj [("authorized", JBool true); ("account", JNull)])
    end.

(** [app.post('/logout', ...)] *)
Definition logout (st : State) (res : nat) (sid : option string) : option (State * list Effect) :=
  match sid with
  | Some s =>
      if truthy (JStr s) then reply (set_store (delete s) st) res 200 (JObj [("ok", JBool true)])
      else reply st res 200 (JObj [("ok", JBool true)])
  | None => reply st res 200 (JObj [("ok", JBool true)])
  end.

(** [app.post('/api/buy', ...)] *)
Definition buy (st : State) (res : nat) (sid : option string) (symbol stake : jsval)
    (now : Z) (fault : option string) : option (State * list Effect) :=
  if negb (logged (sessionTokenStore st) sid) then
    reply st res 401 (fail_body (JStr "not logged"))
  else if negb (truthy symbol) || negb (truthy stake) then
    reply st res 400 (fail_body (JStr "missing params"))
  else
    match find_meta (buy_ready (default "" sid)) (conns st) (clientMeta st) with
    | None => reply st res 500 (fail_body (JStr "deriv connection not ready"))
    | Some (c, found) =>
        let reqId := now in
        let buyRequest := buy_request stake symbol in
        let registered := pending_set reqId res (pendingRequests found) in
        match fault with
        | None =>
            Some (set_meta c (with_pending registered found) st,
                  [UpstreamSend c (wire buyRequest)])
        | Some message =>
            reply (set_meta c (with_pending (pending_delete reqId registered) found) st)
              res 500 (fail_body (JStr message))
        end
    end.

(** [wss.on('connection', ...)] up to the registration of the handlers. *)
Definition connection (st : State) (sid : option string) : option (State * list Effect) :=
  let m := {| sessionId := sid; derivWs := Some CONNECTING; subscribed := [];
              accountInfo := JNull; authorized := false; pendingRequests := [] |} in
  Some ({| sessionTokenStore := sessionTokenStore st;
           conns := conns st ++ [{| token := token_of (sessionTokenStore st) sid; meta := m |}];
           clientMeta := clientMeta st ++ [length (conns st)] |}, []).

(** [derivWs.on('open', ...)]: the socket is open when the handler runs; a
    throw of the write is not caught. *)
Definition deriv_open (st : State) (c : nat) (fault : option string) : option (State * list Effect) :=
  match conns st !! c with
  | None => Some (st, [])
  | Some cn =>
      let st' := set_meta c (with_derivWs (Some OPEN) (meta cn)) st in
      if truthy (token cn) then
        match fault with
        | None => Some (st', [UpstreamSend c (wire (authorize_request (token cn)))])
        | Some _ => None
        end
      else Some (st', [])
  end.

(** The [msg.authorize] branch of [derivWs.on('message', ...)]. *)
Definition on_authorize (st : State) (c : nat) (m : Meta) (a : jsval) : option (State * list Effect) :=
  e ← get a "error";
  if truthy e then
    message ← get e "message";
    Some (st, [ClientSend c (wire (error_event message))])
  else
    loginid ← get a "loginid";
    currency ← get a "currency";
    balance ← get a "balance";
    let info := JObj [("loginid", loginid); ("currency", currency); ("balance", balance)] in
    Some (set_meta c (with_account info m) st,
          [ClientSend c (wire (authorized_event info));
           ClientSend c (wire (balance_event balance))]).

(** The [msg.tick] branch. *)
Definition on_tick (st : State) (c : nat) (t : jsval) : option (State * list Effect) :=
  symbol ← get t "symbol";
  quote ← get t "quote";
  epoch ← get t "epoch";
  Some (st, [ClientSend c (wire (tick_event symbol quote epoch))]).

(** The [msg.buy || msg.error] branch: the loop runs over
    [Object.entries(meta.pendingRequests)], calls every resolver inside
    [try] and deletes its key. *)
Definition on_buy_result (st : State) (c : nat) (m : Meta) (msg : jsval) : option (State * list Effect) :=
  Some (set_meta c (with_pending [] m) st,
        ClientSend c (wire (buy_result_event msg))
        :: map (fun e => HttpReply e.2 200 (wire (result_body msg))) (pendingRequests m)).

(** [derivWs.on('message', ...)]: only [JSON.parse] is inside [try]. *)
Definition deriv_message (st : State) (c : nat) (data : option jsval) : option (State * list Effect) :=
  match conns st !! c, data with
  | None, _ => Some (st, [])
  | Some _, None => Some (st, [])
  | Some cn, Some msg =>
      a ← get msg "authorize";
      if truthy a then on_authorize st c (meta cn) a
      else
        t ← get msg "tick";
        if truthy t then on_tick st c t
        else
          b ← get msg "buy";
          e ← get msg "error";
          if truthy b || truthy e then on_buy_result st c (meta cn) msg
          else Some (st, [])
  end.

(** [derivWs.on('close', ...)] only logs; the socket is closed by then. *)
Definition deriv_close (st : State) (c : nat) : option (State * list Effect) :=
  match conns st !! c with
  | None => Some (st, [])
  | Some cn => Some (set_meta c (with_derivWs (Some CLOSED) (meta cn)) st, [])
  end.

(** The body of the [try] of [ws.on('message', ...)]; [None] is a throw, which
    the [catch] swallows before anything was changed. *)
Definition client_try (st : State) (c : nat) (m : Meta) (raw : option jsval)
    (fault : option string) : option (State * list Effect) :=
  msg ← raw;
  type ← get msg "type";
  symbol ← get msg "symbol";
  if is_str type "subscribe" && truthy symbol && is_open (derivWs m) then
    let st' := set_meta c (with_subscribed (Set_add symbol (subscribed m)) m) st in
    match fault with
    | None =>
        Some (st', [UpstreamSend c (wire (ticks_request symbol));
                    ClientSend c (wire (typed_symbol "subscribed" symbol))])
    | Some _ => Some (st', [])
    end
  else Some (st, []).

(** [ws.on('message', ...)] *)
Definition client_message (st : State) (c : nat) (raw : option jsval)
    (fault : option string) : option (State * list Effect) :=
  match conns st !! c with
  | None => Some (st, [])
  | Some cn =>
      match client_try st c (meta cn) raw fault with
      | Some r => Some r
      | None => Some (st, [])
      end
  end.

(** [ws.on('close', ...)] *)
Definition client_close (st : State) (c : nat) : option (State * list Effect) :=
  match conns st !! c with
  | None => Some (st, [])
  | Some cn =>
      let unregistered (s : State) : State :=
        {| sessionTokenStore := sessionTokenStore s; conns := conns s;
           clientMeta := filter (fun k => k ≠ c) (clientMeta s) |} in
      match derivWs (meta cn) with
      | Some rs =>
          let rs' := match rs with CLOSED => CLOSED | _ => CLOSING end in
          Some (unregistered (set_meta c (with_derivWs (Some rs') (meta cn)) st),
                [UpstreamClose c])
      | None => Some (unregistered st, [])
      end
  end.

(** One turn of the event loop. *)
Definition handle (st : State) (ev : Event) : option (State * list Effect) :=
  match ev with
  | PostStoreToken res tok uuid => store_token st res tok uuid
  | GetMe res sid => me st res sid
  | PostLogout res sid => logout st res sid
  | PostBuy res sid symbol stake now fault => buy st res sid symbol stake now fault
  | Connection sid => connection st sid
  | DerivOpen c fault => deriv_open st c fault
  | DerivMessage c data => deriv_message st c data
  | DerivClose c => deriv_close st c
  | ClientMessage c raw fault => client_message st c raw fault
  | ClientClose c => client_close st c
  end.

(** The events in turn; an uncaught exception ends the process. *)
Fixpoint run (st : State) (evs : list Event) : State * list Effect :=
  match evs with
  | [] => (st, [])
  | ev :: rest =>
      match handle st ev with
      | None => (st, [])
      | Some (st', out) =>
          let (st'', out') := run st' rest in (st'', out ++ out')
      end
  end.

(** The [meta] object of connection [c]. *)
Definition meta_of (st : State) (c : nat) : option Meta :=
  meta <$> conns st !! c.

(** A frame with [data] arrives on the upstream socket of connection [c]:
    the handler begins with [JSON.parse(data)]. *)
Definition upstream_frame (c : nat) (data : option text) : Event :=
  DerivMessage c (JSON_parse data).

(** A frame with [raw] arrives on the client socket of connection [c]. *)
Definition client_frame (c : nat) (raw : option text) (fault : option string) : Event :=
  ClientMessage c (JSON_parse raw) fault.

End Proxy.

(** ** The simple proxy ([src/backend/server.js]) *)

Module SimpleProxy.

(** The closure of one connection: [token], the upstream socket [derivWs],
    and the object [{ sessionId, derivWs, subscribed }] stored in
    [clientMap]. *)
Record Conn : Type := {
  token : jsval;
  derivWs : ReadyState;
  sessionId : option string;
  subscribed : list jsval
}.

(** [clientMap] lists the connections that are in the [Map]. *)
Record State : Type := {
  sessionTokenStore : gmap string jsval;
  conns : list Conn;
  clientMap : list nat
}.

Definition initial : State :=
  {| sessionTokenStore := ∅; conns := []; clientMap := [] |}.

Definition set_conn (c : nat) (cn : Conn) (st : State) : State :=
  {| sessionTokenStore := sessionTokenStore st;
     conns := <[c := cn]> (conns st);
     clientMap := clientMap st |}.

Definition with_derivWs (s : ReadyState) (cn : Conn) : Conn :=
  {| token := token cn; derivWs := s; sessionId := sessionId cn;
     subscribed := subscribed cn |}.

Definition with_subscribed (s : list jsval) (cn : Conn) : Conn :=
  {| token := token cn; derivWs := derivWs cn; sessionId := sessionId cn;
     subscribed := s |}.

(** [clientMap.get(ws)] is an object. *)
Definition in_map (st : State) (c : nat) : bool :=
  existsb (Nat.eqb c) (clientMap st).

Inductive Event : Type :=
| PostStoreToken (res : nat) (token : jsval) (uuid : string)
| Connection (sid : option string)
| DerivOpen (c : nat) (fault : option string)
| DerivMessage (c : nat) (data : option jsval)
| DerivClose (c : nat)
| ClientMessage (c : nat) (raw : option jsval) (fault : option string)
| ClientClose (c : nat).

(** [app.post('/store-token', ...)] *)
Definition store_token (st : State) (res : nat) (tok : jsval) (uuid : string) : option (State * list Effect) :=
  if negb (truthy tok) then
    Some (st, [HttpReply res 400 (wire (fail_body (JStr "token missing")))])
  else
    Some ({| sessionTokenStore := <[uuid := tok]> (sessionTokenStore st);
             conns := conns st; clientMap := clientMap st |},
          [HttpReply res 200 (wire (JObj [("ok", JBool true); ("sessionId", JStr uuid)]))]).

(** [wss.on('connection', ...)] up to the registration of the handlers. *)
Definition connection (st : State) (sid : option string) : option (State * list Effect) :=
  Some ({| sessionTokenStore := sessionTokenStore st;
           conns := conns st ++ [{| token := token_of (sessionTokenStore st) sid;
                                    derivWs := CONNECTING; sessionId := sid;
                                    subscribed := [] |}];
           clientMap := clientMap st ++ [length (conns st)] |}, []).

(** [derivWs.on('open', ...)] *)
Definition deriv_open (st : State) (c : nat) (fault : option string) : option (State * list Effect) :=
  match conns st !! c with
  | None => Some (st, [])
  | Some cn =>
      let st' := set_conn c (with_derivWs OPEN cn) st in
      if truthy (token cn) then
        match fault with
        | None => Some (st', [UpstreamSend c (wire (authorize_request (token cn)));
                              ClientSend c (wire (JObj [("type", JStr "authorized")]))])
        | Some _ => None
        end
      else Some (st', [])
  end.

(** The body of the [try] of [derivWs.on('message', ...)]. *)
Definition deriv_try (st : State) (c : nat) (data : option jsval) : option (State * list Effect) :=
  msg ← data;
  t ← get msg "tick";
  if truthy t then
    symbol ← get t "symbol";
    quote ← get t "quote";
    epoch ← get t "epoch";
    Some (st, [ClientSend c (wire (tick_event symbol quote epoch))])
  else Some (st, []).

(** [derivWs.on('message', ...)] *)
Definition deriv_message (st : State) (c : nat) (data : option jsval) : option (State * list Effect) :=
  match conns st !! c with
  | None => Some (st, [])
  | Some _ =>
      match deriv_try st c data with
      | Some r => Some r
      | None => Some (st, [])
      end
  end.

Definition deriv_close (st : State) (c : nat) : option (State * list Effect) :=
  match conns st !! c with
  | None => Some (st, [])
  | Some cn => Some (set_conn c (with_derivWs CLOSED cn) st, [])
  end.

(** One of the two branches that write upstream: [derivWs.send(request)],
    then [clientMap.get(ws).subscribed] is updated, then the client is
    answered.  A throw at the first or the second step leaves what was done
    before it and goes to the [catch]. *)
Definition forward (st : State) (c : nat) (cn : Conn) (fault : option string)
    (request : jsval) (update : list jsval → list jsval) (answer : jsval) : State * list Effect :=
  match fault with
  | Some _ => (st, [])
  | None =>
      if in_map st c then
        (set_conn c (with_subscribed (update (subscribed cn)) cn) st,
         [UpstreamSend c (wire request); ClientSend c (wire answer)])
      else (st, [UpstreamSend c (wire request)])
  end.

(** [ws.on('message', ...)] *)
Definition client_message (st : State) (c : nat) (raw : option jsval)
    (fault : option string) : option (State * list Effect) :=
  match conns st !! c with
  | None => Some (st, [])
  | Some cn =>
      match raw with
      | None => Some (st, [])
      | Some msg =>
          match get msg "type", get msg "symbol" with
          | Some type, Some symbol =>
              if is_str type "config" then Some (st, [])
              else if is_str type "subscribe" && truthy symbol then
                Some (forward st c cn fault (ticks_request symbol)
                        (Set_add symbol) (typed_symbol "subscribed" symbol))
              else if is_str type "unsubscribe" && truthy symbol then
                Some (forward st c cn fault forget_request
                        (Set_delete symbol) (typed_symbol "unsubscribed" symbol))
              else Some (st, [])
          | _, _ => Some (st, [])
          end
      end
  end.

(** [ws.on('close', ...)] *)
Definition client_close (st : State) (c : nat) : option (State * list Effect) :=
  match conns st !! c with
  | None => Some (st, [])
  | Some cn =>
      let unregistered (s : State) : State :=
        {| sessionTokenStore := sessionTokenStore s; conns := conns s;
           clientMap := filter (fun k => k ≠ c) (clientMap s) |} in
      if in_map st c then
        let rs' := match derivWs cn with CLOSED => CLOSED | _ => CLOSING end in
        Some (unregistered (set_conn c (with_derivWs rs' cn) st), [UpstreamClose c])
      else Some (unregistered st, [])
  end.

Definition handle (st : State) (ev : Event) : option (State * list Effect) :=
  match ev with
  | PostStoreToken res tok uuid => store_token st res tok uuid
  | Connection sid => connection st sid
  | DerivOpen c fault => deriv_open st c fault
  | DerivMessage c data => deriv_message st c data
  | DerivClose c => deriv_close st c
  | ClientMessage c raw fault => client_message st c raw fault
  | ClientClose c => client_close st c
  end.

Fixpoint run (st : State) (evs : list Event) : State * list Effect :=
  match evs with
  | [] => (st, [])
  | ev :: rest =>
      match handle st ev with
      | None => (st, [])
      | Some (st', out) =>
          let (st'', out') := run st' rest in (st'', out ++ out')
      end
  end.

Definition upstream_frame (c : nat) (data : option text) : Event :=
  DerivMessage c (JSON_parse data).

Definition client_frame (c : nat) (raw : option text) (fault : option string) : Event :=
  ClientMessage c (JSON_parse raw) fault.

End SimpleProxy.

(** ** Classes of messages *)

(** [msg.k] is read without a throw and is truthy. *)
Definition reads (msg : jsval) (k : string) : bool :=
  match get msg k with
  | Some v => truthy v
  | None => false
  end.

(** An upstream response carries one echoed top-level key; the handler of the
    extended proxy tests [authorize], then [tick], then [buy] / [error]. *)
Definition authorize_success (msg : jsval) : bool :=
  match get msg "authorize" with
  | Some a => truthy a && negb (reads a "error")
  | None => false
  end.

Definition tick_message (msg : jsval) : bool :=
  negb (reads msg "authorize") && reads msg "tick".

Definition buy_or_error_message (msg : jsval) : bool :=
  negb (reads msg "authorize") && negb (reads msg "tick")
  && (reads msg "buy" || reads msg "error").

(** A client message [{ type: t, symbol }] with a symbol. *)
Definition client_command (t : string) (symbol : jsval) (msg : jsval) : Prop :=
  get msg "type" = Some (JStr t) ∧ get msg "symbol" = Some symbol
  ∧ truthy symbol = true.

(** The values that [JSON.stringify] writes as they are and [JSON.parse]
    reads back: no [undefined], no function and no infinite number inside. *)
Fixpoint json (v : jsval) : bool :=
  match v with
  | JUndef | JFun | JInf _ => false
  | JArr items => forallb json items
  | JObj fields =>
      (fix all (fs : list (string * jsval)) : bool :=
         match fs with
         | [] => true
         | (_, x) :: rest => json x && all rest
         end) fields
  | _ => true
  end.

(** The property [k] of the tick [t] as the client is to see it: present with
    the value it has in [t], written by [JSON.stringify], or absent. *)
Definition carried (k : string) (t : jsval) : list (string * jsval) :=
  match get t k with
  | Some x => if serialisable x then [(k, wire x)] else []
  | None => []
  end.

(** The event a tick message is to be forwarded as. *)
Definition forwarded_tick (msg : jsval) : jsval :=
  let t := default JUndef (get msg "tick") in
  JObj (("type", JStr "tick")
        :: carried "symbol" t ++ carried "quote" t ++ carried "epoch" t).

(** A message to the client that announces the authorization. *)
Definition announces_authorized (v : jsval) : bool :=
  match get v "type" with
  | Some type => is_str type "authorized"
  | None => false
  end.

(** The [token] of a connection is a constant of its closure. *)
Definition keeps_tokens (st st' : Proxy.State) : Prop :=
  ∀ c cn, Proxy.conns st !! c = Some cn →
          ∃ cn', Proxy.conns st' !! c = Some cn' ∧ Proxy.token cn' = Proxy.token cn.

(** ** The upgrade handler *)

(** What is left of [s] after the prefix [p], if [s] starts with [p]. *)
Fixpoint drop_prefix (p s : string) : option string :=
  match p, s with
  | EmptyString, _ => Some s
  | String a p', String b s' => if Ascii.eqb a b then drop_prefix p' s' else None
  | String _ _, EmptyString => None
  end.

(** The longest prefix that [[^;]*] matches. *)
Fixpoint until_semicolon (s : string) : string :=
  match s with
  | EmptyString => EmptyString
  | String a rest =>
      if Ascii.eqb a ";"%char then EmptyString
      else String a (until_semicolon rest)
  end.

(** An attempt of [/SESSION_ID=([^;]+)/] at the start of [s]: the literal,
    then at least one character that is not a semicolon, as many as there
    are. *)
Definition session_cookie_here (s : string) : option string :=
  match drop_prefix "SESSION_ID=" s with
  | Some rest =>
      match until_semicolon rest with
      | EmptyString => None
      | v => Some v
      end
  | None => None
  end.

(** [cookies.match(/SESSION_ID=([^;]+)/)]: the first position, from the
    left, at which the attempt succeeds; the result is the group [m[1]]. *)
Fixpoint session_cookie (cookies : string) : option string :=
  match session_cookie_here cookies with
  | Some v => Some v
  | None =>
      match cookies with
      | EmptyString => None
      | String _ rest => session_cookie rest
      end
  end.

(** What becomes of an upgrade request: [socket.destroy()]; the handshake
    aborted with status 400; or the handshake completed and ['connection']
    emitted for a socket with that [sessionId]. *)
Inductive Upgraded : Type :=
| Destroyed
| Refused
| Accepted (sessionId : option string).

(** [req.url] up to its query, the first [?]. *)
Fixpoint pathname (url : string) : string :=
  match url with
  | EmptyString => EmptyString
  | String a rest =>
      if Ascii.eqb a "?"%char then EmptyString else String a (pathname rest)
  end.

(** [server.on('upgrade', ...)], the same in both files, for a WebSocket
    handshake with a [url].  A missing and an empty cookie header are both
    searched as [''] (extended proxy) or not searched (simple proxy), which
    gives [null] either way.  The server [wss] is made with
    [{ noServer: true, path: '/client-proxy' }]: [wss.handleUpgrade] completes
    the handshake only if the url, up to its query, is that path, and aborts
    it otherwise. *)
Definition upgrade (url : string) (cookie : option string) : Upgraded :=
  if negb (String.prefix "/client-proxy" url) then Destroyed
  else
    let sessionId := session_cookie (default "" cookie) in
    if String.eqb (pathname url) "/client-proxy" then Accepted sessionId
    else Refused.

(** ** What reachable states have in common *)

(** The response objects on which resolvers of connection closures wait. *)
Definition waiting (st : Proxy.State) : list nat :=
  concat (map (fun cn => (Proxy.pendingRequests (Proxy.meta cn)).*2) (Proxy.conns st)).

(** The response objects answered by a list of effects. *)
Definition replied (out : list Effect) : list nat :=
  omap (fun e => match e with
                 | HttpReply res _ _ => Some res
                 | _ => None
                 end) out.

(** The response object an HTTP event brings. *)
Definition event_res (ev : Proxy.Event) : option nat :=
  match ev with
  | Proxy.PostStoreToken res _ _ | Proxy.GetMe res _ | Proxy.PostLogout res _
  | Proxy.PostBuy res _ _ _ _ _ => Some res
  | _ => None
  end.

(** The connection whose socket an event comes from. *)
Definition event_conn (ev : Proxy.Event) : option nat :=
  match ev with
  | Proxy.DerivOpen c _ | Proxy.DerivMessage c _ | Proxy.DerivClose c
  | Proxy.ClientMessage c _ _ | Proxy.ClientClose c => Some c
  | _ => None
  end.

(** The connection whose socket an effect goes to. *)
Definition effect_conn (e : Effect) : option nat :=
  match e with
  | ClientSend c _ | UpstreamSend c _ | UpstreamClose c => Some c
  | HttpReply _ _ _ => None
  end.

(** A [meta] object as the handlers leave it: the upstream socket is set,
    [authorized] and [accountInfo] go together, and [pendingRequests] has
    one property per key. *)
Definition meta_ok (m : Proxy.Meta) : Prop :=
  Proxy.derivWs m ≠ None
  ∧ Proxy.authorized m = truthy (Proxy.accountInfo m)
  ∧ NoDup (Proxy.pendingRequests m).*1.

(** The stores as the handlers leave them: the keys of [clientMeta] are
    distinct and name accepted connections, every [meta] is as above, and
    every stored token is truthy. *)
Definition consistent (st : Proxy.State) : Prop :=
  NoDup (Proxy.clientMeta st)
  ∧ (∀ c, c ∈ Proxy.clientMeta st → c < length (Proxy.conns st))
  ∧ (∀ c cn, Proxy.conns st !! c = Some cn → meta_ok (Proxy.meta cn))
  ∧ (∀ s v, Proxy.sessionTokenStore st !! s = Some v → truthy v = true).

(** The shape of one step: the resolvers [P] of one connection become [P'],
    and [replied out] are answered; what is new in either is the response
    object of the event. *)
Definition step_shape (st st' : Proxy.State) (ev : Proxy.Event) (out : list Effect) : Prop :=
  ∃ W1 P W2 P',
    waiting st = W1 ++ P ++ W2
    ∧ waiting st' = W1 ++ P' ++ W2
    ∧ NoDup (P' ++ replied out)
    ∧ ∀ x, x ∈ P' ++ replied out → x ∈ P ∨ event_res ev = Some x.

(** [n] times: a client connects with session id [sid] and disconnects; the
    connection takes the next number each time. *)
Fixpoint connect_disconnect (sid : option string) (first : nat) (n : nat) : list Proxy.Event :=
  match n with
  | O => []
  | S n' =>
      Proxy.Connection sid :: Proxy.ClientClose first
      :: connect_disconnect sid (S first) n'
  end.

(** ** Scenarios *)

(** [{ authorize: { loginid: "CR1", currency: "USD", balance: 100 } }] *)
Definition authorize_CR1 : jsval :=
  JObj [("authorize", JObj [("loginid", JStr "CR1"); ("currency", JStr "USD");
                            ("balance", num 100)])].

(** [{ tick: { symbol: "R_100", quote: 963.5, epoch: 1690000000 } }] *)
Definition tick_R100 : jsval :=
  JObj [("tick", JObj [("symbol", JStr "R_100"); ("quote", JNum (1927 # 2));
                       ("epoch", num 1690000000)])].

(** [{ buy: { contract_id: 7 } }] *)
Definition buy_reply : jsval :=
  JObj [("buy", JObj [("contract_id", num 7)])].

Definition subscribe_R100 : jsval :=
  JObj [("type", JStr "subscribe"); ("symbol", JStr "R_100")].

Definition unsubscribe_R100 : jsval :=
  JObj [("type", JStr "unsubscribe"); ("symbol", JStr "R_100")].

(** A token is stored as session [S1]; a client connects with that cookie;
    its upstream socket opens and the upstream authorizes it. *)
Definition login_S1 : list Proxy.Event :=
  [ Proxy.PostStoreToken 0 (JStr "abc") "S1";
    Proxy.Connection (Some "S1");
    Proxy.DerivOpen 0 None;
    Proxy.DerivMessage 0 (Some authorize_CR1) ].

Definition ready_S1 : Proxy.State := (Proxy.run Proxy.initial login_S1).1.

Definition account_CR1 : jsval :=
  JObj [("loginid", JStr "CR1"); ("currency", JStr "USD"); ("balance", num 100)].

Definition meta_S1 (s : ReadyState) (pending : list (Z * nat)) : Proxy.Meta :=
  {| Proxy.sessionId := Some "S1"; Proxy.derivWs := Some s;
     Proxy.subscribed := []; Proxy.accountInfo := account_CR1;
     Proxy.authorized := true; Proxy.pendingRequests := pending |}.

Definition conn_S1 (s : ReadyState) (pending : list (Z * nat)) : Proxy.Conn :=
  {| Proxy.token := JStr "abc"; Proxy.meta := meta_S1 s pending |}.

(** Two trades are submitted on that session, one millisecond apart. *)
Definition two_pending : Proxy.State :=
  (Proxy.run ready_S1
     [ Proxy.PostBuy 1 (Some "S1") (JStr "R_100") (num 5) 1700000000000 None;
       Proxy.PostBuy 2 (Some "S1") (JStr "R_100") (num 5) 1700000000001 None ]).1.

(** The upstream socket of the authorized connection closes. *)
Definition closed_S1 : Proxy.State :=
  (Proxy.run ready_S1 [Proxy.DerivClose 0]).1.

(** A session with a connection whose upstream socket is open and has not
    answered the authorize request yet. *)
Definition authorizing_S1 : Proxy.State :=
  (Proxy.run Proxy.initial
     [ Proxy.PostStoreToken 0 (JStr "abc") "S1";
       Proxy.Connection (Some "S1");
       Proxy.DerivOpen 0 None ]).1.

(** [{ authorize: { loginid: "CR2", currency: "EUR", balance: 7 } }] *)
Definition authorize_CR2 : jsval :=
  JObj [("authorize", JObj [("loginid", JStr "CR2"); ("currency", JStr "EUR");
                            ("balance", num 7)])].

Definition account_CR2 : jsval :=
  JObj [("loginid", JStr "CR2"); ("currency", JStr "EUR"); ("balance", num 7)].

(** Two clients connect with the cookie of session [S1]; the second one is
    authorized first, as account [CR2], then the first one, as [CR1]. *)
Definition twice_S1 : Proxy.State :=
  (Proxy.run Proxy.initial
     [ Proxy.PostStoreToken 0 (JStr "abc") "S1";
       Proxy.Connection (Some "S1");
       Proxy.Connection (Some "S1");
       Proxy.DerivOpen 0 None;
       Proxy.DerivOpen 1 None;
       Proxy.DerivMessage 1 (Some authorize_CR2);
       Proxy.DerivMessage 0 (Some authorize_CR1) ]).1.

(** The client of the authorized connection subscribes to [R_100]. *)
Definition subscribed_S1 : Proxy.State :=
  (Proxy.run ready_S1 [Proxy.ClientMessage 0 (Some subscribe_R100) None]).1.

(** The same client, served by the simple proxy, with its upstream socket
    open. *)
Definition simple_S1 : SimpleProxy.State :=
  (SimpleProxy.run SimpleProxy.initial
     [ SimpleProxy.PostStoreToken 0 (JStr "abc") "S1";
       SimpleProxy.Connection (Some "S1");
       SimpleProxy.DerivOpen 0 None ]).1.

Definition simple_conn_S1 (subscribed : list jsval) : SimpleProxy.Conn :=
  {| SimpleProxy.token := JStr "abc"; SimpleProxy.derivWs := OPEN;
     SimpleProxy.sessionId := Some "S1"; SimpleProxy.subscribed := subscribed |}.

(** The client of session [S1] reaches the simple proxy and the upstream
    socket opens. *)
Definition simple_login_S1 : list SimpleProxy.Event :=
  [ SimpleProxy.PostStoreToken 0 (JStr "abc") "S1";
    SimpleProxy.Connection (Some "S1");
    SimpleProxy.DerivOpen 0 None ].

(** An upstream frame [{"tick":{"symbol":...,"quote":...,"epoch":...}}]. *)
Definition tick_text (symbol quote epoch : text) : text :=
  TObj [("tick", TObj [("symbol", symbol); ("quote", quote); ("epoch", epoch)])].

(** [{"tick":{"symbol":"R_100","quote":963.5,"epoch":1690000000}}] *)
Definition tick_R100_frame : text :=
  tick_text (TStr "R_100") (TNum (1927 # 2)) (TNum (inject_Z 1690000000)).

(** A tick as the upstream writes it, with the request it answers:
    [{"echo_req":{"ticks":"R_100"},"msg_type":"tick","tick":{"ask":964.1,
    "bid":963.9,"epoch":1690000002,"id":"a1","pip_size":2,"quote":964,
    "symbol":"R_100"}}] *)
Definition tick_R100_next_frame : text :=
  TObj [("echo_req", TObj [("ticks", TStr "R_100")]);
        ("msg_type", TStr "tick");
        ("tick", TObj [("ask", TNum (9641 # 10)); ("bid", TNum (9639 # 10));
                       ("epoch", TNum (inject_Z 1690000002)); ("id", TStr "a1");
                       ("pip_size", TNum (inject_Z 2)); ("quote", TNum (inject_Z 964));
                       ("symbol", TStr "R_100")])].

(** [{"tick":{"symbol":"R_100","quote":1e999,"epoch":9007199254740993}}] *)
Definition tick_beyond_frame : text :=
  tick_text (TStr "R_100") (TNum (inject_Z (10 ^ 999)))
    (TNum (inject_Z 9007199254740993)).

(** A client frame with members beside the command, two of them named
    [symbol]:
    [{"symbol":"R_50","type":"subscribe","req_id":1e999,"symbol":"R_100"}] *)
Definition subscribe_R100_frame : text :=
  TObj [("symbol", TStr "R_50"); ("type", TStr "subscribe");
        ("req_id", TNum (inject_Z (10 ^ 999))); ("symbol", TStr "R_100")].

(** ** Facts about values *)

Section Values.

Lemma json_serialisable (v : jsval) : json v = true → serialisable v = true.
Proof. by destruct v. Qed.

(** [JSON.stringify] followed by [JSON.parse] gives back a parsed value. *)
Lemma wire_json : ∀ v : jsval, json v = true → wire v = v.
Proof.
  fix IH 1. intros [ | | b | q | s | items | fields | | neg ]; simpl; try done.
  - intros H. f_equal. revert items H.
    fix IHl 1. intros [|x xs]; simpl; [done|].
    intros [Hx Hxs]%andb_prop.
    rewrite (json_serialisable x Hx), (IH x Hx), (IHl xs Hxs). done.
  - intros H. f_equal. revert fields H.
    fix IHl 1. intros [|[k x] xs]; simpl; [done|].
    intros [Hx Hxs]%andb_prop.
    rewrite (json_serialisable x Hx), (IH x Hx), (IHl xs Hxs). done.
Qed.

Lemma get_defined (msg : jsval) (k k' : string) (v : jsval) :
  get msg k = Some v → ∃ v', get msg k' = Some v'.
Proof. destruct msg; simpl; intros; simplify_eq; eauto. Qed.

Lemma reads_get (msg : jsval) (k : string) :
  reads msg k = true → ∃ v, get msg k = Some v ∧ truthy v = true.
Proof. unfold reads. destruct (get msg k); [eauto | done]. Qed.

Lemma truthy_defined (v : jsval) (k : string) :
  truthy v = true → ∃ x, get v k = Some x.
Proof. destruct v; simpl; intros; simplify_eq; eauto. Qed.

(** A property of a parsed object is parsed or missing. *)
Lemma json_own (fields : list (string * jsval)) (k : string) (x : jsval) :
  json (JObj fields) = true → own fields k = Some x → json x = true.
Proof.
  induction fields as [|[k' y] rest IH]; simpl; [done|].
  intros [Hy Hrest]%andb_prop. destruct (String.eqb k' k).
  - by intros [= <-].
  - by apply IH.
Qed.

Lemma json_get (v : jsval) (k : string) (x : jsval) :
  json v = true → get v k = Some x → serialisable x = true → json x = true.
Proof.
  destruct v; simpl; try done; try (by intros _ [= <-]).
  intros Hv [= <-]. destruct (own fields k) as [y|] eqn:Hy.
  - intros _. by eapply json_own.
  - unfold Object_prototype_get. repeat case_match; done.
Qed.

Lemma Set_add_has (s : string) (l : list jsval) :
  Set_has (JStr s) (Set_add (JStr s) l) = true.
Proof.
  unfold Set_has, Set_add. destruct (existsb _ l) eqn:E; [done|].
  rewrite existsb_app. simpl. by rewrite String.eqb_refl, orb_true_r.
Qed.

Lemma Set_add_elem (s : string) (l : list jsval) :
  JStr s ∈ Set_add (JStr s) l.
Proof.
  unfold Set_add. destruct (existsb _ l) eqn:E.
  - apply existsb_exists in E as (x & Hx & Hs). apply list_elem_of_In.
    destruct x; simpl in Hs; try done. apply String.eqb_eq in Hs. by subst.
  - set_solver.
Qed.

Lemma Set_delete_has (s : string) (l : list jsval) :
  Set_has (JStr s) (Set_delete (JStr s) l) = false.
Proof.
  unfold Set_has, Set_delete. apply not_true_is_false.
  intros (x & Hx & Hs)%existsb_exists.
  apply list_elem_of_In, list_elem_of_filter in Hx as [Hne _]. congruence.
Qed.

(** A truthy property of a parsed object, under a name that plain objects do
    not inherit, is a parsed value. *)
Lemma json_field (msg : jsval) (k : string) (x : jsval) :
  json msg = true → get msg k = Some x → truthy x = true →
  Object_prototype_get k = JUndef → json x = true.
Proof.
  destruct msg; simpl; try done; try (by intros _ [= <-]).
  intros Hv [= <-]. destruct (own fields k) as [y|] eqn:Hy.
  - intros _ _. by eapply json_own.
  - intros Ht Hp. by rewrite Hp in Ht.
Qed.

Lemma wire_ticks_request (symbol : jsval) :
  json symbol = true → wire (ticks_request symbol) = ticks_request symbol.
Proof.
  intros H. unfold ticks_request. simpl.
  by rewrite (json_serialisable _ H), (wire_json _ H).
Qed.

(** A parsed upstream message goes out as it came in. *)
Lemma wire_buy_result (msg : jsval) :
  json msg = true →
  wire (buy_result_event msg) = buy_result_event msg
  ∧ wire (result_body msg) = result_body msg.
Proof.
  intros H. unfold buy_result_event, result_body. simpl.
  by rewrite (json_serialisable _ H), (wire_json _ H).
Qed.

Lemma wire_typed_symbol (type : string) (symbol : jsval) :
  json symbol = true → wire (typed_symbol type symbol) = typed_symbol type symbol.
Proof.
  intros H. unfold typed_symbol. simpl.
  by rewrite (json_serialisable _ H), (wire_json _ H).
Qed.

End Values.

(** ** The extended proxy: registry and pending table *)

Import Proxy.

Section Registry.

Lemma conns_set_meta (st : State) (c : nat) (m : Meta) (cn : Conn) :
  conns st !! c = Some cn →
  conns (set_meta c m st) !! c = Some {| token := token cn; meta := m |}.
Proof. intros H. simpl. by rewrite list_lookup_alter_eq, H. Qed.

Lemma conns_set_meta_ne (st : State) (c c' : nat) (m : Meta) :
  c ≠ c' → conns (set_meta c m st) !! c' = conns st !! c'.
Proof. intros H. simpl. by rewrite list_lookup_alter_ne. Qed.

Lemma meta_of_set_meta (st : State) (c : nat) (m : Meta) (cn : Conn) :
  conns st !! c = Some cn → meta_of (set_meta c m st) c = Some m.
Proof. intros H. unfold meta_of. by rewrite (conns_set_meta _ _ _ cn). Qed.

Lemma find_meta_none (test : Meta → bool) (cs : list Conn) (keys : list nat) :
  (∀ c cn, c ∈ keys → cs !! c = Some cn → test (meta cn) = false) →
  find_meta test cs keys = None.
Proof.
  induction keys as [|k keys IH]; simpl; [done|]. intros H.
  destruct (cs !! k) as [cn|] eqn:Hk.
  - rewrite (H k cn); [|by left|done]. apply IH. intros c' cn' Hin Hl. apply (H c' cn'); [by right|done].
  - apply IH. intros c' cn' Hin Hl. apply (H c' cn'); [by right|done].
Qed.

Lemma find_meta_first (test : Meta → bool) (cs : list Conn)
    (before after : list nat) (c : nat) (cn : Conn) :
  (∀ c' cn', c' ∈ before → cs !! c' = Some cn' → test (meta cn') = false) →
  cs !! c = Some cn → test (meta cn) = true →
  find_meta test cs (before ++ c :: after) = Some (c, meta cn).
Proof.
  intros Hb Hc Ht. induction before as [|k before IH]; simpl.
  - by rewrite Hc, Ht.
  - destruct (cs !! k) as [cn'|] eqn:Hk.
    + rewrite (Hb k cn'); [|by left|done]. apply IH. intros c' cn'' Hin Hl. apply (Hb c' cn''); [by right|done].
    + apply IH. intros c' cn'' Hin Hl. apply (Hb c' cn''); [by right|done].
Qed.

Lemma find_meta_some (test : Meta → bool) (cs : list Conn) (keys : list nat)
    (c : nat) (m : Meta) :
  find_meta test cs keys = Some (c, m) →
  c ∈ keys ∧ test m = true ∧ ∃ cn, cs !! c = Some cn ∧ meta cn = m.
Proof.
  induction keys as [|k keys IH]; simpl; [done|].
  destruct (cs !! k) as [cn|] eqn:Hk.
  - destruct (test (meta cn)) eqn:Ht.
    + intros [= <- <-]. split; [by left|]. eauto.
    + intros H. destruct (IH H) as (? & ? & ?). split; [by right|done].
  - intros H. destruct (IH H) as (? & ? & ?). split; [by right|done].
Qed.

Lemma pending_get_set (k : Z) (res : nat) (p : list (Z * nat)) :
  pending_get k (pending_set k res p) = Some res.
Proof.
  induction p as [|[k' r] p IH]; simpl.
  - by rewrite Z.eqb_refl.
  - destruct (Z.eqb k' k) eqn:E; simpl; [by rewrite Z.eqb_refl | by rewrite E].
Qed.

Lemma pending_get_set_ne (k k' : Z) (res : nat) (p : list (Z * nat)) :
  k ≠ k' → pending_get k' (pending_set k res p) = pending_get k' p.
Proof.
  intros Hne. induction p as [|[k0 r] p IH]; simpl.
  - destruct (Z.eqb_spec k k'); done.
  - destruct (Z.eqb_spec k0 k) as [->|]; simpl.
    + destruct (Z.eqb_spec k k'); done.
    + by rewrite IH.
Qed.

Lemma pending_get_delete (k : Z) (p : list (Z * nat)) :
  pending_get k (pending_delete k p) = None.
Proof.
  unfold pending_delete. induction p as [|[k' r] p IH]; simpl; [done|].
  rewrite filter_cons. simpl. case_decide; simpl; [|done].
  destruct (Z.eqb_spec k' k); done.
Qed.

(** Deleting the key just written leaves what was registered under the other
    keys. *)
Lemma pending_delete_set (k : Z) (res : nat) (p : list (Z * nat)) :
  pending_delete k (pending_set k res p) = pending_delete k p.
Proof.
  unfold pending_delete. induction p as [|[k' r] p IH]; simpl.
  - rewrite filter_cons. simpl. by case_decide.
  - destruct (Z.eqb_spec k' k) as [->|Hne].
    + rewrite !filter_cons. simpl. by repeat case_decide.
    + rewrite !filter_cons. simpl. rewrite IH. done.
Qed.

Lemma pending_delete_subseteq (k : Z) (p : list (Z * nat)) :
  pending_delete k p ⊆ p.
Proof. unfold pending_delete. intros e He. by apply list_elem_of_filter in He as [_ ?]. Qed.

End Registry.

(** ** Upstream buy and error replies *)

Section BuyResult.

(** C1. When a buy or error message arrives from upstream on a connection
    with any number of pending trade requests, the bridge first sends
    [{ type: 'buy_result', result: msg }] to the client, then answers every
    resolver registered on that connection with that one message, and leaves
    the table of pending requests empty. *)
Theorem buy_result_resolves_all (st : State) (c : nat) (cn : Conn) (msg : jsval) :
  conns st !! c = Some cn →
  buy_or_error_message msg = true →
  ∃ st',
    handle st (DerivMessage c (Some msg)) =
      Some (st', ClientSend c (wire (buy_result_event msg))
                 :: map (λ e, HttpReply e.2 200 (wire (result_body msg)))
                      (pendingRequests (meta cn)))
    ∧ meta_of st' c = Some (with_pending [] (meta cn))
    ∧ (∀ c', c' ≠ c → conns st' !! c' = conns st !! c')
    ∧ clientMeta st' = clientMeta st
    ∧ sessionTokenStore st' = sessionTokenStore st.
Proof.
  intros Hc Hmsg. exists (set_meta c (with_pending [] (meta cn)) st).
  split; [|split; [by eapply meta_of_set_meta|split; [|done]]].
  - unfold buy_or_error_message, reads in Hmsg. simpl. unfold deriv_message.
    rewrite Hc.
    destruct (get msg "authorize") as [a|] eqn:Ha.
    2:{ destruct (get msg "tick") as [t|] eqn:Ht;
        destruct msg; simpl in *; simplify_eq. }
    destruct (get_defined msg _ "tick" _ Ha) as [t Ht].
    destruct (get_defined msg _ "buy" _ Ha) as [b Hb].
    destruct (get_defined msg _ "error" _ Ha) as [e He].
    rewrite Ht, Hb, He in Hmsg. simpl.
    destruct (truthy a); [done|]. rewrite Ht. simpl.
    destruct (truthy t); [done|]. rewrite Hb, He. simpl in *.
    by rewrite Hmsg.
  - intros c' Hne. by apply conns_set_meta_ne.
Qed.

End BuyResult.

(** The scenario of two pending trades and one upstream reply. *)
Lemma buy_result_resolves_all_witness :
  conns two_pending !! 0
    = Some (conn_S1 OPEN [(1700000000000%Z, 1); (1700000000001%Z, 2)])
  ∧ buy_or_error_message buy_reply = true
  ∧ ∃ st',
      handle two_pending (DerivMessage 0 (Some buy_reply)) =
        Some (st', [ClientSend 0 (buy_result_event buy_reply);
                    HttpReply 1 200 (result_body buy_reply);
                    HttpReply 2 200 (result_body buy_reply)])
      ∧ meta_of st' 0 = Some (meta_S1 OPEN [])
      ∧ (∀ c', c' ≠ 0 → conns st' !! c' = conns two_pending !! c')
      ∧ clientMeta st' = clientMeta two_pending
      ∧ sessionTokenStore st' = sessionTokenStore two_pending.
Proof.
  split; [by vm_compute|]. split; [by vm_compute|].
  apply (buy_result_resolves_all two_pending 0
           (conn_S1 OPEN [(1700000000000%Z, 1); (1700000000001%Z, 2)]) buy_reply);
    by vm_compute.
Defined.

(** ** Trade submission *)

Section Submit.

Lemma buy_not_logged (st : State) (res : nat) (sid : option string)
    (symbol stake : jsval) (now : Z) (fault : option string) :
  logged (sessionTokenStore st) sid = false →
  handle st (PostBuy res sid symbol stake now fault)
  = Some (st, [HttpReply res 401 (fail_body (JStr "not logged"))]).
Proof. intros H. simpl. unfold buy. by rewrite H. Qed.

(** The check of the parameters comes before the look-up of a connection. *)
Lemma buy_missing_params (st : State) (res : nat) (sid : option string)
    (symbol stake : jsval) (now : Z) (fault : option string) :
  logged (sessionTokenStore st) sid = true →
  truthy symbol && truthy stake = false →
  handle st (PostBuy res sid symbol stake now fault)
  = Some (st, [HttpReply res 400 (fail_body (JStr "missing params"))]).
Proof.
  intros H Hp. simpl. unfold buy. rewrite H. simpl.
  by destruct (truthy symbol), (truthy stake).
Qed.

(** What [/api/buy] does once it has found a connection. *)
Lemma buy_found (st : State) (res : nat) (s : string) (symbol stake : jsval)
    (now : Z) (fault : option string) (c : nat) (found : Meta) :
  logged (sessionTokenStore st) (Some s) = true →
  truthy symbol = true → truthy stake = true →
  find_meta (buy_ready s) (conns st) (clientMeta st) = Some (c, found) →
  handle st (PostBuy res (Some s) symbol stake now fault)
  = match fault with
    | None =>
        Some (set_meta c (with_pending (pending_set now res (pendingRequests found)) found) st,
              [UpstreamSend c (wire (buy_request stake symbol))])
    | Some message =>
        Some (set_meta c (with_pending
                            (pending_delete now (pending_set now res (pendingRequests found)))
                            found) st,
              [HttpReply res 500 (fail_body (JStr message))])
    end.
Proof.
  intros H Hsym Hstake Hfind. simpl. unfold buy.
  rewrite H, Hsym, Hstake. simpl. rewrite Hfind. by destruct fault.
Qed.

(** Where the look-up of [/api/buy] refuses.  A submission with a known
    session, a symbol and a stake, at a time when no registered connection of
    that session is authorized (with an upstream socket), is answered at once
    with status 500, [{ ok: false, error: 'deriv connection not ready' }];
    nothing is written to an upstream socket and nothing is registered. *)
Lemma buy_without_authorized_connection (st : State) (res : nat) (s : string)
    (symbol stake : jsval) (now : Z) (fault : option string) :
  logged (sessionTokenStore st) (Some s) = true →
  truthy symbol = true → truthy stake = true →
  (∀ c cn, c ∈ clientMeta st → conns st !! c = Some cn →
           same_session s (meta cn) = true → authorized (meta cn) = true →
           derivWs (meta cn) = None) →
  handle st (PostBuy res (Some s) symbol stake now fault)
  = Some (st, [HttpReply res 500 (fail_body (JStr "deriv connection not ready"))]).
Proof.
  intros H Hsym Hstake Hnone. simpl. unfold buy.
  rewrite H, Hsym, Hstake. simpl. rewrite find_meta_none; [done|].
  intros c cn Hin Hc. unfold buy_ready.
  destruct (same_session s (meta cn)) eqn:Hs; [|done].
  destruct (authorized (meta cn)) eqn:Ha; [|by rewrite andb_false_r].
  by rewrite (Hnone c cn Hin Hc Hs Ha).
Qed.

Lemma buy_without_authorized_connection_witness :
  logged (sessionTokenStore authorizing_S1) (Some "S1") = true
  ∧ handle authorizing_S1
      (PostBuy 1 (Some "S1") (JStr "R_100") (num 5) 1700000000000 None)
    = Some (authorizing_S1,
            [HttpReply 1 500 (fail_body (JStr "deriv connection not ready"))]).
Proof.
  split; [by vm_compute|].
  apply (buy_without_authorized_connection authorizing_S1 1 "S1" (JStr "R_100")
           (num 5) 1700000000000 None); try by vm_compute.
  intros c cn Hin Hc _ Ha. vm_compute in Hin.
  apply elem_of_cons in Hin as [->|Hin]; [|by apply elem_of_nil in Hin].
  vm_compute in Hc. injection Hc as <-. by vm_compute in Ha.
Defined.

(** C2 on the code.  Session [S1] has one connection; it was authorized and
    its upstream socket has closed since, so that no connection of the session
    has an open upstream socket.  A trade submitted then is not refused: the
    look-up tests [meta.derivWs && meta.authorized], not [readyState], and
    takes the connection; the resolver is registered, the payload is handed
    to the closed socket, and the caller gets no answer.  A [subscribe] that
    the client of that connection sends at that time is dropped: the guard of
    that path tests [readyState === WebSocket.OPEN]. *)
Theorem buy_with_closed_upstream :
  closed_S1 = (run initial (login_S1 ++ [DerivClose 0])).1
  ∧ logged (sessionTokenStore closed_S1) (Some "S1") = true
  ∧ clientMeta closed_S1 = [0]
  ∧ meta_of closed_S1 0 = Some (meta_S1 CLOSED [])
  ∧ is_open (derivWs (meta_S1 CLOSED [])) = false
  ∧ (∃ st',
       handle closed_S1
         (PostBuy 1 (Some "S1") (JStr "R_100") (num 5) 1700000000000 None)
       = Some (st', [UpstreamSend 0 (buy_request (num 5) (JStr "R_100"))])
       ∧ meta_of st' 0 = Some (meta_S1 CLOSED [(1700000000000%Z, 1)]))
  ∧ handle closed_S1 (ClientMessage 0 (Some subscribe_R100) None)
    = Some (closed_S1, []).
Proof.
  repeat (split; [by vm_compute|]). split; [|by vm_compute].
  eexists. split; by vm_compute.
Qed.

(** C9. When the write of the buy payload to the upstream socket throws, the
    caller is answered at once with the error (status 500,
    [{ ok: false, error: message }]), nothing is written upstream, and the
    key of the request is deleted from the table of the connection: no
    resolver is left under it, and what is left was there before. *)
Theorem buy_send_failure (st : State) (res : nat) (s : string)
    (symbol stake : jsval) (now : Z) (message : string) (c : nat) (found : Meta) :
  logged (sessionTokenStore st) (Some s) = true →
  truthy symbol = true → truthy stake = true →
  find_meta (buy_ready s) (conns st) (clientMeta st) = Some (c, found) →
  ∃ st' m',
    handle st (PostBuy res (Some s) symbol stake now (Some message))
    = Some (st', [HttpReply res 500 (fail_body (JStr message))])
    ∧ meta_of st' c = Some m'
    ∧ pending_get now (pendingRequests m') = None
    ∧ pendingRequests m' = pending_delete now (pendingRequests found)
    ∧ pendingRequests m' ⊆ pendingRequests found.
Proof.
  intros H Hsym Hstake Hfind.
  destruct (find_meta_some _ _ _ _ _ Hfind) as (_ & _ & cn & Hc & _).
  eexists _, _.
  split; [by rewrite (buy_found st res s symbol stake now (Some message) c found)|].
  split; [by eapply meta_of_set_meta|]. simpl.
  rewrite pending_delete_set.
  split; [apply pending_get_delete|]. split; [done|apply pending_delete_subseteq].
Qed.

Lemma buy_send_failure_witness :
  find_meta (buy_ready "S1") (conns two_pending) (clientMeta two_pending)
    = Some (0, meta_S1 OPEN [(1700000000000%Z, 1); (1700000000001%Z, 2)])
  ∧ ∃ st' m',
      handle two_pending
        (PostBuy 3 (Some "S1") (JStr "R_100") (num 5) 1700000000002
           (Some "write EPIPE"))
      = Some (st', [HttpReply 3 500 (fail_body (JStr "write EPIPE"))])
      ∧ meta_of st' 0 = Some m'
      ∧ pending_get 1700000000002 (pendingRequests m') = None
      ∧ pendingRequests m'
        = pending_delete 1700000000002
            (pendingRequests (meta_S1 OPEN [(1700000000000%Z, 1); (1700000000001%Z, 2)]))
      ∧ pendingRequests m'
        ⊆ pendingRequests (meta_S1 OPEN [(1700000000000%Z, 1); (1700000000001%Z, 2)]).
Proof.
  split; [by vm_compute|].
  apply (buy_send_failure two_pending 3 "S1" (JStr "R_100") (num 5)
           1700000000002 "write EPIPE" 0
           (meta_S1 OPEN [(1700000000000%Z, 1); (1700000000001%Z, 2)]));
    by vm_compute.
Defined.

(** A key that is not in the table displaces nothing. *)
Lemma pending_set_fresh (k : Z) (res : nat) (p : list (Z * nat)) :
  pending_get k p = None → pending_set k res p = p ++ [(k, res)].
Proof.
  induction p as [|[k' r] p IH]; simpl; [done|].
  destruct (Z.eqb k' k); [done|]. intros H. by rewrite IH.
Qed.

(** A key that is in the table loses its resolver to the new one. *)
Lemma pending_set_taken (k : Z) (res r : nat) (p : list (Z * nat)) :
  NoDup p.*1 → (k, r) ∈ p → r ≠ res → (k, r) ∉ pending_set k res p.
Proof.
  induction p as [|[k' r'] p IH]; simpl; [by intros _ ?%elem_of_nil|].
  intros [Hk' Hnd]%NoDup_cons Hin Hne.
  destruct (Z.eqb_spec k' k) as [->|Hk].
  - intros [[=]|Hin']%elem_of_cons; [done|].
    apply Hk'. apply list_elem_of_fmap. by exists (k, r).
  - apply elem_of_cons in Hin as [[=]|Hin]; [done|].
    intros [[=]|Hin']%elem_of_cons; [done|]. by apply IH in Hin'.
Qed.

(** C8 on the code.  Two trades submitted on the authorized connection of
    session [S1] within one millisecond get the same [reqId]: the second
    registration takes the place of the first resolver, and the upstream
    reply that follows answers request 2 only; request 1 is never answered. *)
Theorem buy_same_millisecond :
  ∃ st1 st2 st3 out,
    handle ready_S1
      (PostBuy 1 (Some "S1") (JStr "R_100") (num 5) 1700000000000 None)
    = Some (st1, [UpstreamSend 0 (buy_request (num 5) (JStr "R_100"))])
    ∧ meta_of st1 0 = Some (meta_S1 OPEN [(1700000000000%Z, 1)])
    ∧ handle st1
        (PostBuy 2 (Some "S1") (JStr "V_75") (num 9) 1700000000000 None)
      = Some (st2, [UpstreamSend 0 (buy_request (num 9) (JStr "V_75"))])
    ∧ meta_of st2 0 = Some (meta_S1 OPEN [(1700000000000%Z, 2)])
    ∧ handle st2 (DerivMessage 0 (Some buy_reply)) = Some (st3, out)
    ∧ replies_of 2 out = [(200, result_body buy_reply)]
    ∧ replies_of 1 out = []
    ∧ meta_of st3 0 = Some (meta_S1 OPEN []).
Proof. eexists _, _, _, _. repeat split; by vm_compute. Qed.

(** C10.  The registry does not keep one connection per session: a second
    connection with the same cookie is registered next to the first.  Among
    the registered connections [/api/buy] takes the first, in the order of
    registration, that has the session id, an upstream socket and
    [authorized]; [/me] takes the first that has the session id and account
    info.  Later connections that qualify as well are passed over. *)
Theorem first_registered_is_selected (st : State) (s : string)
    (before after : list nat) (c : nat) (cn : Conn) :
  clientMeta st = before ++ c :: after →
  conns st !! c = Some cn →
  logged (sessionTokenStore st) (Some s) = true →
  (∀ (res : nat) (symbol stake : jsval) (now : Z),
     truthy symbol = true → truthy stake = true →
     buy_ready s (meta cn) = true →
     (∀ c' cn', c' ∈ before → conns st !! c' = Some cn' →
                buy_ready s (meta cn') = false) →
     handle st (PostBuy res (Some s) symbol stake now None)
     = Some (set_meta c (with_pending (pending_set now res (pendingRequests (meta cn)))
                           (meta cn)) st,
             [UpstreamSend c (wire (buy_request stake symbol))]))
  ∧ (∀ res : nat,
       has_account s (meta cn) = true →
       (∀ c' cn', c' ∈ before → conns st !! c' = Some cn' →
                  has_account s (meta cn') = false) →
       handle st (GetMe res (Some s))
       = Some (st, [HttpReply res 200
                      (wire (JObj [("authorized", JBool true);
                                   ("account", accountInfo (meta cn))]))]))
  ∧ (∃ st',
       run st [Connection (Some s); Connection (Some s)] = (st', [])
       ∧ clientMeta st' = clientMeta st ++ [length (conns st); S (length (conns st))]
       ∧ sessionId <$> meta_of st' (length (conns st)) = Some (Some s)
       ∧ sessionId <$> meta_of st' (S (length (conns st))) = Some (Some s)).
Proof.
  intros Hkeys Hc Hlog. split; [|split].
  - intros res symbol stake now Hsym Hstake Hready Hbefore.
    rewrite (buy_found st res s symbol stake now None c (meta cn)); try done.
    rewrite Hkeys. by apply find_meta_first.
  - intros res Hacc Hbefore. simpl. unfold me. rewrite Hlog. simpl.
    rewrite Hkeys, (find_meta_first _ _ _ _ c cn); done.
  - eexists. split; [done|]. simpl. rewrite length_app, Nat.add_1_r. simpl.
    split; [by rewrite <- app_assoc|]. unfold meta_of. simpl. split.
    + rewrite <- app_assoc. simpl.
      by rewrite (list_lookup_middle (conns st) [_] _ (length (conns st))).
    + rewrite (list_lookup_middle (conns st ++ [_]) [] _ (S (length (conns st)))); [done|].
      by rewrite length_app, Nat.add_1_r.
Qed.

End Submit.

Section SubmitScenarios.

(** Connection 1 was authorized first, connection 0 was registered first:
    the trade goes to connection 0, and [/me] reports the account of
    connection 0. *)
Lemma first_registered_is_selected_witness :
  clientMeta twice_S1 = [] ++ 0 :: [1]
  ∧ buy_ready "S1" (meta_S1 OPEN []) = true
  ∧ (buy_ready "S1" <$> meta_of twice_S1 1) = Some true
  ∧ handle twice_S1
      (PostBuy 1 (Some "S1") (JStr "R_100") (num 5) 1700000000000 None)
    = Some (set_meta 0 (meta_S1 OPEN [(1700000000000%Z, 1)]) twice_S1,
            [UpstreamSend 0 (buy_request (num 5) (JStr "R_100"))])
  ∧ handle twice_S1 (GetMe 2 (Some "S1"))
    = Some (twice_S1,
            [HttpReply 2 200 (JObj [("authorized", JBool true);
                                    ("account", account_CR1)])]).
Proof.
  split; [by vm_compute|]. split; [by vm_compute|]. split; [by vm_compute|].
  assert (Hkeys : clientMeta twice_S1 = [] ++ 0 :: [1]) by (by vm_compute).
  assert (Hc : conns twice_S1 !! 0 = Some (conn_S1 OPEN [])) by (by vm_compute).
  assert (Hlog : logged (sessionTokenStore twice_S1) (Some "S1") = true)
    by (by vm_compute).
  destruct (first_registered_is_selected twice_S1 "S1" [] [1] 0 (conn_S1 OPEN [])
              Hkeys Hc Hlog) as (Hbuy & Hme & _).
  split.
  - apply (Hbuy 1 (JStr "R_100") (num 5) 1700000000000%Z); try by vm_compute.
    by intros c' cn' ?%elem_of_nil.
  - apply (Hme 2); [by vm_compute|]. by intros c' cn' ?%elem_of_nil.
Defined.

End SubmitScenarios.

(** ** Client commands *)

Section Commands.

Lemma command_symbol (t : string) (symbol msg : jsval) :
  json msg = true → client_command t symbol msg → json symbol = true.
Proof. intros Hj (_ & Hs & Ht). by eapply json_field. Qed.

(** The [subscribe] branch of the extended proxy. *)
Lemma proxy_subscribe (st : State) (c : nat) (cn : Conn) (symbol msg : jsval) :
  json msg = true → client_command "subscribe" symbol msg →
  conns st !! c = Some cn → is_open (derivWs (meta cn)) = true →
  handle st (ClientMessage c (Some msg) None)
  = Some (set_meta c (with_subscribed (Set_add symbol (subscribed (meta cn))) (meta cn)) st,
          [UpstreamSend c (ticks_request symbol);
           ClientSend c (typed_symbol "subscribed" symbol)]).
Proof.
  intros Hj Hcmd Hc Hopen. pose proof (command_symbol _ _ _ Hj Hcmd) as Hsym.
  destruct Hcmd as (Ht & Hs & Htr).
  rewrite <- (wire_ticks_request symbol Hsym),
    <- (wire_typed_symbol "subscribed" symbol Hsym).
  simpl. unfold client_message, client_try.
  rewrite Hc. simpl. rewrite Ht, Hs. simpl. by rewrite Htr, Hopen.
Qed.

(** The [subscribe] and [unsubscribe] branches of the simple proxy. *)
Lemma simple_subscribe (st : SimpleProxy.State) (c : nat) (cn : SimpleProxy.Conn)
    (symbol msg : jsval) :
  json msg = true → client_command "subscribe" symbol msg →
  SimpleProxy.conns st !! c = Some cn → SimpleProxy.in_map st c = true →
  SimpleProxy.handle st (SimpleProxy.ClientMessage c (Some msg) None)
  = Some (SimpleProxy.set_conn c
            (SimpleProxy.with_subscribed (Set_add symbol (SimpleProxy.subscribed cn)) cn) st,
          [UpstreamSend c (ticks_request symbol);
           ClientSend c (typed_symbol "subscribed" symbol)]).
Proof.
  intros Hj Hcmd Hc Hin. pose proof (command_symbol _ _ _ Hj Hcmd) as Hsym.
  destruct Hcmd as (Ht & Hs & Htr).
  rewrite <- (wire_ticks_request symbol Hsym),
    <- (wire_typed_symbol "subscribed" symbol Hsym).
  simpl. unfold SimpleProxy.client_message.
  rewrite Hc, Ht, Hs. simpl. rewrite Htr. unfold SimpleProxy.forward.
  by rewrite Hin.
Qed.

Lemma simple_unsubscribe (st : SimpleProxy.State) (c : nat) (cn : SimpleProxy.Conn)
    (symbol msg : jsval) :
  json msg = true → client_command "unsubscribe" symbol msg →
  SimpleProxy.conns st !! c = Some cn → SimpleProxy.in_map st c = true →
  SimpleProxy.handle st (SimpleProxy.ClientMessage c (Some msg) None)
  = Some (SimpleProxy.set_conn c
            (SimpleProxy.with_subscribed (Set_delete symbol (SimpleProxy.subscribed cn)) cn) st,
          [UpstreamSend c forget_request;
           ClientSend c (typed_symbol "unsubscribed" symbol)]).
Proof.
  intros Hj Hcmd Hc Hin. pose proof (command_symbol _ _ _ Hj Hcmd) as Hsym.
  destruct Hcmd as (Ht & Hs & Htr).
  rewrite <- (wire_typed_symbol "unsubscribed" symbol Hsym).
  simpl. unfold SimpleProxy.client_message.
  rewrite Hc, Ht, Hs. simpl. rewrite Htr. unfold SimpleProxy.forward.
  by rewrite Hin.
Qed.

Lemma simple_in_map_set_conn (st : SimpleProxy.State) (c c' : nat) (cn : SimpleProxy.Conn) :
  SimpleProxy.in_map (SimpleProxy.set_conn c cn st) c' = SimpleProxy.in_map st c'.
Proof. done. Qed.

Lemma simple_conns_set_conn (st : SimpleProxy.State) (c : nat) (cn cn' : SimpleProxy.Conn) :
  SimpleProxy.conns st !! c = Some cn →
  SimpleProxy.conns (SimpleProxy.set_conn c cn' st) !! c = Some cn'.
Proof.
  intros H. simpl. apply list_lookup_insert_eq. by eapply lookup_lt_Some.
Qed.

(** C5.  A client message [{ type: 'subscribe', symbol }] that arrives while
    the upstream socket is open (and takes the write) makes the bridge write
    exactly [{ ticks: symbol, subscribe: 1 }] upstream, add the symbol to
    [subscribed] and answer [{ type: 'subscribed', symbol }].  The set is not
    consulted: the same message again gives the same upstream request again.
    Both proxies do so. *)
Theorem subscribe_forwards (c : nat) (symbol msg : jsval) :
  json msg = true →
  client_command "subscribe" symbol msg →
  let out := [UpstreamSend c (ticks_request symbol);
              ClientSend c (typed_symbol "subscribed" symbol)] in
  (∀ (st : State) (cn : Conn),
     conns st !! c = Some cn → is_open (derivWs (meta cn)) = true →
     ∃ st1 st2 m1,
       handle st (ClientMessage c (Some msg) None) = Some (st1, out)
       ∧ upstream_of c out = [ticks_request symbol]
       ∧ meta_of st1 c = Some m1
       ∧ subscribed m1 = Set_add symbol (subscribed (meta cn))
       ∧ (∀ s, symbol = JStr s → JStr s ∈ subscribed m1)
       ∧ handle st1 (ClientMessage c (Some msg) None) = Some (st2, out))
  ∧ (∀ (st : SimpleProxy.State) (cn : SimpleProxy.Conn),
       SimpleProxy.conns st !! c = Some cn → SimpleProxy.in_map st c = true →
       ∃ st1 st2 cn1,
         SimpleProxy.handle st (SimpleProxy.ClientMessage c (Some msg) None)
         = Some (st1, out)
         ∧ SimpleProxy.conns st1 !! c = Some cn1
         ∧ SimpleProxy.subscribed cn1 = Set_add symbol (SimpleProxy.subscribed cn)
         ∧ (∀ s, symbol = JStr s → JStr s ∈ SimpleProxy.subscribed cn1)
         ∧ SimpleProxy.handle st1 (SimpleProxy.ClientMessage c (Some msg) None)
           = Some (st2, out)).
Proof.
  intros Hj Hcmd out. split.
  - intros st cn Hc Hopen. eexists _, _, _.
    split; [by apply (proxy_subscribe st c cn)|].
    split; [by simpl; rewrite Nat.eqb_refl|].
    split; [by eapply meta_of_set_meta|].
    split; [done|]. split; [intros s ->; apply Set_add_elem|].
    eapply proxy_subscribe; [done|done|by eapply conns_set_meta|done].
  - intros st cn Hc Hin. eexists _, _, _.
    split; [by apply (simple_subscribe st c cn)|].
    split; [by eapply simple_conns_set_conn|].
    split; [done|]. split; [intros s ->; apply Set_add_elem|].
    eapply simple_subscribe; [done|done|by eapply simple_conns_set_conn|done].
Qed.

Lemma subscribe_forwards_witness :
  client_command "subscribe" (JStr "R_100") subscribe_R100
  ∧ (∃ st1 st2 m1,
       handle ready_S1 (ClientMessage 0 (Some subscribe_R100) None)
       = Some (st1, [UpstreamSend 0 (ticks_request (JStr "R_100"));
                     ClientSend 0 (typed_symbol "subscribed" (JStr "R_100"))])
       ∧ upstream_of 0 [UpstreamSend 0 (ticks_request (JStr "R_100"));
                        ClientSend 0 (typed_symbol "subscribed" (JStr "R_100"))]
         = [ticks_request (JStr "R_100")]
       ∧ meta_of st1 0 = Some m1
       ∧ subscribed m1 = Set_add (JStr "R_100") (subscribed (meta (conn_S1 OPEN [])))
       ∧ (∀ s, JStr "R_100" = JStr s → JStr s ∈ subscribed m1)
       ∧ handle st1 (ClientMessage 0 (Some subscribe_R100) None)
         = Some (st2, [UpstreamSend 0 (ticks_request (JStr "R_100"));
                       ClientSend 0 (typed_symbol "subscribed" (JStr "R_100"))])).
Proof.
  assert (Hcmd : client_command "subscribe" (JStr "R_100") subscribe_R100)
    by (by vm_compute).
  split; [exact Hcmd|].
  assert (Hj : json subscribe_R100 = true) by (by vm_compute).
  destruct (subscribe_forwards 0 (JStr "R_100") subscribe_R100 Hj Hcmd) as [Hproxy _].
  apply (Hproxy ready_S1 (conn_S1 OPEN [])); by vm_compute.
Defined.

(** C3, as the code has it.  The simple proxy answers a client message
    [{ type: 'unsubscribe', symbol }]: it writes a forget request upstream,
    deletes the symbol from [subscribed] and sends
    [{ type: 'unsubscribed', symbol }].  The extended proxy has no such
    command: the message changes nothing, nothing is written, nothing is
    answered. *)
Theorem unsubscribe_forwards (c : nat) (s : string) (msg : jsval) :
  json msg = true →
  client_command "unsubscribe" (JStr s) msg →
  (∀ (st : SimpleProxy.State) (cn : SimpleProxy.Conn),
     SimpleProxy.conns st !! c = Some cn → SimpleProxy.in_map st c = true →
     ∃ st1 cn1 request,
       SimpleProxy.handle st (SimpleProxy.ClientMessage c (Some msg) None)
       = Some (st1, [UpstreamSend c request;
                     ClientSend c (typed_symbol "unsubscribed" (JStr s))])
       ∧ has_key "forget" request = true
       ∧ SimpleProxy.conns st1 !! c = Some cn1
       ∧ SimpleProxy.subscribed cn1 = Set_delete (JStr s) (SimpleProxy.subscribed cn)
       ∧ Set_has (JStr s) (SimpleProxy.subscribed cn1) = false)
  ∧ (∀ (st : State) (fault : option string),
       handle st (ClientMessage c (Some msg) fault) = Some (st, [])).
Proof.
  intros Hj Hcmd. split.
  - intros st cn Hc Hin. eexists _, _, _.
    split; [by apply (simple_unsubscribe st c cn)|].
    split; [done|]. split; [by eapply simple_conns_set_conn|].
    split; [done|apply Set_delete_has].
  - intros st fault. destruct Hcmd as (Ht & Hs & Htr). simpl.
    unfold client_message, client_try. destruct (conns st !! c); [|done].
    simpl. by rewrite Ht, Hs.
Qed.

Lemma unsubscribe_forwards_witness :
  client_command "unsubscribe" (JStr "R_100") unsubscribe_R100
  ∧ ∃ st1 cn1 request,
      SimpleProxy.handle simple_S1
        (SimpleProxy.ClientMessage 0 (Some unsubscribe_R100) None)
      = Some (st1, [UpstreamSend 0 request;
                    ClientSend 0 (typed_symbol "unsubscribed" (JStr "R_100"))])
      ∧ has_key "forget" request = true
      ∧ SimpleProxy.conns st1 !! 0 = Some cn1
      ∧ SimpleProxy.subscribed cn1
        = Set_delete (JStr "R_100") (SimpleProxy.subscribed (simple_conn_S1 []))
      ∧ Set_has (JStr "R_100") (SimpleProxy.subscribed cn1) = false.
Proof.
  assert (Hcmd : client_command "unsubscribe" (JStr "R_100") unsubscribe_R100)
    by (by vm_compute).
  split; [exact Hcmd|].
  assert (Hj : json unsubscribe_R100 = true) by (by vm_compute).
  destruct (unsubscribe_forwards 0 "R_100" unsubscribe_R100 Hj Hcmd) as [Hsimple _].
  apply (Hsimple simple_S1 (simple_conn_S1 [])); by vm_compute.
Defined.

(** C3, as the spec has it, fails on the extended proxy.  The connection of
    session [S1] is authorized, its upstream socket is open and [R_100] is
    subscribed; the client message [{ type: 'unsubscribe', symbol: 'R_100' }]
    writes nothing upstream, leaves [R_100] in [subscribed], and is not
    answered. *)
Lemma unsubscribe_counterexample :
  (authorized <$> meta_of subscribed_S1 0) = Some true
  ∧ (derivWs <$> meta_of subscribed_S1 0) = Some (Some OPEN)
  ∧ (subscribed <$> meta_of subscribed_S1 0) = Some [JStr "R_100"]
  ∧ handle subscribed_S1 (ClientMessage 0 (Some unsubscribe_R100) None)
    = Some (subscribed_S1, []).
Proof. repeat split; by vm_compute. Qed.

End Commands.

(** ** Ticks *)

(** *** Numbers *)

Section Doubles.
Local Open Scope Q_scope.

Lemma two_pow_pos (e : Z) : 0 < 2 ^ e.
Proof. by apply Qpower_0_lt. Qed.

Lemma two_pow_succ (e : Z) : 2 ^ (e + 1) == 2 * 2 ^ e.
Proof. rewrite Qpower_plus by done. change (2 ^ 1) with 2. ring. Qed.

Lemma two_pow_Z (n : Z) : (0 <= n)%Z → inject_Z (2 ^ n) == 2 ^ n.
Proof. intros H. by rewrite Zpower_Qpower. Qed.

(** [Qlog2] brackets a positive rational between two powers of two. *)
Lemma Qlog2_spec (x : Q) : 0 < x → 2 ^ Qlog2 x <= x ∧ x < 2 ^ (Qlog2 x + 1).
Proof.
  intros Hx. unfold Qlog2.
  destruct x as [n d]. cbn [Qnum Qden].
  assert (0 < n)%Z as Hn by (unfold Qlt in Hx; simpl in Hx; lia).
  set (ln := Z.log2 n). set (ld := Z.log2 (Z.pos d)).
  destruct (Z.log2_spec n Hn) as [Hn1 Hn2]. fold ln in Hn1, Hn2.
  destruct (Z.log2_spec (Z.pos d) eq_refl) as [Hd1 Hd2]. fold ld in Hd1, Hd2.
  assert (0 <= ln)%Z as Hln by apply Z.log2_nonneg.
  assert (0 <= ld)%Z as Hld by apply Z.log2_nonneg.
  assert (n # d == inject_Z n / inject_Z (Z.pos d)) as Hnd by apply Qmake_Qdiv.
  assert (0 < inject_Z (Z.pos d)) as Hdpos by (unfold Qlt; simpl; lia).
  assert (2 ^ ln <= inject_Z n) as Qn1.
  { rewrite <- two_pow_Z by done. by rewrite <- Zle_Qle. }
  assert (inject_Z n < 2 ^ (ln + 1)) as Qn2.
  { rewrite <- two_pow_Z by lia. rewrite <- Zlt_Qlt. by rewrite <- Z.add_1_r in Hn2. }
  assert (2 ^ ld <= inject_Z (Z.pos d)) as Qd1.
  { rewrite <- two_pow_Z by done. by rewrite <- Zle_Qle. }
  assert (inject_Z (Z.pos d) < 2 ^ (ld + 1)) as Qd2.
  { rewrite <- two_pow_Z by lia. rewrite <- Zlt_Qlt. by rewrite <- Z.add_1_r in Hd2. }
  assert (2 ^ (ln - ld - 1) * inject_Z (Z.pos d) <= inject_Z n) as Hlow.
  { eapply Qle_trans; [|exact Qn1].
    replace ln with ((ln - ld - 1) + (ld + 1))%Z at 2 by lia.
    rewrite Qpower_plus by done.
    apply Qmult_le_l; [apply two_pow_pos|]. by apply Qlt_le_weak. }
  assert (inject_Z n < 2 ^ (ln - ld + 1) * inject_Z (Z.pos d)) as Hup.
  { eapply Qlt_le_trans; [exact Qn2|].
    replace (ln + 1)%Z with ((ln - ld + 1) + ld)%Z by lia.
    rewrite Qpower_plus by done.
    apply Qmult_le_l; [apply two_pow_pos|]. done. }
  destruct (Qle_bool (2 ^ (ln - ld)) (n # d)) eqn:E.
  - apply Qle_bool_iff in E. split; [done|].
    rewrite Hnd. apply Qlt_shift_div_r; done.
  - assert (n # d < 2 ^ (ln - ld)) as Hlt.
    { apply Qnot_le_lt. intros H. apply Qle_bool_iff in H. congruence. }
    split.
    + rewrite Hnd. apply Qle_shift_div_l; done.
    + by replace (ln - ld - 1 + 1)%Z with (ln - ld)%Z by lia.
Qed.

Lemma nearest_even_Z (y : Q) (z : Z) : y == inject_Z z → nearest_even y = z.
Proof.
  intros H. unfold nearest_even.
  rewrite (Qfloor_comp y (inject_Z z) H), Qfloor_Z.
  assert (y - inject_Z z < 1 # 2) as Hlt by (rewrite H; by ring_simplify).
  pose proof (proj1 (Qlt_alt _ _) Hlt) as Hc. by rewrite Hc.
Qed.

(** A positive value with at most 53 binary digits above [2 ^ -1074] is
    its own nearest double. *)
Lemma double_of_exact (x : Q) (m e : Z) :
  (0 < m < 2 ^ 53)%Z → (-1074 <= e <= 971)%Z → x == inject_Z m * 2 ^ e →
  double_of x = Some (Qred x).
Proof.
  intros [Hm0 Hm] [He0 He] Hx.
  assert (0 < inject_Z m) as Qm0 by (unfold Qlt; simpl; lia).
  assert (inject_Z m < 2 ^ 53) as Qm.
  { rewrite <- two_pow_Z by lia. by rewrite <- Zlt_Qlt. }
  assert (0 < x) as Hpos.
  { rewrite Hx. apply Qmult_lt_0_compat; [done|apply two_pow_pos]. }
  assert (x < 2 ^ (53 + e)) as Hup.
  { rewrite Hx, Qpower_plus by done.
    apply Qmult_lt_r; [apply two_pow_pos|done]. }
  destruct (Qlog2_spec x Hpos) as [Hl _].
  assert (Qlog2 x < 53 + e)%Z as Hlog.
  { apply (Qpower_lt_compat_l_inv 2); [|done]. by eapply Qle_lt_trans. }
  unfold double_of. set (E := Z.max (Qlog2 x - 52) (-1074)).
  assert (E <= e)%Z as HE by lia.
  assert (x / 2 ^ E == inject_Z (m * 2 ^ (e - E))) as Hint.
  { rewrite inject_Z_mult, two_pow_Z by lia.
    rewrite Hx. unfold Zminus. rewrite Qpower_plus, Qpower_opp by done.
    field. apply Qnot_eq_sym, Qlt_not_eq, two_pow_pos. }
  rewrite (nearest_even_Z _ _ Hint).
  assert (inject_Z (m * 2 ^ (e - E)) * 2 ^ E == x) as Hback.
  { rewrite <- Hint. field. apply Qnot_eq_sym, Qlt_not_eq, two_pow_pos. }
  rewrite (Qred_complete _ _ Hback).
  destruct (Qle_bool (2 ^ 1024) (Qred x)) eqn:Hover; [|done].
  exfalso. apply Qle_bool_iff in Hover. rewrite Qred_correct in Hover.
  apply (Qlt_irrefl x). eapply Qlt_le_trans; [exact Hup|].
  eapply Qle_trans; [|exact Hover].
  apply Qpower_le_compat_l; [lia|done].
Qed.

(** [JSON.parse] reads a literal whose value is a double as that double. *)
Lemma Number_of_double (q : Q) : double q → Number_of q = JNum q.
Proof.
  intros (m & e & Hm & He & ->).
  set (x := inject_Z m * 2 ^ e).
  assert (Qred x == x) as Hred by apply Qred_correct.
  assert (Qred (Qred x) = Qred x) as Hinv by (by apply Qred_complete).
  destruct (Z.lt_trichotomy m 0) as [Hneg|[->|Hpos]].
  - assert (- Qred x == inject_Z (- m) * 2 ^ e) as Hx.
    { rewrite Hred. unfold x. rewrite inject_Z_opp. ring. }
    assert (Qred x < 0) as Hlt.
    { rewrite Hred. unfold x.
      assert (inject_Z m * 2 ^ e < 0 * 2 ^ e) as H.
      { apply Qmult_lt_r; [apply two_pow_pos|]. unfold Qlt; simpl; lia. }
      by rewrite Qmult_0_l in H. }
    unfold Number_of. destruct (Qnum (Qred x)) eqn:En.
    + exfalso. unfold Qlt in Hlt. simpl in Hlt. lia.
    + exfalso. unfold Qlt in Hlt. simpl in Hlt. lia.
    + rewrite (double_of_exact (- Qred x) (- m) e); [|lia|done|done].
      f_equal. rewrite <- Hinv at 2. apply Qred_complete.
      rewrite Qred_correct. ring.
  - unfold x. assert (Qred (inject_Z 0 * 2 ^ e) = 0) as ->; [|done].
    change 0 with (Qred 0). apply Qred_complete. ring.
  - assert (0 < Qred x) as Hgt.
    { rewrite Hred. unfold x. apply Qmult_lt_0_compat; [|apply two_pow_pos].
      unfold Qlt; simpl; lia. }
    unfold Number_of. destruct (Qnum (Qred x)) eqn:En.
    + exfalso. unfold Qlt in Hgt. simpl in Hgt. lia.
    + rewrite (double_of_exact (Qred x) m e); [|lia|done|done]. by rewrite Hinv.
    + exfalso. unfold Qlt in Hgt. simpl in Hgt. lia.
Qed.

(** The integers up to [2 ^ 53] in magnitude are doubles. *)
Lemma double_Z (z : Z) : (Z.abs z <= 2 ^ 53)%Z → double (inject_Z z).
Proof.
  intros Hz.
  destruct (Z.eq_dec z (2 ^ 53)%Z) as [->|Hp]; [by exists 1%Z, 53%Z|].
  destruct (Z.eq_dec z (- 2 ^ 53)%Z) as [->|Hn]; [by exists (-1)%Z, 53%Z|].
  exists z, 0%Z. split; [lia|]. split; [lia|].
  rewrite (Qred_complete (inject_Z z * 2 ^ 0) (inject_Z z)) by (change (2 ^ 0) with 1; ring).
  symmetry. apply Qcanon.Qred_identity. apply Z.gcd_1_r.
Qed.

(** [nearest_even] is within a half of its argument, and no integer is
    nearer. *)
Lemma nearest_even_half (y : Q) : Qabs (y - inject_Z (nearest_even y)) <= 1 # 2.
Proof.
  unfold nearest_even. pose proof (Qfloor_le y) as Hlo.
  pose proof (Qlt_floor y) as Hhi. rewrite inject_Z_plus in Hhi.
  change (inject_Z 1) with 1 in Hhi.
  set (f := Qfloor y) in *.
  destruct (y - inject_Z f ?= 1 # 2) eqn:E.
  - pose proof (proj2 (Qeq_alt _ _) E) as E'. destruct (Z.even f).
    + rewrite E'. by vm_compute.
    + apply Qabs_Qle_condition. rewrite inject_Z_plus. change (inject_Z 1) with 1. split; lra.
  - pose proof (proj2 (Qlt_alt _ _) E) as E'. apply Qabs_Qle_condition. split; lra.
  - pose proof (proj2 (Qgt_alt _ _) E) as E'. apply Qabs_Qle_condition. rewrite inject_Z_plus. change (inject_Z 1) with 1. split; lra.
Qed.

Lemma far_integer (y : Q) (z : Z) :
  1 # 2 <= Qabs (y - inject_Z z) ∨ z = Qfloor y ∨ z = (Qfloor y + 1)%Z.
Proof.
  pose proof (Qfloor_le y) as Hlo.
  pose proof (Qlt_floor y) as Hhi. rewrite inject_Z_plus in Hhi.
  change (inject_Z 1) with 1 in Hhi.
  destruct (Z.lt_trichotomy z (Qfloor y)) as [Hz|[->|Hz]]; [left|by right; left|].
  - assert (inject_Z z + 1 <= inject_Z (Qfloor y)) as H.
    { change 1 with (inject_Z 1). rewrite <- inject_Z_plus, <- Zle_Qle. lia. }
    rewrite Qabs_pos; lra.
  - destruct (Z.eq_dec z (Qfloor y + 1)%Z) as [->|Hne]; [by right; right|left].
    assert (inject_Z (Qfloor y) + 2 <= inject_Z z) as H.
    { change 2 with (inject_Z 2). rewrite <- inject_Z_plus, <- Zle_Qle. lia. }
    rewrite Qabs_neg; lra.
Qed.

Lemma nearest_even_nearest (y : Q) (z : Z) :
  Qabs (y - inject_Z (nearest_even y)) <= Qabs (y - inject_Z z).
Proof.
  destruct (far_integer y z) as [H|H].
  { eapply Qle_trans; [apply nearest_even_half|done]. }
  pose proof (Qfloor_le y) as Hlo.
  pose proof (Qlt_floor y) as Hhi. rewrite inject_Z_plus in Hhi.
  change (inject_Z 1) with 1 in Hhi.
  unfold nearest_even. set (f := Qfloor y) in *.
  destruct (y - inject_Z f ?= 1 # 2) eqn:E.
  - pose proof (proj2 (Qeq_alt _ _) E) as E'.
    assert (Qabs (y - inject_Z f) == 1 # 2) as Hf by (rewrite Qabs_pos; lra).
    assert (Qabs (y - inject_Z (f + 1)) == 1 # 2) as Hf1.
    { rewrite inject_Z_plus. change (inject_Z 1) with 1. rewrite Qabs_neg; lra. }
    destruct H as [-> | ->]; destruct (Z.even f); rewrite ?Hf, ?Hf1; lra.
  - pose proof (proj2 (Qlt_alt _ _) E) as E'. destruct H as [-> | ->]; [lra|].
    rewrite inject_Z_plus. change (inject_Z 1) with 1. rewrite Qabs_pos, Qabs_neg; lra.
  - pose proof (proj2 (Qgt_alt _ _) E) as E'. destruct H as [-> | ->]; [|lra].
    rewrite inject_Z_plus. change (inject_Z 1) with 1. rewrite Qabs_neg, Qabs_pos; lra.
Qed.

Lemma nearest_even_floor (y : Q) :
  nearest_even y = Qfloor y ∨ nearest_even y = (Qfloor y + 1)%Z.
Proof. unfold nearest_even. repeat case_match; auto. Qed.

Lemma two_pow_nonzero (e : Z) : ¬ 2 ^ e == 0.
Proof. apply Qnot_eq_sym, Qlt_not_eq, two_pow_pos. Qed.

Lemma double_value (d : Q) :
  double d → ∃ m e : Z, (Z.abs m < 2 ^ 53)%Z ∧ (-1074 <= e <= 971)%Z
                        ∧ d == inject_Z m * 2 ^ e.
Proof.
  intros (m & e & Hm & He & ->). exists m, e. repeat (split; [done|]).
  apply Qred_correct.
Qed.

(** The double that [double_of] gives is a double, and no double is nearer. *)
Lemma double_of_nearest (x d : Q) :
  0 < x → double_of x = Some d →
  double d ∧ ∀ d', double d' → Qabs (x - d) <= Qabs (x - d').
Proof.
  intros Hpos. unfold double_of.
  destruct (Qlog2_spec x Hpos) as [Hlo Hhi].
  set (L := Qlog2 x) in *. set (E := Z.max (L - 52) (-1074)).
  set (y := x / 2 ^ E). set (M := nearest_even y).
  destruct (Qle_bool (2 ^ 1024) (Qred (inject_Z M * 2 ^ E))) eqn:Hover; [done|].
  intros [= <-].
  assert (¬ 2 ^ 1024 <= inject_Z M * 2 ^ E) as Hfin.
  { intros H. rewrite <- (Qred_correct (inject_Z M * 2 ^ E)) in H.
    apply Qle_bool_iff in H. congruence. }
  pose proof (two_pow_pos E) as HE. pose proof (two_pow_nonzero E) as HE0.
  assert (x == y * 2 ^ E) as Hx by (unfold y; by field).
  assert (0 < y) as Hy0.
  { unfold y. apply Qlt_shift_div_l; [done|]. by rewrite Qmult_0_l. }
  assert (y < 2 ^ 53) as Hy.
  { unfold y. apply Qlt_shift_div_r; [done|].
    eapply Qlt_le_trans; [exact Hhi|].
    rewrite <- Qpower_plus by done. apply Qpower_le_compat_l; [lia|done]. }
  assert (0 <= Qfloor y < 2 ^ 53)%Z as Hf.
  { split.
    - change 0%Z with (Qfloor 0). apply Qfloor_resp_le. by apply Qlt_le_weak.
    - rewrite Zlt_Qlt, two_pow_Z by lia.
      eapply Qle_lt_trans; [apply Qfloor_le|done]. }
  assert (0 <= M <= 2 ^ 53)%Z as HM.
  { unfold M. destruct (nearest_even_floor y) as [-> | ->]; lia. }
  assert (∀ z : Z, Qabs (x - inject_Z M * 2 ^ E) <= Qabs (x - inject_Z z * 2 ^ E))
    as Hnear.
  { intros z.
    assert (∀ k : Z, x - inject_Z k * 2 ^ E == (y - inject_Z k) * 2 ^ E) as Hk
      by (intros k; rewrite Hx; ring).
    rewrite !Hk, !Qabs_Qmult, (Qabs_pos (2 ^ E)) by (by apply Qlt_le_weak).
    apply Qmult_le_compat_r; [apply nearest_even_nearest|by apply Qlt_le_weak]. }
  assert (E <= 971)%Z as HE971.
  { destruct (Z.le_gt_cases E 971) as [|Hbig]; [done|]. exfalso. apply Hfin.
    assert (E = L - 52)%Z as HEL by lia.
    assert (2 ^ 52 <= y) as Hy52.
    { unfold y. apply Qle_shift_div_l; [done|].
      rewrite <- Qpower_plus by done. by replace (52 + E)%Z with L by lia. }
    assert (2 ^ 52 <= M)%Z as HM52.
    { unfold M. destruct (nearest_even_floor y) as [-> | ->].
      - change (2 ^ 52)%Z with (Qfloor (inject_Z (2 ^ 52))).
        apply Qfloor_resp_le. by rewrite two_pow_Z by lia.
      - assert (Qfloor (inject_Z (2 ^ 52)) <= Qfloor y)%Z as H.
        { apply Qfloor_resp_le. by rewrite two_pow_Z by lia. }
        rewrite Qfloor_Z in H. lia. }
    rewrite Zle_Qle, two_pow_Z in HM52 by lia.
    eapply Qle_trans; [|apply Qmult_le_compat_r; [exact HM52|by apply Qlt_le_weak]].
    rewrite <- Qpower_plus by done. apply Qpower_le_compat_l; [lia|done]. }
  split.
  - destruct (Z.eq_dec M (2 ^ 53)%Z) as [HMeq|HMne].
    + assert (E <= 970)%Z as HE970.
      { destruct (Z.le_gt_cases E 970) as [|Hbig]; [done|]. exfalso. apply Hfin.
        rewrite HMeq, two_pow_Z, <- Qpower_plus by (done || lia).
        apply Qpower_le_compat_l; [lia|done]. }
      exists (2 ^ 52)%Z, (E + 1)%Z. split; [done|]. split; [lia|].
      apply Qred_complete. rewrite HMeq, two_pow_succ.
      change (inject_Z (2 ^ 53)) with (2 * inject_Z (2 ^ 52)). ring.
    + exists M, E. split; [lia|]. split; [lia|done].
  - intros d' (m' & e' & Hm' & He' & Hd')%double_value.
    rewrite (Qred_correct (inject_Z M * 2 ^ E)).
    destruct (Z.le_gt_cases E e') as [Hle|Hgt].
    + assert (d' == inject_Z (m' * 2 ^ (e' - E)) * 2 ^ E) as Hz.
      { rewrite Hd', inject_Z_mult, two_pow_Z by lia.
        rewrite <- Qmult_assoc, <- Qpower_plus by done.
        by replace (e' - E + E)%Z with e' by lia. }
      rewrite Hz. apply Hnear.
    + assert (E = L - 52)%Z as HEL by lia.
      assert (d' < 2 ^ L) as Hd'L.
      { rewrite Hd'. apply Qlt_le_trans with (2 ^ 53 * 2 ^ e').
        - apply Qmult_lt_r; [apply two_pow_pos|].
          rewrite <- two_pow_Z, <- Zlt_Qlt by lia. lia.
        - rewrite <- Qpower_plus by done. apply Qpower_le_compat_l; [lia|done]. }
      assert (2 ^ L == inject_Z (2 ^ 52) * 2 ^ E) as HL.
      { rewrite two_pow_Z, <- Qpower_plus by (done || lia).
        by replace (52 + E)%Z with L by lia. }
      eapply Qle_trans; [apply (Hnear (2 ^ 52)%Z)|].
      rewrite <- HL. rewrite !Qabs_pos; lra.
Qed.

Lemma nearest_even_floor_le (y : Q) : (Qfloor y <= nearest_even y)%Z.
Proof. destruct (nearest_even_floor y) as [-> | ->]; lia. Qed.

Lemma inject_Z_pred (k : Z) : inject_Z (k - 1) == inject_Z k - 1.
Proof. unfold Z.sub. rewrite inject_Z_plus, inject_Z_opp. reflexivity. Qed.

(** From a half below an even integer on, [nearest_even] reaches it. *)
Lemma nearest_even_up (y : Q) (k : Z) :
  Z.even k = true → inject_Z k - (1 # 2) <= y → (k <= nearest_even y)%Z.
Proof.
  intros Hk Hy.
  assert (k - 1 <= Qfloor y)%Z as Hf.
  { rewrite <- (Qfloor_Z (k - 1)). apply Qfloor_resp_le.
    rewrite inject_Z_pred. lra. }
  destruct (Z.eq_dec (Qfloor y) (k - 1)%Z) as [Heq|Hne].
  - unfold nearest_even. rewrite Heq.
    destruct (y - inject_Z (k - 1) ?= 1 # 2) eqn:E.
    + replace (Z.even (k - 1)) with false; [lia|].
      rewrite Z.even_sub, Hk. done.
    + pose proof (proj2 (Qlt_alt _ _) E) as E'. exfalso.
      rewrite inject_Z_pred in E'. lra.
    + lia.
  - pose proof (nearest_even_floor_le y). lia.
Qed.

(** [double_of] gives no double exactly from [2 ^ 1024 - 2 ^ 970] on, the
    middle between the largest double and [2 ^ 1024]. *)
Lemma double_of_range (x : Q) :
  0 < x → double_of x = None ↔ 2 ^ 1024 - 2 ^ 970 <= x.
Proof.
  intros Hpos. unfold double_of.
  destruct (Qlog2_spec x Hpos) as [Hlo Hhi].
  set (L := Qlog2 x) in *. set (E := Z.max (L - 52) (-1074)).
  set (y := x / 2 ^ E). set (M := nearest_even y).
  pose proof (two_pow_pos E) as HE. pose proof (two_pow_nonzero E) as HE0.
  assert (x == y * 2 ^ E) as Hx by (unfold y; by field).
  assert ((E <= 971)%Z ∨ 2 ^ 1024 <= x ∧ 2 ^ 1024 <= inject_Z M * 2 ^ E) as Hcase.
  { destruct (Z.le_gt_cases E 971) as [|Hbig]; [by left|right].
    assert (E = L - 52)%Z as HEL by lia.
    split.
    { eapply Qle_trans; [|exact Hlo]. apply Qpower_le_compat_l; [lia|done]. }
    assert (2 ^ 52 <= y) as Hy52.
    { unfold y. apply Qle_shift_div_l; [done|].
      rewrite <- Qpower_plus by done. by replace (52 + E)%Z with L by lia. }
    assert (2 ^ 52 <= M)%Z as HM52.
    { etransitivity; [|apply nearest_even_floor_le].
      change (2 ^ 52)%Z with (Qfloor (inject_Z (2 ^ 52))).
      apply Qfloor_resp_le. by rewrite two_pow_Z by lia. }
    rewrite Zle_Qle, two_pow_Z in HM52 by lia.
    eapply Qle_trans; [|apply Qmult_le_compat_r; [exact HM52|by apply Qlt_le_weak]].
    rewrite <- Qpower_plus by done. apply Qpower_le_compat_l; [lia|done]. }
  assert (2 ^ 1024 - 2 ^ 970 <= 2 ^ 1024) as Hbound by (by vm_compute).
  destruct (Qle_bool (2 ^ 1024) (Qred (inject_Z M * 2 ^ E))) eqn:Hover.
  - split; [intros _|done].
    apply Qle_bool_iff in Hover. rewrite Qred_correct in Hover.
    destruct Hcase as [HE971|[Hbig _]]; [|lra].
    pose proof (nearest_even_half y) as Hhalf. fold M in Hhalf.
    apply Qabs_Qle_condition in Hhalf as [Hhalf _].
    assert (2 ^ E <= 2 * 2 ^ 970) as HE970.
    { rewrite <- two_pow_succ. apply Qpower_le_compat_l; [lia|done]. }
    assert ((inject_Z M - (1 # 2)) * 2 ^ E <= x) as Hm.
    { rewrite Hx. apply Qmult_le_compat_r; [lra|by apply Qlt_le_weak]. }
    lra.
  - split; [done|]. intros Hx'. exfalso.
    assert (¬ 2 ^ 1024 <= inject_Z M * 2 ^ E) as Hfin.
    { intros H. rewrite <- (Qred_correct (inject_Z M * 2 ^ E)) in H.
      apply Qle_bool_iff in H. congruence. }
    apply Hfin. destruct Hcase as [HE971|[_ Hbig]]; [|done].
    assert (1023 <= L)%Z as HL.
    { assert (1023 < L + 1)%Z; [|lia]. apply (Qpower_lt_compat_l_inv 2); [|done].
      eapply Qle_lt_trans; [|exact Hhi]. eapply Qle_trans; [|exact Hx'].
      by vm_compute. }
    assert (E = 971)%Z as -> by lia.
    assert ((2 ^ 53)%Z <= M)%Z as HM.
    { apply nearest_even_up; [done|]. unfold y.
      apply Qle_shift_div_l; [done|]. eapply Qle_trans; [|exact Hx'].
      by vm_compute. }
    rewrite Zle_Qle in HM.
    eapply Qle_trans; [|apply Qmult_le_compat_r; [exact HM|by apply Qlt_le_weak]].
    by vm_compute.
Qed.

(** What [JSON.parse] makes of a numeric literal: the nearest double, if the
    literal is in range, and an infinity if not. *)
Theorem Number_of_nearest (q : Q) :
  match Number_of q with
  | JNum d =>
      Qabs q < 2 ^ 1024 - 2 ^ 970
      ∧ double d ∧ ∀ d', double d' → Qabs (q - d) <= Qabs (q - d')
  | JInf negative =>
      2 ^ 1024 - 2 ^ 970 <= Qabs q ∧ (negative = true ↔ q < 0)
  | _ => False
  end.
Proof.
  unfold Number_of. destruct (Qnum q) eqn:En.
  - assert (q == 0) as Hq by (unfold Qeq; simpl; lia).
    split; [rewrite Hq; by vm_compute|].
    split; [by exists 0%Z, 0%Z|].
    intros d' _. rewrite Hq. apply Qabs_nonneg.
  - assert (0 < q) as Hpos by (unfold Qlt; simpl; lia).
    pose proof (double_of_range q Hpos) as Hrange.
    destruct (double_of q) as [d|] eqn:Hd.
    + split.
      { rewrite Qabs_pos by (by apply Qlt_le_weak).
        apply Qnot_le_lt. intros H. by apply Hrange in H. }
      by apply double_of_nearest.
    + rewrite Qabs_pos by (by apply Qlt_le_weak).
      split; [by apply Hrange|]. split; [done|]. intros H. lra.
  - assert (q < 0) as Hneg by (unfold Qlt; simpl; lia).
    assert (0 < - q) as Hpos by lra.
    pose proof (double_of_range (- q) Hpos) as Hrange.
    destruct (double_of (- q)) as [d|] eqn:Hd.
    + split.
      { rewrite Qabs_neg by (by apply Qlt_le_weak).
        apply Qnot_le_lt. intros H. by apply Hrange in H. }
      destruct (double_of_nearest (- q) d Hpos Hd) as [(m & e & Hm & He & Hde) Hnear].
      split.
      { exists (- m)%Z, e. split; [lia|]. split; [done|].
        apply Qred_complete. rewrite Hde, Qred_correct, inject_Z_opp. ring. }
      intros d' (m' & e' & Hm' & He' & Hd').
      assert (double (Qred (- d'))) as Hopp.
      { exists (- m')%Z, e'. split; [lia|]. split; [done|].
        apply Qred_complete. rewrite Hd', Qred_correct, inject_Z_opp. ring. }
      specialize (Hnear _ Hopp). rewrite !Qred_correct in *.
      rewrite <- (Qabs_opp (q - - d)), <- (Qabs_opp (q - d')).
      assert (- (q - - d) == - q - d) as -> by ring.
      assert (- (q - d') == - q - - d') as -> by ring. done.
    + rewrite Qabs_neg by (by apply Qlt_le_weak).
      split; [by apply Hrange|]. done.
Qed.

End Doubles.

(** *** Objects *)

Section Parsing.

Lemma own_replace_own (k k' : string) (v : jsval) (fields : list (string * jsval)) :
  is_Some (own fields k) →
  own (replace_own k v fields) k' = if String.eqb k k' then Some v else own fields k'.
Proof.
  induction fields as [|[k0 x] rest IH]; simpl; [by intros [? ?]|].
  destruct (String.eqb k0 k) eqn:E0.
  - apply String.eqb_eq in E0 as ->. intros _. simpl.
    by destruct (String.eqb k k').
  - intros H. simpl. destruct (String.eqb k0 k') eqn:E1.
    + apply String.eqb_eq in E1 as ->. by rewrite String.eqb_sym, E0.
    + by apply IH.
Qed.

Lemma own_insert_index (i : N) (k k' : string) (v : jsval) (fields : list (string * jsval)) :
  own fields k = None →
  own (insert_index i k v fields) k' = if String.eqb k k' then Some v else own fields k'.
Proof.
  induction fields as [|[k0 x] rest IH]; simpl; [done|].
  destruct (String.eqb k0 k) eqn:E0; [done|]. intros H.
  destruct (array_index k0) as [j|]; [destruct (j <? i)%N|]; simpl; try done.
  destruct (String.eqb k0 k') eqn:E1.
  - apply String.eqb_eq in E1 as ->. by rewrite String.eqb_sym, E0.
  - by apply IH.
Qed.

Lemma own_app_new (k k' : string) (v : jsval) (fields : list (string * jsval)) :
  own fields k = None →
  own (fields ++ [(k, v)]) k' = if String.eqb k k' then Some v else own fields k'.
Proof.
  induction fields as [|[k0 x] rest IH]; simpl; [done|].
  destruct (String.eqb k0 k) eqn:E0; [done|]. intros H.
  destruct (String.eqb k0 k') eqn:E1.
  - apply String.eqb_eq in E1 as ->. by rewrite String.eqb_sym, E0.
  - by apply IH.
Qed.

(** After [define_property] the object has [k] with the new value and every
    other name as before. *)
Lemma own_define_property (k k' : string) (v : jsval) (fields : list (string * jsval)) :
  own (define_property k v fields) k' = if String.eqb k k' then Some v else own fields k'.
Proof.
  unfold define_property. destruct (own fields k) as [x|] eqn:E.
  - apply own_replace_own. by rewrite E.
  - destruct (array_index k); [by apply own_insert_index | by apply own_app_new].
Qed.

(** The object [JSON.parse] builds has, under each name, the value of the
    last member of that name. *)
Lemma get_parse_member (members : list (string * text)) (k : string) (x : text) :
  member members k = Some x → get (parse (TObj members)) k = Some (parse x).
Proof.
  intros H. cbn [parse get]. f_equal.
  set (go := fix go (ms : list (string * text)) (fields : list (string * jsval)) :=
               match ms with
               | [] => fields
               | (k, x) :: rest => go rest (define_property k (parse x) fields)
               end).
  assert (∀ ms fields, own (go ms fields) k
                       = match member ms k with
                         | Some y => Some (parse y)
                         | None => own fields k
                         end) as Hgo.
  { induction ms as [|[k0 y] rest IH]; intros fields; [done|].
    cbn [go member]. rewrite IH. destruct (member rest k); [done|].
    rewrite own_define_property. by destruct (String.eqb k0 k). }
  by rewrite Hgo, H.
Qed.

Lemma Number_of_serialisable (q : Q) : serialisable (Number_of q) = true.
Proof. unfold Number_of. by repeat case_match. Qed.

(** [JSON.parse] returns no [undefined] and no function. *)
Lemma parse_serialisable (t : text) : serialisable (parse t) = true.
Proof. destruct t; try done. apply Number_of_serialisable. Qed.

End Parsing.

Section Ticks.

Lemma carried_wire (t : jsval) (k : string) (x : jsval) (rest : list (string * jsval)) :
  get t k = Some x →
  (if serialisable x then (k, wire x) :: rest else rest) = carried k t ++ rest.
Proof. intros Hx. unfold carried. rewrite Hx. by destruct (serialisable x). Qed.

(** The tick of a tick message, and what the handler reads from it. *)
Lemma tick_fields (msg : jsval) :
  reads msg "tick" = true →
  ∃ t symbol quote epoch,
    get msg "tick" = Some t ∧ truthy t = true
    ∧ get t "symbol" = Some symbol ∧ get t "quote" = Some quote
    ∧ get t "epoch" = Some epoch
    ∧ wire (tick_event symbol quote epoch) = forwarded_tick msg.
Proof.
  intros (t & Ht & Htr)%reads_get.
  destruct (truthy_defined t "symbol" Htr) as [symbol Hs].
  destruct (truthy_defined t "quote" Htr) as [quote Hq].
  destruct (truthy_defined t "epoch" Htr) as [epoch He].
  exists t, symbol, quote, epoch. repeat (split; [done|]).
  unfold forwarded_tick. rewrite Ht. simpl. do 2 f_equal.
  rewrite <- (app_nil_r (carried "epoch" t)).
  rewrite <- (carried_wire t "epoch" epoch [] He).
  rewrite <- (carried_wire t "quote" quote _ Hq).
  by rewrite <- (carried_wire t "symbol" symbol _ Hs).
Qed.

Lemma proxy_tick (st : State) (c : nat) (cn : Conn) (msg : jsval) :
  conns st !! c = Some cn → tick_message msg = true →
  handle st (DerivMessage c (Some msg)) = Some (st, [ClientSend c (forwarded_tick msg)]).
Proof.
  intros Hc [Ha Ht]%andb_prop.
  destruct (tick_fields msg Ht) as (t & symbol & quote & epoch & Hgt & Htr & Hs & Hq & He & Hw).
  destruct (get_defined msg _ "authorize" _ Hgt) as [a Hga].
  unfold reads in Ha. rewrite Hga in Ha. apply negb_true_iff in Ha.
  rewrite <- Hw. simpl. unfold deriv_message. rewrite Hc, Hga. simpl.
  rewrite Ha, Hgt. simpl. rewrite Htr. unfold on_tick. by rewrite Hs, Hq, He.
Qed.

Lemma simple_tick (st : SimpleProxy.State) (c : nat) (cn : SimpleProxy.Conn) (msg : jsval) :
  SimpleProxy.conns st !! c = Some cn → reads msg "tick" = true →
  SimpleProxy.handle st (SimpleProxy.DerivMessage c (Some msg))
  = Some (st, [ClientSend c (forwarded_tick msg)]).
Proof.
  intros Hc Ht.
  destruct (tick_fields msg Ht) as (t & symbol & quote & epoch & Hgt & Htr & Hs & Hq & He & Hw).
  rewrite <- Hw. simpl. unfold SimpleProxy.deriv_message, SimpleProxy.deriv_try.
  rewrite Hc. simpl. rewrite Hgt. simpl. by rewrite Htr, Hs, Hq, He.
Qed.

(** A member the tick has as written is carried under its name, with the
    value [JSON.parse] reads from it. *)
Lemma carried_member (fields : list (string * text)) (k : string) (x : text) :
  member fields k = Some x → carried k (parse (TObj fields)) = [(k, wire (parse x))].
Proof.
  intros H. unfold carried.
  by rewrite (get_parse_member fields k x H), parse_serialisable.
Qed.

(** C6, as the code has it.  A sequence of upstream frames that are tick
    messages is forwarded to the client one event per frame, in the order of
    arrival, and the state after the sequence is the state before it; both
    proxies do so.  The event is [{ type: 'tick', symbol, quote, epoch }]
    with, for each of the three, the value that [JSON.parse] read from the
    frame, as the client reads it back: a string as it is; a number that is a
    double (every integer up to [2 ^ 53] in magnitude is one) as it is; any
    other number as a double that no double is nearer to it than; and from
    [2 ^ 1024 - 2 ^ 970] on in magnitude, beyond the doubles, as [null]. *)
Theorem ticks_forwarded_in_order (c : nat) (frames : list text) :
  Forall (λ data, tick_message (parse data) = true) frames →
  (∀ (st : State) (cn : Conn),
     conns st !! c = Some cn →
     run st (map (λ data, upstream_frame c (Some data)) frames)
     = (st, map (λ data, ClientSend c (forwarded_tick (parse data))) frames))
  ∧ (∀ (st : SimpleProxy.State) (cn : SimpleProxy.Conn),
       SimpleProxy.conns st !! c = Some cn →
       SimpleProxy.run st (map (λ data, SimpleProxy.upstream_frame c (Some data)) frames)
       = (st, map (λ data, ClientSend c (forwarded_tick (parse data))) frames))
  ∧ (∀ members fields symbol quote epoch,
       member members "tick" = Some (TObj fields) →
       member fields "symbol" = Some symbol →
       member fields "quote" = Some quote →
       member fields "epoch" = Some epoch →
       forwarded_tick (parse (TObj members))
       = tick_event (wire (parse symbol)) (wire (parse quote)) (wire (parse epoch)))
  ∧ (∀ s, wire (parse (TStr s)) = JStr s)
  ∧ (∀ q, double q → wire (parse (TNum q)) = JNum q)
  ∧ (∀ z, (Z.abs z <= 2 ^ 53)%Z → wire (parse (TNum (inject_Z z))) = num z)
  ∧ (∀ q, match wire (parse (TNum q)) with
          | JNum d =>
              (Qabs q < 2 ^ 1024 - 2 ^ 970)%Q ∧ double d
              ∧ ∀ d', double d' → (Qabs (q - d) <= Qabs (q - d'))%Q
          | JNull => (2 ^ 1024 - 2 ^ 970 <= Qabs q)%Q
          | _ => False
          end).
Proof.
  intros Hticks. split; [|split; [|split; [|split; [|split; [|split]]]]].
  - intros st cn Hc. induction Hticks as [|data frames Ht _ IH]; [done|].
    cbn [map run]. unfold upstream_frame at 1. cbn [JSON_parse fmap option_fmap option_map].
    rewrite (proxy_tick st c cn (parse data) Hc Ht). by rewrite IH.
  - intros st cn Hc. induction Hticks as [|data frames Ht _ IH]; [done|].
    cbn [map SimpleProxy.run]. unfold SimpleProxy.upstream_frame at 1.
    cbn [JSON_parse fmap option_fmap option_map].
    apply andb_prop in Ht as [_ Ht].
    rewrite (simple_tick st c cn (parse data) Hc Ht). by rewrite IH.
  - intros members fields symbol quote epoch Ht Hs Hq He.
    unfold forwarded_tick. rewrite (get_parse_member members "tick" _ Ht).
    cbn [default]. unfold id.
    by rewrite (carried_member fields _ _ Hs), (carried_member fields _ _ Hq),
         (carried_member fields _ _ He).
  - done.
  - intros q Hq. cbn [parse]. by rewrite (Number_of_double q Hq).
  - intros z Hz. cbn [parse]. by rewrite (Number_of_double _ (double_Z z Hz)).
  - intros q. cbn [parse]. pose proof (Number_of_nearest q) as H.
    destruct (Number_of q); try done. cbn [wire]. by destruct H.
Qed.

End Ticks.

Section TickScenario.

Lemma ticks_forwarded_in_order_witness :
  Forall (λ data, tick_message (parse data) = true)
    [tick_R100_frame; tick_R100_next_frame]
  ∧ run ready_S1 [upstream_frame 0 (Some tick_R100_frame);
                  upstream_frame 0 (Some tick_R100_next_frame)]
    = (ready_S1,
       [ClientSend 0 (tick_event (JStr "R_100") (JNum (1927 # 2)) (num 1690000000));
        ClientSend 0 (tick_event (JStr "R_100") (num 964) (num 1690000002))])
  ∧ SimpleProxy.run simple_S1
      [SimpleProxy.upstream_frame 0 (Some tick_R100_frame);
       SimpleProxy.upstream_frame 0 (Some tick_R100_next_frame)]
    = (simple_S1,
       [ClientSend 0 (tick_event (JStr "R_100") (JNum (1927 # 2)) (num 1690000000));
        ClientSend 0 (tick_event (JStr "R_100") (num 964) (num 1690000002))]).
Proof.
  assert (Hticks : Forall (λ data, tick_message (parse data) = true)
                     [tick_R100_frame; tick_R100_next_frame])
    by (repeat constructor; by vm_compute).
  split; [exact Hticks|].
  destruct (ticks_forwarded_in_order 0 [tick_R100_frame; tick_R100_next_frame] Hticks)
    as (Hproxy & Hsimple & _).
  assert (conns ready_S1 !! 0 = Some (conn_S1 OPEN [])) as Hc by (by vm_compute).
  assert (SimpleProxy.conns simple_S1 !! 0 = Some (simple_conn_S1 [])) as Hc'
    by (by vm_compute).
  split.
  - etransitivity; [exact (Hproxy ready_S1 (conn_S1 OPEN []) Hc)|by vm_compute].
  - etransitivity; [exact (Hsimple simple_S1 (simple_conn_S1 []) Hc')|by vm_compute].
Defined.

(** C6, as the spec has it, fails where the upstream writes a number that is
    not a double.  The frame
    [{"tick":{"symbol":"R_100","quote":1e999,"epoch":9007199254740993}}] is a
    tick message; both proxies forward it with the epoch [9007199254740992]
    and the quote [null]. *)
Lemma ticks_unchanged_counterexample :
  tick_message (parse tick_beyond_frame) = true
  ∧ run ready_S1 [upstream_frame 0 (Some tick_beyond_frame)]
    = (ready_S1,
       [ClientSend 0 (tick_event (JStr "R_100") JNull (num 9007199254740992))])
  ∧ SimpleProxy.run simple_S1 [SimpleProxy.upstream_frame 0 (Some tick_beyond_frame)]
    = (simple_S1,
       [ClientSend 0 (tick_event (JStr "R_100") JNull (num 9007199254740992))])
  ∧ num 9007199254740992 ≠ num 9007199254740993.
Proof. repeat split; by vm_compute. Qed.

End TickScenario.

(** ** Authorization *)

Section Authorization.

(** The handler of an upstream authorize success. *)
Lemma proxy_authorize_success (st : State) (c : nat) (cn : Conn) (msg : jsval) :
  conns st !! c = Some cn → authorize_success msg = true →
  ∃ a loginid currency balance,
    get msg "authorize" = Some a
    ∧ get a "loginid" = Some loginid
    ∧ get a "currency" = Some currency
    ∧ get a "balance" = Some balance
    ∧ let info := JObj [("loginid", loginid); ("currency", currency);
                        ("balance", balance)] in
      handle st (DerivMessage c (Some msg))
      = Some (set_meta c (with_account info (meta cn)) st,
              [ClientSend c (wire (authorized_event info));
               ClientSend c (wire (balance_event balance))]).
Proof.
  intros Hc Hs. unfold authorize_success in Hs.
  destruct (get msg "authorize") as [a|] eqn:Ha; [|done].
  apply andb_prop in Hs as [Htr He]. apply negb_true_iff in He.
  destruct (truthy_defined a "error" Htr) as [e Hge].
  destruct (truthy_defined a "loginid" Htr) as [loginid Hl].
  destruct (truthy_defined a "currency" Htr) as [currency Hcu].
  destruct (truthy_defined a "balance" Htr) as [balance Hb].
  unfold reads in He. rewrite Hge in He.
  exists a, loginid, currency, balance. repeat (split; [done|]).
  simpl. unfold deriv_message. rewrite Hc, Ha. simpl. rewrite Htr.
  unfold on_authorize. rewrite Hge. simpl. rewrite He, Hl, Hcu, Hb. done.
Qed.

(** Only the handler of an upstream authorize success sends the client a
    message of type [authorized]. *)
Lemma authorized_only_on_success (st st' : State) (ev : Event) (out : list Effect)
    (c : nat) (v : jsval) :
  handle st ev = Some (st', out) →
  ClientSend c v ∈ out → announces_authorized v = true →
  ∃ msg, ev = DerivMessage c (Some msg) ∧ authorize_success msg = true.
Proof.
  intros H Hin Hv. destruct ev; simpl in H.
  - unfold store_token, reply in H. case_match; simplify_eq;
      apply list_elem_of_singleton in Hin; done.
  - unfold me, reply in H. repeat case_match; simplify_eq;
      apply list_elem_of_singleton in Hin; done.
  - unfold logout, reply in H. repeat case_match; simplify_eq;
      apply list_elem_of_singleton in Hin; done.
  - unfold buy, reply in H. repeat case_match; simplify_eq;
      apply list_elem_of_singleton in Hin; done.
  - unfold connection in H. simplify_eq. by apply elem_of_nil in Hin.
  - unfold deriv_open in H. repeat case_match; simplify_eq;
      try (by apply elem_of_nil in Hin);
      apply list_elem_of_singleton in Hin; done.
  - unfold deriv_message in H.
    destruct (conns st !! c0) as [cn|]; [|simplify_eq; by apply elem_of_nil in Hin].
    destruct data as [msg|]; [|simplify_eq; by apply elem_of_nil in Hin].
    destruct (get msg "authorize") as [a|] eqn:Ha; [|done]. simpl in H.
    destruct (truthy a) eqn:Htr.
    + unfold on_authorize in H.
      destruct (get a "error") as [e|] eqn:He; [|done]. simpl in H.
      destruct (truthy e) eqn:Hte.
      * destruct (get e "message") as [m|]; [|done]. simpl in H. simplify_eq.
        apply list_elem_of_singleton in Hin. simplify_eq; by vm_compute in Hv.
      * destruct (get a "loginid") as [l|]; [|done]. simpl in H.
        destruct (get a "currency") as [cu|]; [|done]. simpl in H.
        destruct (get a "balance") as [b|]; [|done]. simpl in H. simplify_eq.
        apply elem_of_cons in Hin as [Hin|Hin].
        -- simplify_eq. exists msg. split; [done|].
           unfold authorize_success, reads. by rewrite Ha, Htr, He, Hte.
        -- apply list_elem_of_singleton in Hin. simplify_eq; by vm_compute in Hv.
    + destruct (get msg "tick") as [t|] eqn:Ht; [|done]. simpl in H.
      destruct (truthy t).
      * unfold on_tick in H.
        destruct (get t "symbol") as [sy|]; [|done]. simpl in H.
        destruct (get t "quote") as [q|]; [|done]. simpl in H.
        destruct (get t "epoch") as [ep|]; [|done]. simpl in H. simplify_eq.
        apply list_elem_of_singleton in Hin. simplify_eq; by vm_compute in Hv.
      * destruct (get msg "buy") as [b|]; [|done]. simpl in H.
        destruct (get msg "error") as [e|]; [|done]. simpl in H.
        unfold on_buy_result in H.
        destruct (truthy b || truthy e); simplify_eq; [|by apply elem_of_nil in Hin].
        apply elem_of_cons in Hin as [Hin|Hin].
        -- simplify_eq; by vm_compute in Hv.
        -- apply list_elem_of_fmap in Hin as (? & ? & ?). done.
  - unfold deriv_close in H. repeat case_match; simplify_eq; by apply elem_of_nil in Hin.
  - unfold client_message, client_try in H.
    destruct (conns st !! c0) as [cn|]; [|simplify_eq; by apply elem_of_nil in Hin].
    destruct raw as [msg|]; simpl in H; [|simplify_eq; by apply elem_of_nil in Hin].
    destruct (get msg "type") as [ty|]; simpl in H; [|simplify_eq; by apply elem_of_nil in Hin].
    destruct (get msg "symbol") as [sy|]; simpl in H; [|simplify_eq; by apply elem_of_nil in Hin].
    repeat case_match; simplify_eq; try (by apply elem_of_nil in Hin).
    all: apply elem_of_cons in Hin as [Hin|Hin]; [done|].
    all: apply list_elem_of_singleton in Hin; simplify_eq; by vm_compute in Hv.
  - unfold client_close in H. repeat case_match; simplify_eq;
      try (by apply elem_of_nil in Hin);
      apply list_elem_of_singleton in Hin; done.
Qed.

Lemma run_cons (st : State) (ev : Event) (evs : list Event) :
  run st (ev :: evs)
  = match handle st ev with
    | None => (st, [])
    | Some (st', out) => ((run st' evs).1, out ++ (run st' evs).2)
    end.
Proof. simpl. destruct (handle st ev) as [[st' out]|]; [|done]. by destruct (run st' evs). Qed.

(** As long as the upstream has sent no authorize success on a connection,
    its client has been sent no message of type [authorized]. *)
Lemma no_authorized_before_success (c : nat) (evs : list Event) :
  ∀ (st : State) (v : jsval),
    (∀ msg, DerivMessage c (Some msg) ∈ evs → authorize_success msg = false) →
    ClientSend c v ∈ (run st evs).2 → announces_authorized v = false.
Proof.
  induction evs as [|ev evs IH]; intros st v Hnone Hin.
  - by apply elem_of_nil in Hin.
  - rewrite run_cons in Hin.
    destruct (handle st ev) as [[st' out]|] eqn:Hev; [|by apply elem_of_nil in Hin].
    simpl in Hin. apply elem_of_app in Hin as [Hin|Hin].
    + destruct (announces_authorized v) eqn:Hv; [|done].
      destruct (authorized_only_on_success _ _ _ _ _ _ Hev Hin Hv) as (msg & -> & Hs).
      rewrite Hnone in Hs; [done|by left].
    + apply (IH st' v); [|done]. intros msg Hmsg. apply Hnone. by right.
Qed.

(** C4, on the extended proxy.  A message of type [authorized] goes to the
    client of a connection only from the handler of an upstream authorize
    success on that connection, so never before one has arrived, and not at
    the opening of the upstream socket.  That handler stores
    [{ loginid, currency, balance }] as [accountInfo], sets [authorized], and
    sends [{ type: 'authorized', account }] and then
    [{ type: 'balance', balance }]. *)
Theorem authorized_upon_authorize_success (c : nat) :
  (∀ (st st' : State) (ev : Event) (out : list Effect) (v : jsval),
     handle st ev = Some (st', out) →
     ClientSend c v ∈ out → announces_authorized v = true →
     ∃ msg, ev = DerivMessage c (Some msg) ∧ authorize_success msg = true)
  ∧ (∀ (st : State) (evs : list Event) (v : jsval),
       (∀ msg, DerivMessage c (Some msg) ∈ evs → authorize_success msg = false) →
       ClientSend c v ∈ (run st evs).2 → announces_authorized v = false)
  ∧ (∀ (st : State) (cn : Conn) (msg : jsval),
       conns st !! c = Some cn → authorize_success msg = true →
       ∃ st' m' a loginid currency balance,
         get msg "authorize" = Some a
         ∧ get a "loginid" = Some loginid
         ∧ get a "currency" = Some currency
         ∧ get a "balance" = Some balance
         ∧ handle st (DerivMessage c (Some msg))
           = Some (st', [ClientSend c (wire (authorized_event (accountInfo m')));
                         ClientSend c (wire (balance_event balance))])
         ∧ meta_of st' c = Some m'
         ∧ authorized m' = true
         ∧ accountInfo m'
           = JObj [("loginid", loginid); ("currency", currency); ("balance", balance)]
         ∧ announces_authorized (wire (authorized_event (accountInfo m'))) = true).
Proof.
  split; [|split].
  - intros st st' ev out v. apply authorized_only_on_success.
  - intros st evs v. apply no_authorized_before_success.
  - intros st cn msg Hc Hs.
    destruct (proxy_authorize_success st c cn msg Hc Hs)
      as (a & loginid & currency & balance & Ha & Hl & Hcu & Hb & Hh).
    set (info := JObj [("loginid", loginid); ("currency", currency);
                       ("balance", balance)]) in *.
    exists (set_meta c (with_account info (meta cn)) st), (with_account info (meta cn)),
      a, loginid, currency, balance.
    repeat (split; [done|]).
    split; [by eapply meta_of_set_meta|done].
Qed.

Lemma authorized_upon_authorize_success_witness :
  (∀ v, ClientSend 0 v ∈ (run initial [ PostStoreToken 0 (JStr "abc") "S1";
                                        Connection (Some "S1");
                                        DerivOpen 0 None ]).2 →
        announces_authorized v = false)
  ∧ authorize_success authorize_CR1 = true
  ∧ ∃ st' m' a loginid currency balance,
      get authorize_CR1 "authorize" = Some a
      ∧ get a "loginid" = Some loginid
      ∧ get a "currency" = Some currency
      ∧ get a "balance" = Some balance
      ∧ handle authorizing_S1 (DerivMessage 0 (Some authorize_CR1))
        = Some (st', [ClientSend 0 (wire (authorized_event (accountInfo m')));
                      ClientSend 0 (wire (balance_event balance))])
      ∧ meta_of st' 0 = Some m'
      ∧ authorized m' = true
      ∧ accountInfo m'
        = JObj [("loginid", loginid); ("currency", currency); ("balance", balance)]
      ∧ announces_authorized (wire (authorized_event (accountInfo m'))) = true.
Proof.
  destruct (authorized_upon_authorize_success 0) as (_ & Hbefore & Hsuccess).
  split; [|split; [by vm_compute|]].
  - intros v. apply Hbefore. intros msg Hin.
    repeat (apply elem_of_cons in Hin as [Hin|Hin]; [done|]).
    by apply elem_of_nil in Hin.
  - eapply (Hsuccess authorizing_S1); by vm_compute.
Defined.

(** C4, as the spec has it, fails on the simple proxy.  With a token stored
    the handler of the opening of the upstream socket writes the authorize
    request and tells the client [{ type: 'authorized' }] in the same turn,
    before any upstream message; the authorize success that arrives later is
    dropped: no state, no account, no balance. *)
Lemma authorized_at_open_counterexample :
  SimpleProxy.run SimpleProxy.initial simple_login_S1
  = (simple_S1,
     [HttpReply 0 200 (JObj [("ok", JBool true); ("sessionId", JStr "S1")]);
      UpstreamSend 0 (authorize_request (JStr "abc"));
      ClientSend 0 (JObj [("type", JStr "authorized")])])
  ∧ announces_authorized (JObj [("type", JStr "authorized")]) = true
  ∧ SimpleProxy.handle simple_S1 (SimpleProxy.DerivMessage 0 (Some authorize_CR1))
    = Some (simple_S1, []).
Proof. repeat split; by vm_compute. Qed.

End Authorization.

(** ** Connections without a token *)

Section Anonymous.

Lemma elem_of_upstream_of (c : nat) (v : jsval) (out : list Effect) :
  v ∈ upstream_of c out ↔ UpstreamSend c v ∈ out.
Proof.
  unfold upstream_of. rewrite list_elem_of_omap. split.
  - intros (e & He & Hv). destruct e; try done.
    destruct (Nat.eqb_spec c0 c); by simplify_eq.
  - intros H. exists (UpstreamSend c v). by rewrite Nat.eqb_refl.
Qed.

Lemma keeps_tokens_refl (st : State) : keeps_tokens st st.
Proof. intros c cn H. eauto. Qed.

Lemma keeps_tokens_trans (st1 st2 st3 : State) :
  keeps_tokens st1 st2 → keeps_tokens st2 st3 → keeps_tokens st1 st3.
Proof.
  intros H12 H23 c cn H. destruct (H12 c cn H) as (cn2 & H2 & E2).
  destruct (H23 c cn2 H2) as (cn3 & H3 & E3). exists cn3. split; [done|congruence].
Qed.

Lemma keeps_tokens_conns (st st' : State) :
  conns st' = conns st → keeps_tokens st st'.
Proof. intros E c cn H. rewrite E. eauto. Qed.

Lemma keeps_tokens_set_meta (st : State) (c : nat) (m : Meta) :
  keeps_tokens st (set_meta c m st).
Proof.
  intros c' cn H. simpl. destruct (decide (c = c')) as [->|Hne].
  - rewrite list_lookup_alter_eq, H. simpl. eauto.
  - rewrite list_lookup_alter_ne by done. eauto.
Qed.

Lemma keeps_tokens_step (st st' : State) (ev : Event) (out : list Effect) :
  handle st ev = Some (st', out) → keeps_tokens st st'.
Proof.
  intros H. destruct ev; simpl in H.
  - unfold store_token, reply in H. case_match; simplify_eq;
      by apply keeps_tokens_conns.
  - unfold me, reply in H. repeat case_match; simplify_eq; apply keeps_tokens_refl.
  - unfold logout, reply in H. repeat case_match; simplify_eq;
      by apply keeps_tokens_conns.
  - unfold buy, reply in H. repeat case_match; simplify_eq;
      first [apply keeps_tokens_refl | apply keeps_tokens_set_meta].
  - unfold connection in H. simplify_eq. intros c cn Hc. exists cn. simpl.
    split; [|done]. rewrite lookup_app_l; [done|]. by eapply lookup_lt_Some.
  - unfold deriv_open in H. repeat case_match; simplify_eq;
      first [apply keeps_tokens_refl | apply keeps_tokens_set_meta].
  - unfold deriv_message, on_authorize, on_tick, on_buy_result in H.
    repeat (case_match; simplify_option_eq);
      first [apply keeps_tokens_refl | apply keeps_tokens_set_meta].
  - unfold deriv_close in H. repeat case_match; simplify_eq;
      first [apply keeps_tokens_refl | apply keeps_tokens_set_meta].
  - unfold client_message, client_try in H.
    repeat (case_match; simplify_option_eq);
      first [apply keeps_tokens_refl | apply keeps_tokens_set_meta].
  - unfold client_close in H. repeat case_match; simplify_eq;
      first [ apply keeps_tokens_refl
            | by apply keeps_tokens_conns
            | eapply keeps_tokens_trans;
              [apply keeps_tokens_set_meta|by apply keeps_tokens_conns] ].
Qed.

Lemma keeps_tokens_run (evs : list Event) :
  ∀ st : State, keeps_tokens st (run st evs).1.
Proof.
  induction evs as [|ev evs IH]; intros st; [apply keeps_tokens_refl|].
  rewrite run_cons. destruct (handle st ev) as [[st' out]|] eqn:Hev;
    [|apply keeps_tokens_refl].
  eapply keeps_tokens_trans; [by eapply keeps_tokens_step|apply IH].
Qed.

Lemma buy_request_not_authorize (stake symbol : jsval) :
  has_key "authorize" (wire (buy_request stake symbol)) = false.
Proof. simpl. by destruct (serialisable stake), (serialisable symbol). Qed.

Lemma ticks_request_not_authorize (symbol : jsval) :
  has_key "authorize" (wire (ticks_request symbol)) = false.
Proof. simpl. by destruct (serialisable symbol). Qed.

(** Only the handler of the opening of the upstream socket writes an
    authorize request, and only for a truthy [token]. *)
Lemma authorize_needs_token (st st' : State) (ev : Event) (out : list Effect)
    (c : nat) (v : jsval) :
  handle st ev = Some (st', out) →
  UpstreamSend c v ∈ out → has_key "authorize" v = true →
  ∃ cn, conns st !! c = Some cn ∧ truthy (token cn) = true.
Proof.
  intros H Hin Hv. destruct ev; simpl in H.
  - unfold store_token, reply in H. case_match; simplify_eq;
      apply list_elem_of_singleton in Hin; done.
  - unfold me, reply in H. repeat case_match; simplify_eq;
      apply list_elem_of_singleton in Hin; done.
  - unfold logout, reply in H. repeat case_match; simplify_eq;
      apply list_elem_of_singleton in Hin; done.
  - unfold buy, reply in H.
    destruct (negb (logged (sessionTokenStore st) sid));
      [simplify_eq; apply list_elem_of_singleton in Hin; done|].
    destruct (negb (truthy symbol) || negb (truthy stake));
      [simplify_eq; apply list_elem_of_singleton in Hin; done|].
    destruct (find_meta _ _ _) as [[c' found]|];
      [|simplify_eq; apply list_elem_of_singleton in Hin; done].
    destruct fault; simplify_eq; apply list_elem_of_singleton in Hin; [done|].
    simplify_eq.
    assert (has_key "authorize" (wire (buy_request stake symbol)) = true) as Hv' by exact Hv.
    by rewrite buy_request_not_authorize in Hv'.
  - unfold connection in H. simplify_eq. by apply elem_of_nil in Hin.
  - unfold deriv_open in H.
    destruct (conns st !! c0) as [cn|] eqn:Hc; [|simplify_eq; by apply elem_of_nil in Hin].
    destruct (truthy (token cn)) eqn:Ht; [|simplify_eq; by apply elem_of_nil in Hin].
    destruct fault; [done|]. simplify_eq.
    apply list_elem_of_singleton in Hin. simplify_eq. eauto.
  - unfold deriv_message, on_authorize, on_tick, on_buy_result in H.
    repeat (case_match; simplify_option_eq);
      try (by apply elem_of_nil in Hin);
      repeat (apply elem_of_cons in Hin as [Hin|Hin]; [done|]);
      try (by apply elem_of_nil in Hin).
    all: apply list_elem_of_fmap in Hin as (? & ? & ?); done.
  - unfold deriv_close in H. repeat case_match; simplify_eq; by apply elem_of_nil in Hin.
  - unfold client_message, client_try in H.
    destruct (conns st !! c0) as [cn|]; [|simplify_eq; by apply elem_of_nil in Hin].
    destruct raw as [msg|]; simpl in H; [|simplify_eq; by apply elem_of_nil in Hin].
    destruct (get msg "type") as [ty|]; simpl in H; [|simplify_eq; by apply elem_of_nil in Hin].
    destruct (get msg "symbol") as [sy|]; simpl in H; [|simplify_eq; by apply elem_of_nil in Hin].
    destruct (is_str ty "subscribe" && truthy sy && is_open (derivWs (meta cn)));
      [|simplify_eq; by apply elem_of_nil in Hin].
    destruct fault; simplify_eq; [by apply elem_of_nil in Hin|].
    apply elem_of_cons in Hin as [Hin|Hin].
    + simplify_eq.
      assert (has_key "authorize" (wire (ticks_request sy)) = true) as Hv' by exact Hv.
      by rewrite ticks_request_not_authorize in Hv'.
    + apply list_elem_of_singleton in Hin. done.
  - unfold client_close in H. repeat case_match; simplify_eq;
      try (by apply elem_of_nil in Hin);
      apply list_elem_of_singleton in Hin; done.
Qed.

(** On a connection whose [token] is falsy no authorize request is ever
    written upstream, whatever the events. *)
Lemma no_authorize_with_falsy_token (c : nat) (evs : list Event) :
  ∀ (st : State) (cn : Conn) (v : jsval),
    conns (run st evs).1 !! c = Some cn → truthy (token cn) = false →
    v ∈ upstream_of c (run st evs).2 → has_key "authorize" v = false.
Proof.
  induction evs as [|ev evs IH]; intros st cn v Hc Ht Hin.
  - by apply elem_of_nil in Hin.
  - rewrite run_cons in Hc, Hin.
    destruct (handle st ev) as [[st' out]|] eqn:Hev; [|by apply elem_of_nil in Hin].
    simpl in Hc, Hin. apply elem_of_upstream_of, elem_of_app in Hin as [Hin|Hin].
    + destruct (has_key "authorize" v) eqn:Hv; [|done].
      destruct (authorize_needs_token _ _ _ _ _ _ Hev Hin Hv) as (cn0 & Hc0 & Ht0).
      destruct (keeps_tokens_step _ _ _ _ Hev c cn0 Hc0) as (cn1 & Hc1 & E1).
      destruct (keeps_tokens_run evs st' c cn1 Hc1) as (cn2 & Hc2 & E2).
      congruence.
    + apply (IH st' cn v); [done|done|]. by apply elem_of_upstream_of.
Qed.

(** The token a connection captures is falsy when it brings no session id,
    or one under which the store has no own property and which plain objects
    do not inherit. *)
Lemma token_of_absent (store : gmap string jsval) (sid : option string) :
  match sid with
  | None => True
  | Some s => store !! s = None ∧ Object_prototype_get s = JUndef
  end →
  truthy (token_of store sid) = false.
Proof.
  destruct sid as [s|]; [|done]. intros [Hs Hp]. unfold token_of, store_get.
  rewrite Hs, Hp. by destruct (truthy (JStr s)).
Qed.

Lemma connection_token (st : State) (sid : option string) (evs : list Event) :
  ∃ cn, conns (run st (Connection sid :: evs)).1 !! length (conns st) = Some cn
        ∧ token cn = token_of (sessionTokenStore st) sid.
Proof.
  rewrite run_cons. simpl.
  eapply (keeps_tokens_run evs _ (length (conns st)) {| token := _; meta := _ |}).
  simpl. by rewrite list_lookup_middle.
Qed.

(** A connection that arrives without a session id, or with one that names
    neither a stored token nor an inherited property, never has an authorize
    request written to its upstream socket. *)
Lemma anonymous_never_authorizes (st : State) (sid : option string)
    (evs : list Event) (v : jsval) :
  match sid with
  | None => True
  | Some s => sessionTokenStore st !! s = None ∧ Object_prototype_get s = JUndef
  end →
  v ∈ upstream_of (length (conns st)) (run st (Connection sid :: evs)).2 →
  has_key "authorize" v = false.
Proof.
  intros Hsid Hin. destruct (connection_token st sid evs) as (cn & Hc & Ht).
  eapply no_authorize_with_falsy_token; [exact Hc| |exact Hin].
  rewrite Ht. by apply token_of_absent.
Qed.

(** C7 on the code.  The cookie [SESSION_ID=__proto__] names no stored
    token: the store is empty.  Yet [sessionTokenStore['__proto__']] is
    [Object.prototype], which is truthy, and when the upstream socket opens
    the bridge writes [{ "authorize": {} }] on it.  Both proxies do so; the
    simple proxy also tells the client it is authorized. *)
Theorem authorize_without_stored_token :
  sessionTokenStore initial !! "__proto__" = None
  ∧ (run initial [Connection (Some "__proto__"); DerivOpen 0 None]).2
    = [UpstreamSend 0 (JObj [("authorize", JObj [])])]
  ∧ has_key "authorize" (JObj [("authorize", JObj [])]) = true
  ∧ SimpleProxy.sessionTokenStore SimpleProxy.initial !! "__proto__" = None
  ∧ (SimpleProxy.run SimpleProxy.initial
       [SimpleProxy.Connection (Some "__proto__"); SimpleProxy.DerivOpen 0 None]).2
    = [UpstreamSend 0 (JObj [("authorize", JObj [])]);
       ClientSend 0 (JObj [("type", JStr "authorized")])].
Proof. repeat split; by vm_compute. Qed.

End Anonymous.

(** ** Sessions over HTTP *)

Section Sessions.

(** X1.  [/store-token] with a token makes the session known: the answer
    names the new session id, a look-up under it gives the token back, a
    connection that arrives with it captures that token, and the other
    sessions and all connections are as before.  Without a token the answer
    is 400 and nothing is stored. *)
Theorem store_token_round_trip (st : State) (res : nat) (tok : jsval) (uuid : string) :
  uuid ≠ "" → uuid ≠ "__proto__" →
  (truthy tok = true →
   ∃ st',
     handle st (PostStoreToken res tok uuid)
     = Some (st', [HttpReply res 200 (JObj [("ok", JBool true); ("sessionId", JStr uuid)])])
     ∧ store_get (sessionTokenStore st') uuid = tok
     ∧ logged (sessionTokenStore st') (Some uuid) = true
     ∧ token_of (sessionTokenStore st') (Some uuid) = tok
     ∧ (∀ s, s ≠ uuid → sessionTokenStore st' !! s = sessionTokenStore st !! s)
     ∧ conns st' = conns st ∧ clientMeta st' = clientMeta st)
  ∧ (truthy tok = false →
     handle st (PostStoreToken res tok uuid)
     = Some (st, [HttpReply res 400 (fail_body (JStr "token missing"))])).
Proof.
  intros Hne _. assert (truthy (JStr uuid) = true) as Hu.
  { simpl. destruct (String.eqb_spec uuid ""); done. }
  split; intros Ht.
  - exists (set_store (insert uuid tok) st).
    split; [by cbn [handle]; unfold store_token; rewrite Ht|].
    cbn [sessionTokenStore set_store conns clientMeta].
    unfold logged, token_of, store_get.
    rewrite Hu, lookup_insert_eq, Ht. repeat (split; [done|]).
    split; [|done]. intros s Hs. by rewrite lookup_insert_ne.
  - cbn [handle]. unfold store_token. by rewrite Ht.
Qed.

Lemma store_token_round_trip_witness :
  ∃ st',
    handle ready_S1 (PostStoreToken 5 (JStr "xyz") "S2")
    = Some (st', [HttpReply 5 200 (JObj [("ok", JBool true); ("sessionId", JStr "S2")])])
    ∧ store_get (sessionTokenStore st') "S2" = JStr "xyz"
    ∧ logged (sessionTokenStore st') (Some "S2") = true
    ∧ token_of (sessionTokenStore st') (Some "S2") = JStr "xyz"
    ∧ (∀ s, s ≠ "S2" → sessionTokenStore st' !! s = sessionTokenStore ready_S1 !! s)
    ∧ conns st' = conns ready_S1 ∧ clientMeta st' = clientMeta ready_S1.
Proof.
  assert (H1 : "S2" ≠ "") by done. assert (H2 : "S2" ≠ "__proto__") by done.
  destruct (store_token_round_trip ready_S1 5 (JStr "xyz") "S2" H1 H2) as [Hok _].
  apply Hok. by vm_compute.
Defined.

(** X2.  [/logout] with a session cookie deletes the token: from then on
    [/me] and [/api/buy] answer 401 for that session id, whatever connections
    it has; the other sessions keep their tokens, and no connection is
    touched. *)
Theorem logout_revokes (st : State) (res : nat) (s : string) :
  s ≠ "" → Object_prototype_get s = JUndef →
  ∃ st',
    handle st (PostLogout res (Some s))
    = Some (st', [HttpReply res 200 (JObj [("ok", JBool true)])])
    ∧ (∀ res', handle st' (GetMe res' (Some s))
               = Some (st', [HttpReply res' 401 (JObj [("authorized", JBool false)])]))
    ∧ (∀ res' symbol stake now fault,
         handle st' (PostBuy res' (Some s) symbol stake now fault)
         = Some (st', [HttpReply res' 401 (fail_body (JStr "not logged"))]))
    ∧ (∀ s', s' ≠ s → sessionTokenStore st' !! s' = sessionTokenStore st !! s')
    ∧ conns st' = conns st ∧ clientMeta st' = clientMeta st.
Proof.
  intros Hne Hp. assert (truthy (JStr s) = true) as Hs.
  { simpl. destruct (String.eqb_spec s ""); done. }
  exists (set_store (delete s) st).
  assert (logged (sessionTokenStore (set_store (delete s) st)) (Some s) = false) as Hl.
  { cbn [sessionTokenStore set_store]. unfold logged, store_get.
    by rewrite lookup_delete_eq, Hp, andb_false_r. }
  split; [by cbn [handle]; unfold logout; rewrite Hs|].
  split; [intros res'; cbn [handle]; unfold me; by rewrite Hl|].
  split; [intros; by apply buy_not_logged|].
  split; [|done]. intros s' Hs'. simpl. by rewrite lookup_delete_ne.
Qed.

Lemma logout_revokes_witness :
  ∃ st',
    handle ready_S1 (PostLogout 5 (Some "S1"))
    = Some (st', [HttpReply 5 200 (JObj [("ok", JBool true)])])
    ∧ (∀ res', handle st' (GetMe res' (Some "S1"))
               = Some (st', [HttpReply res' 401 (JObj [("authorized", JBool false)])]))
    ∧ (∀ res' symbol stake now fault,
         handle st' (PostBuy res' (Some "S1") symbol stake now fault)
         = Some (st', [HttpReply res' 401 (fail_body (JStr "not logged"))]))
    ∧ (∀ s', s' ≠ "S1" → sessionTokenStore st' !! s' = sessionTokenStore ready_S1 !! s')
    ∧ conns st' = conns ready_S1 ∧ clientMeta st' = clientMeta ready_S1.
Proof. apply (logout_revokes ready_S1 5 "S1"); by vm_compute. Defined.

(** X3.  The token of a connection is the one read when it arrived: a
    [/logout] between the arrival and the opening of the upstream socket does
    not keep the bridge from writing the authorize request with it. *)
Theorem logout_after_connection (st : State) (res : nat) (s : string) (tok : jsval) :
  s ≠ "" → sessionTokenStore st !! s = Some tok → truthy tok = true →
  (run st [Connection (Some s); PostLogout res (Some s);
           DerivOpen (length (conns st)) None]).2
  = [HttpReply res 200 (JObj [("ok", JBool true)]);
     UpstreamSend (length (conns st)) (wire (authorize_request tok))].
Proof.
  intros Hne Hs Ht. assert (truthy (JStr s) = true) as Hu.
  { simpl. destruct (String.eqb_spec s ""); done. }
  assert (token_of (sessionTokenStore st) (Some s) = tok) as Htok
    by (unfold token_of, store_get; by rewrite Hu, Hs).
  rewrite run_cons. cbn [handle]. unfold connection. cbn [fst snd app].
  rewrite Htok, run_cons. cbn [handle]. unfold logout. rewrite Hu.
  unfold reply. cbn [fst snd]. rewrite run_cons. cbn [handle].
  unfold deriv_open. cbn [conns set_store].
  rewrite list_lookup_middle by done. cbn [token]. by rewrite Ht.
Qed.

Lemma logout_after_connection_witness :
  (run ready_S1 [Connection (Some "S1"); PostLogout 5 (Some "S1"); DerivOpen 1 None]).2
  = [HttpReply 5 200 (JObj [("ok", JBool true)]);
     UpstreamSend 1 (authorize_request (JStr "abc"))].
Proof.
  apply (logout_after_connection ready_S1 5 "S1" (JStr "abc")); by vm_compute.
Defined.

(** X4.  [/me] for a known session none of whose registered connections has
    account info answers [{ authorized: true, account: null }]; it changes
    nothing. *)
Theorem me_without_account (st : State) (res : nat) (s : string) :
  logged (sessionTokenStore st) (Some s) = true →
  (∀ c cn, c ∈ clientMeta st → conns st !! c = Some cn →
           same_session s (meta cn) = true → truthy (accountInfo (meta cn)) = false) →
  handle st (GetMe res (Some s))
  = Some (st, [HttpReply res 200 (JObj [("authorized", JBool true); ("account", JNull)])]).
Proof.
  intros Hl Hnone. simpl. unfold me. rewrite Hl. simpl.
  rewrite find_meta_none; [done|]. intros c cn Hin Hc. unfold has_account.
  destruct (same_session s (meta cn)) eqn:Hs; [|done]. by rewrite (Hnone c cn).
Qed.

Lemma me_without_account_witness :
  handle authorizing_S1 (GetMe 5 (Some "S1"))
  = Some (authorizing_S1,
          [HttpReply 5 200 (JObj [("authorized", JBool true); ("account", JNull)])]).
Proof.
  apply (me_without_account authorizing_S1 5 "S1"); [by vm_compute|].
  intros c cn Hin Hc _. vm_compute in Hin.
  apply elem_of_cons in Hin as [->|Hin]; [|by apply elem_of_nil in Hin].
  vm_compute in Hc. by injection Hc as <-.
Defined.

End Sessions.

(** ** The upgrade handler *)

Section Upgrade.

Local Open Scope string_scope.

Lemma append_cons (a : ascii) (x y : string) : String a x ++ y = String a (x ++ y).
Proof. done. Qed.

Lemma append_nil (y : string) : "" ++ y = y.
Proof. done. Qed.

Lemma drop_prefix_append (p s : string) : drop_prefix p (p ++ s) = Some s.
Proof.
  induction p as [|a p IH]; [done|].
  rewrite append_cons. cbn [drop_prefix]. by rewrite Ascii.eqb_refl.
Qed.

Lemma drop_prefix_Some (p s r : string) : drop_prefix p s = Some r → s = p ++ r.
Proof.
  revert s. induction p as [|a p IH]; intros s; cbn [drop_prefix]; [by intros [= ->]|].
  destruct s as [|b s]; [done|]. destruct (Ascii.eqb_spec a b) as [->|]; [|done].
  intros H. by rewrite (IH s H).
Qed.

Lemma prefix_append (p s : string) : String.prefix p (p ++ s) = true.
Proof.
  induction p as [|a p IH]; [by destruct s|].
  rewrite append_cons. cbn [String.prefix]. by destruct (Ascii.ascii_dec a a).
Qed.

(** What [[^;]*] leaves behind is empty or starts with the semicolon. *)
Lemma until_semicolon_split (s : string) :
  ∃ post, s = until_semicolon s ++ post
          ∧ (post = "" ∨ ∃ w, post = String ";" w).
Proof.
  induction s as [|a s (post & IH & Hpost)]; cbn [until_semicolon];
    [by exists ""; auto|].
  destruct (Ascii.eqb_spec a ";") as [->|Hne].
  - exists (String ";" s). eauto.
  - exists post. rewrite append_cons. by rewrite <- IH.
Qed.

Lemma until_semicolon_free (s u w : string) :
  until_semicolon s ≠ u ++ String ";" w.
Proof.
  revert u. induction s as [|a s IH]; intros u; cbn [until_semicolon];
    [by destruct u|].
  destruct (Ascii.eqb_spec a ";") as [->|Hne]; [by destruct u|].
  destruct u as [|b u]; [rewrite append_nil; congruence|].
  rewrite append_cons. intros [= -> H]. by apply IH in H.
Qed.

(** A value without a semicolon is matched whole, up to the end of the header
    or the next semicolon. *)
Lemma until_semicolon_value (v post : string) :
  (∀ u w, v ≠ u ++ String ";" w) →
  post = "" ∨ (∃ w, post = String ";" w) →
  until_semicolon (v ++ post) = v.
Proof.
  intros Hv Hpost. induction v as [|a v IH].
  - rewrite append_nil. destruct Hpost as [->|[w ->]]; [done|].
    cbn [until_semicolon]. by rewrite Ascii.eqb_refl.
  - rewrite append_cons. cbn [until_semicolon].
    destruct (Ascii.eqb_spec a ";") as [->|Hne]; [by destruct (Hv "" v)|].
    rewrite IH; [done|]. intros u w ->. by apply (Hv (String a u) w).
Qed.

Lemma session_cookie_here_Some (s v : string) :
  session_cookie_here s = Some v →
  v ≠ "" ∧ (∀ u w, v ≠ u ++ String ";" w)
  ∧ ∃ post, s = "SESSION_ID=" ++ v ++ post
            ∧ (post = "" ∨ ∃ w, post = String ";" w).
Proof.
  unfold session_cookie_here.
  destruct (drop_prefix "SESSION_ID=" s) as [rest|] eqn:Hd; [|done].
  apply drop_prefix_Some in Hd.
  destruct (until_semicolon_split rest) as (post & Hrest & Hpost).
  destruct (until_semicolon rest) as [|a v'] eqn:Hu; [done|]. intros [= <-].
  split; [done|]. split; [intros u w; rewrite <- Hu; apply until_semicolon_free|].
  exists post. split; [|done]. by rewrite Hd, Hrest.
Qed.

Lemma session_cookie_step (s : string) (v : string) :
  session_cookie_here s = Some v → session_cookie s = Some v.
Proof. intros H. destruct s; cbn [session_cookie]; by rewrite H. Qed.

(** X5.  The session id the upgrade handler takes from a cookie header is
    never empty and holds no semicolon; it stands in the header right after
    [SESSION_ID=] and runs to the end of the header or to the next
    semicolon. *)
Theorem session_cookie_sound (cookies v : string) :
  session_cookie cookies = Some v →
  v ≠ "" ∧ (∀ u w, v ≠ u ++ String ";" w)
  ∧ ∃ pre post, cookies = pre ++ "SESSION_ID=" ++ v ++ post
                ∧ (post = "" ∨ ∃ w, post = String ";" w).
Proof.
  induction cookies as [|a rest IH]; cbn [session_cookie].
  - destruct (session_cookie_here "") eqn:H; [|done]. intros [= <-].
    destruct (session_cookie_here_Some _ _ H) as (? & ? & post & ? & ?).
    split; [done|]. split; [done|]. by exists "", post.
  - destruct (session_cookie_here (String a rest)) eqn:H.
    + intros [= <-].
      destruct (session_cookie_here_Some _ _ H) as (? & ? & post & ? & ?).
      split; [done|]. split; [done|]. by exists "", post.
    + intros Hr. destruct (IH Hr) as (? & ? & pre & post & -> & ?).
      split; [done|]. split; [done|]. by exists (String a pre), post.
Qed.

Lemma session_cookie_sound_witness :
  "S1" ≠ "" ∧ (∀ u w, "S1" ≠ u ++ String ";" w)
  ∧ ∃ pre post, "theme=dark; SESSION_ID=S1; lang=pt" = pre ++ "SESSION_ID=" ++ "S1" ++ post
                ∧ (post = "" ∨ ∃ w, post = String ";" w).
Proof.
  apply (session_cookie_sound "theme=dark; SESSION_ID=S1; lang=pt" "S1").
  by vm_compute.
Defined.

(** X6.  A header that holds [SESSION_ID=] followed by a character other
    than the semicolon, at any place, gives a session id; a header that
    starts with the pair gives its value. *)
Theorem session_cookie_complete (pre post : string) (a : ascii) (v : string) :
  (a ≠ ";"%char → is_Some (session_cookie (pre ++ "SESSION_ID=" ++ String a post)))
  ∧ (v ≠ "" → (∀ u w, v ≠ u ++ String ";" w) →
     post = "" ∨ (∃ w, post = String ";" w) →
     session_cookie ("SESSION_ID=" ++ v ++ post) = Some v).
Proof.
  split.
  - intros Ha.
    assert (is_Some (session_cookie_here ("SESSION_ID=" ++ String a post))) as [x Hx].
    { unfold session_cookie_here. rewrite drop_prefix_append. cbn [until_semicolon].
      destruct (Ascii.eqb_spec a ";"); [done|]. eauto. }
    induction pre as [|b pre IH].
    + rewrite append_nil. exists x. by apply session_cookie_step.
    + rewrite append_cons. cbn [session_cookie].
      destruct (session_cookie_here (String b _)); [eauto|exact IH].
  - intros Hv Hfree Hpost. apply session_cookie_step.
    unfold session_cookie_here. rewrite drop_prefix_append.
    rewrite until_semicolon_value by done. by destruct v.
Qed.

Lemma no_semicolon_S1 (u w : string) : "S1" ≠ u ++ String ";" w.
Proof.
  destruct u as [|? [|? [|? u]]]; rewrite ?append_cons, ?append_nil; done.
Qed.

Lemma session_cookie_complete_witness :
  is_Some (session_cookie ("theme=dark; " ++ "SESSION_ID=" ++ String "S" "1; lang=pt"))
  ∧ session_cookie ("SESSION_ID=" ++ "S1" ++ "; lang=pt") = Some "S1".
Proof.
  destruct (session_cookie_complete "theme=dark; " "1; lang=pt" "S" "S1") as [H1 _].
  destruct (session_cookie_complete "" "; lang=pt" "S" "S1") as [_ H2].
  split; [by apply H1|].
  apply H2; [done|apply no_semicolon_S1|by right; eexists].
Defined.

End Upgrade.

(** ** What every reachable state satisfies *)

Section Reachable.

Lemma pending_set_keys (k : Z) (res : nat) (p : list (Z * nat)) (x : Z) :
  x ∈ (pending_set k res p).*1 → x = k ∨ x ∈ p.*1.
Proof.
  induction p as [|[k' r] p IH]; simpl.
  - intros [->|[]%elem_of_nil]%elem_of_cons. by left.
  - destruct (Z.eqb_spec k' k) as [->|Hne]; simpl.
    + intros [->|H]%elem_of_cons; [by left|]. right. by right.
    + intros [->|H]%elem_of_cons; [right; by left|].
      destruct (IH H); [by left|]. right. by right.
Qed.

Lemma pending_set_NoDup (k : Z) (res : nat) (p : list (Z * nat)) :
  NoDup p.*1 → NoDup (pending_set k res p).*1.
Proof.
  induction p as [|[k' r] p IH]; simpl.
  - intros _. apply NoDup_singleton.
  - intros [Hk' Hnd]%NoDup_cons. destruct (Z.eqb_spec k' k) as [->|Hne]; simpl.
    + by apply NoDup_cons.
    + apply NoDup_cons. split; [|by apply IH].
      intros [->|H]%pending_set_keys; done.
Qed.

Lemma pending_delete_NoDup (k : Z) (p : list (Z * nat)) :
  NoDup p.*1 → NoDup (pending_delete k p).*1.
Proof.
  intros H. apply (sublist_NoDup _ p.*1); [exact H|].
  apply fmap_sublist, sublist_filter.
Qed.

Lemma meta_ok_with_derivWs (s : ReadyState) (m : Meta) :
  meta_ok m → meta_ok (with_derivWs (Some s) m).
Proof. intros (? & ? & ?). by repeat split. Qed.

Lemma meta_ok_with_subscribed (l : list jsval) (m : Meta) :
  meta_ok m → meta_ok (with_subscribed l m).
Proof. intros (? & ? & ?). by repeat split. Qed.

Lemma meta_ok_with_pending (p : list (Z * nat)) (m : Meta) :
  meta_ok m → NoDup p.*1 → meta_ok (with_pending p m).
Proof. intros (? & ? & ?) ?. by repeat split. Qed.

Lemma meta_ok_with_account (fields : list (string * jsval)) (m : Meta) :
  meta_ok m → meta_ok (with_account (JObj fields) m).
Proof. intros (? & ? & ?). by repeat split. Qed.

Lemma consistent_set_meta (st : State) (c : nat) (m : Meta) :
  consistent st → meta_ok m → consistent (set_meta c m st).
Proof.
  intros (Hnd & Hlt & Hmeta & Hstore) Hm. split; [done|]. split.
  { intros c' Hc'. simpl. rewrite length_alter. by apply Hlt. }
  split; [|done]. intros c' cn' H. simpl in H.
  destruct (decide (c = c')) as [->|Hne].
  - rewrite list_lookup_alter_eq in H.
    destruct (conns st !! c'); simpl in H; simplify_eq. exact Hm.
  - rewrite list_lookup_alter_ne in H by done. by apply (Hmeta c' cn').
Qed.

Lemma consistent_store (st : State) (f : gmap string jsval → gmap string jsval) :
  consistent st →
  (∀ s v, f (sessionTokenStore st) !! s = Some v → truthy v = true) →
  consistent (set_store f st).
Proof.
  intros (Hnd & Hlt & Hmeta & Hstore) Hf.
  split; [done|]. split; [done|]. split; [done|]. exact Hf.
Qed.

Lemma consistent_unregister (st : State) (c : nat) :
  consistent st →
  consistent {| sessionTokenStore := sessionTokenStore st; conns := conns st;
                clientMeta := filter (λ k, k ≠ c) (clientMeta st) |}.
Proof.
  intros (Hnd & Hlt & Hmeta & Hstore). split; [by apply NoDup_filter|].
  split; [|done]. intros c' [_ Hc']%list_elem_of_filter. by apply Hlt.
Qed.

(** The handlers keep the stores consistent. *)
Lemma consistent_step (st st' : State) (ev : Event) (out : list Effect) :
  consistent st → handle st ev = Some (st', out) → consistent st'.
Proof.
  intros Hst H. pose proof Hst as (Hnd & Hlt & Hmeta & Hstore).
  destruct ev as [res tok uuid|res sid|res sid|res sid symbol stake now fault
                 |sid|c fault|c data|c|c raw fault|c]; simpl in H.
  - unfold store_token, reply in H.
    destruct (truthy tok) eqn:Ht; simpl in H; simplify_eq; [|done].
    apply consistent_store; [done|]. intros s v.
    destruct (decide (uuid = s)) as [->|Hne].
    + rewrite lookup_insert_eq. by intros [= <-].
    + rewrite lookup_insert_ne by done. apply Hstore.
  - unfold me, reply in H. repeat case_match; by simplify_eq.
  - unfold logout, reply in H. repeat case_match; simplify_eq; try done.
    apply consistent_store; [done|]. intros s' v Hs'.
    apply lookup_delete_Some in Hs' as [_ Hs']. by eapply Hstore.
  - unfold buy, reply in H.
    destruct (negb (logged (sessionTokenStore st) sid)); [by simplify_eq|].
    destruct (negb (truthy symbol) || negb (truthy stake)); [by simplify_eq|].
    destruct (find_meta _ _ _) as [[c found]|] eqn:Hf; [|by simplify_eq].
    destruct (find_meta_some _ _ _ _ _ Hf) as (_ & _ & cn & Hc & <-).
    pose proof (Hmeta c cn Hc) as Hm.
    destruct fault; simplify_eq; apply consistent_set_meta; try done;
      apply meta_ok_with_pending; try done.
    + apply pending_delete_NoDup, pending_set_NoDup, Hm.
    + apply pending_set_NoDup, Hm.
  - unfold connection in H. simplify_eq. split; [|split; [|split; [|done]]]; simpl.
    + apply NoDup_app. split; [done|]. split; [|apply NoDup_singleton].
      intros c Hc ->%list_elem_of_singleton. apply Hlt in Hc. lia.
    + intros c [Hc| ->%list_elem_of_singleton]%elem_of_app;
        rewrite length_app; simpl; [apply Hlt in Hc|]; lia.
    + intros c cn [H|[_ H]]%lookup_app_Some; [by apply (Hmeta c cn)|].
      apply list_lookup_singleton_Some in H as [_ <-].
      split; [done|]. split; [done|]. apply NoDup_nil_2.
  - unfold deriv_open in H. destruct (conns st !! c) as [cn|] eqn:Hc; [|by simplify_eq].
    pose proof (meta_ok_with_derivWs OPEN _ (Hmeta c cn Hc)).
    repeat case_match; simplify_eq; by apply consistent_set_meta.
  - unfold deriv_message, on_authorize, on_tick, on_buy_result in H.
    destruct (conns st !! c) as [cn|] eqn:Hc; [|by simplify_eq].
    pose proof (Hmeta c cn Hc) as Hm.
    repeat (case_match; simplify_option_eq); try done;
      apply consistent_set_meta; try done.
    + by apply meta_ok_with_account.
    + apply meta_ok_with_pending; [done|apply NoDup_nil_2].
  - unfold deriv_close in H. destruct (conns st !! c) as [cn|] eqn:Hc; [|by simplify_eq].
    simplify_eq. apply consistent_set_meta; [done|].
    by apply meta_ok_with_derivWs, (Hmeta c cn).
  - unfold client_message, client_try in H.
    destruct (conns st !! c) as [cn|] eqn:Hc; [|by simplify_eq].
    repeat (case_match; simplify_option_eq); try done;
      apply consistent_set_meta; try done;
      by apply meta_ok_with_subscribed, (Hmeta c cn).
  - unfold client_close in H. destruct (conns st !! c) as [cn|] eqn:Hc; [|by simplify_eq].
    destruct (derivWs (meta cn)) as [rs|]; simplify_eq.
    + apply consistent_unregister, consistent_set_meta; [done|].
      by apply meta_ok_with_derivWs, (Hmeta c cn).
    + by apply consistent_unregister.
Qed.

Lemma consistent_initial : consistent initial.
Proof.
  split; [apply NoDup_nil_2|]. split; [by intros c ?%elem_of_nil|].
  split; [by intros c cn ?|]. by intros s v ?.
Qed.

Lemma consistent_run (evs : list Event) :
  ∀ st : State, consistent st → consistent (run st evs).1.
Proof.
  induction evs as [|ev evs IH]; intros st Hst; [done|].
  rewrite run_cons. destruct (handle st ev) as [[st' out]|] eqn:Hev; [|done].
  simpl. apply IH. by eapply consistent_step.
Qed.

(** X7.  In every state that events can lead to from the start: the keys of
    [clientMeta] are distinct and name accepted connections; every connection
    has its upstream socket; [authorized] is set exactly when account info is
    stored; [pendingRequests] has one resolver per key; every stored token is
    truthy. *)
Theorem reachable_consistent (evs : list Event) :
  consistent (run initial evs).1.
Proof. apply consistent_run, consistent_initial. Qed.

Lemma find_meta_ext (test1 test2 : Meta → bool) (cs : list Conn) (keys : list nat) :
  (∀ c cn, cs !! c = Some cn → test1 (meta cn) = test2 (meta cn)) →
  find_meta test1 cs keys = find_meta test2 cs keys.
Proof.
  intros H. induction keys as [|k keys IH]; simpl; [done|].
  destruct (cs !! k) as [cn|] eqn:Hk; [|done]. by rewrite (H k cn Hk), IH.
Qed.

(** X8.  In every reachable state [/me] and [/api/buy] look at the same
    connection: the first registered one that [/me] reports an account for
    is the one a trade of that session is sent on, and [/me] reports no
    account exactly when a trade is refused as not ready. *)
Theorem me_and_buy_agree (evs : list Event) (s : string) :
  find_meta (has_account s) (conns (run initial evs).1) (clientMeta (run initial evs).1)
  = find_meta (buy_ready s) (conns (run initial evs).1) (clientMeta (run initial evs).1).
Proof.
  apply find_meta_ext. intros c cn Hc.
  destruct (consistent_run evs initial consistent_initial) as (_ & _ & Hmeta & _).
  destruct (Hmeta c cn Hc) as (Hws & Hauth & _).
  unfold has_account, buy_ready. rewrite Hauth.
  destruct (derivWs (meta cn)); [|done]. by rewrite andb_true_r.
Qed.

Lemma filter_absent (c : nat) (l : list nat) :
  c ∉ l → filter (λ k, k ≠ c) l = l.
Proof.
  induction l as [|x l IH]; [done|]. intros [Hx Hl]%not_elem_of_cons.
  rewrite filter_cons_True by done. by rewrite IH.
Qed.

Lemma connect_disconnect_round (st : State) (sid : option string) :
  (∀ c, c ∈ clientMeta st → c < length (conns st)) →
  ∃ st1 st2,
    handle st (Connection sid) = Some (st1, [])
    ∧ handle st1 (ClientClose (length (conns st)))
      = Some (st2, [UpstreamClose (length (conns st))])
    ∧ clientMeta st2 = clientMeta st
    ∧ sessionTokenStore st2 = sessionTokenStore st
    ∧ length (conns st2) = S (length (conns st)).
Proof.
  intros Hlt. eexists _, _. split; [done|]. split.
  { cbn [handle]. unfold client_close. cbn [conns].
    rewrite list_lookup_middle by done. done. }
  cbn [clientMeta set_meta sessionTokenStore conns].
  split; [|split; [done|]].
  - rewrite filter_app, filter_absent, filter_cons_False, filter_nil, app_nil_r.
    + done.
    + by intros ?.
    + intros Hin%Hlt. lia.
  - rewrite length_alter, length_app. simpl. lia.
Qed.

Lemma connect_disconnect_run (sid : option string) (n : nat) :
  ∀ st : State,
    (∀ c, c ∈ clientMeta st → c < length (conns st)) →
    clientMeta (run st (connect_disconnect sid (length (conns st)) n)).1 = clientMeta st
    ∧ sessionTokenStore (run st (connect_disconnect sid (length (conns st)) n)).1
      = sessionTokenStore st
    ∧ length (conns (run st (connect_disconnect sid (length (conns st)) n)).1)
      = length (conns st) + n
    ∧ (run st (connect_disconnect sid (length (conns st)) n)).2
      = map UpstreamClose (seq (length (conns st)) n).
Proof.
  induction n as [|n IH]; intros st Hlt.
  - simpl. by rewrite Nat.add_0_r.
  - destruct (connect_disconnect_round st sid Hlt)
      as (st1 & st2 & H1 & H2 & Hk & Hs & Hl).
    cbn [connect_disconnect]. rewrite run_cons, H1. cbn [fst snd app].
    rewrite run_cons, H2. cbn [fst snd app seq map].
    destruct (IH st2) as (E1 & E2 & E3 & E4).
    { intros c Hc. rewrite Hk in Hc. apply Hlt in Hc. lia. }
    rewrite Hl in E1, E2, E3, E4. rewrite E1, E2, E3, E4, Hk, Hs.
    split; [done|]. split; [done|]. split; [lia|done].
Qed.

(** X9.  From a reachable state, a client that connects and disconnects, any
    number of times, leaves the registry and the session store as they were;
    each round closes the upstream socket it opened, and only the closures of
    the gone connections remain. *)
Theorem connect_disconnect_leaves_registry (evs : list Event)
    (sid : option string) (n : nat) :
  let st := (run initial evs).1 in
  let rounds := connect_disconnect sid (length (conns st)) n in
  clientMeta (run st rounds).1 = clientMeta st
  ∧ sessionTokenStore (run st rounds).1 = sessionTokenStore st
  ∧ length (conns (run st rounds).1) = length (conns st) + n
  ∧ (run st rounds).2 = map UpstreamClose (seq (length (conns st)) n).
Proof.
  intros st rounds. apply connect_disconnect_run.
  by destruct (consistent_run evs initial consistent_initial) as (_ & Hlt & _).
Qed.

End Reachable.

(** ** Upstream messages: failures and messages without a handler *)

Section UpstreamEdges.

(** The buy / error branch, with the state it leaves. *)
Lemma deriv_buy_result (st : State) (c : nat) (cn : Conn) (msg : jsval) :
  conns st !! c = Some cn → buy_or_error_message msg = true →
  handle st (DerivMessage c (Some msg))
  = Some (set_meta c (with_pending [] (meta cn)) st,
          ClientSend c (wire (buy_result_event msg))
          :: map (λ e, HttpReply e.2 200 (wire (result_body msg)))
               (pendingRequests (meta cn))).
Proof.
  intros Hc Hmsg. unfold buy_or_error_message, reads in Hmsg.
  cbn [handle]. unfold deriv_message. rewrite Hc.
  destruct (get msg "authorize") as [a|] eqn:Ha.
  2:{ destruct msg; simpl in *; simplify_eq. }
  destruct (get_defined msg _ "tick" _ Ha) as [t Ht].
  destruct (get_defined msg _ "buy" _ Ha) as [b Hb].
  destruct (get_defined msg _ "error" _ Ha) as [e He].
  rewrite Ht, Hb, He in Hmsg. simpl.
  destruct (truthy a); [done|]. rewrite Ht. simpl.
  destruct (truthy t); [done|]. rewrite Hb, He. simpl in *.
  by rewrite Hmsg.
Qed.

(** X10.  An upstream authorize message that carries an error is reported to
    the client as [{ type: 'error', message }] with the message of the
    error; the state is as before: the connection stays registered and is
    not authorized by it. *)
Theorem authorize_failure (st : State) (c : nat) (cn : Conn) (msg a e : jsval) :
  conns st !! c = Some cn →
  get msg "authorize" = Some a → truthy a = true →
  get a "error" = Some e → truthy e = true →
  ∃ message,
    get e "message" = Some message
    ∧ handle st (DerivMessage c (Some msg))
      = Some (st, [ClientSend c (wire (error_event message))]).
Proof.
  intros Hc Ha Hta He Hte. destruct (truthy_defined e "message" Hte) as [m Hm].
  exists m. split; [done|]. cbn [handle]. unfold deriv_message.
  rewrite Hc, Ha. simpl. rewrite Hta. unfold on_authorize. rewrite He. simpl.
  by rewrite Hte, Hm.
Qed.

Lemma authorize_failure_witness :
  ∃ message,
    get (JObj [("message", JStr "InvalidToken")]) "message" = Some message
    ∧ handle authorizing_S1
        (DerivMessage 0 (Some (JObj [("authorize",
           JObj [("error", JObj [("message", JStr "InvalidToken")])])])))
      = Some (authorizing_S1, [ClientSend 0 (wire (error_event message))]).
Proof.
  eapply (authorize_failure authorizing_S1 0 _ _
            (JObj [("error", JObj [("message", JStr "InvalidToken")])])
            (JObj [("message", JStr "InvalidToken")])); by vm_compute.
Defined.

(** X11.  A frame that [JSON.parse] refuses, and a parsed message, other
    than [null], that carries none of [authorize], [tick], [buy], [error]
    with a truthy value, are dropped by the extended proxy: no effect, no
    change.  The simple proxy drops every frame that has no truthy [tick],
    [null] included. *)
Theorem upstream_message_dropped (c : nat) (data : option jsval) :
  match data with
  | None => True
  | Some msg =>
      reads msg "authorize" = false ∧ reads msg "tick" = false
      ∧ reads msg "buy" = false ∧ reads msg "error" = false
  end →
  (∀ st : State,
     match data with Some JNull | Some JUndef => False | _ => True end →
     handle st (DerivMessage c data) = Some (st, []))
  ∧ (∀ st : SimpleProxy.State,
       SimpleProxy.handle st (SimpleProxy.DerivMessage c data) = Some (st, [])).
Proof.
  intros Hd. split.
  - intros st Hnn. cbn [handle]. unfold deriv_message.
    destruct (conns st !! c); [|done]. destruct data as [msg|]; [|done].
    destruct Hd as (Ha & Ht & Hb & He). unfold reads in *.
    destruct (get msg "authorize") as [a|] eqn:Ea; [|by destruct msg].
    destruct (get_defined msg _ "tick" _ Ea) as [t Et].
    destruct (get_defined msg _ "buy" _ Ea) as [b Eb].
    destruct (get_defined msg _ "error" _ Ea) as [e Ee].
    rewrite Et in Ht. rewrite Eb in Hb. rewrite Ee in He. simpl.
    rewrite Ha, Et. simpl. rewrite Ht, Eb, Ee. simpl. by rewrite Hb, He.
  - intros st. cbn [SimpleProxy.handle].
    unfold SimpleProxy.deriv_message, SimpleProxy.deriv_try.
    destruct (SimpleProxy.conns st !! c); [|done]. destruct data as [msg|]; [|done].
    destruct Hd as (_ & Ht & _). unfold reads in Ht. simpl.
    destruct (get msg "tick") as [t|]; [|done]. simpl. by rewrite Ht.
Qed.

Lemma upstream_message_dropped_witness :
  handle ready_S1 (DerivMessage 0 (Some (JObj [("ping", JStr "pong")])))
  = Some (ready_S1, [])
  ∧ SimpleProxy.handle simple_S1 (SimpleProxy.DerivMessage 0 (Some JNull))
    = Some (simple_S1, []).
Proof.
  split.
  - apply (upstream_message_dropped 0 (Some (JObj [("ping", JStr "pong")]))); by vm_compute.
  - apply (upstream_message_dropped 0 (Some JNull)). by vm_compute.
Defined.

(** X12.  The extended proxy lets an exception escape in exactly two
    places: when the write of the authorize request throws in the handler of
    the opening, and when the upstream sends the JSON text [null], whose
    property [authorize] cannot be read.  Every other event is handled. *)
Theorem uncaught_exceptions (st : State) (ev : Event) :
  handle st ev = None ↔
  (∃ c cn message, ev = DerivOpen c (Some message) ∧ conns st !! c = Some cn
                   ∧ truthy (token cn) = true)
  ∨ (∃ c msg, ev = DerivMessage c (Some msg) ∧ is_Some (conns st !! c)
              ∧ (msg = JNull ∨ msg = JUndef)).
Proof.
  split.
  - destruct ev as [res tok uuid|res sid|res sid|res sid symbol stake now fault
                   |sid|c fault|c data|c|c raw fault|c]; cbn [handle].
    + unfold store_token, reply. by case_match.
    + unfold me, reply. by repeat case_match.
    + unfold logout, reply. by repeat case_match.
    + unfold buy, reply. by repeat case_match.
    + done.
    + unfold deriv_open. destruct (conns st !! c) as [cn|] eqn:Hc; [|done].
      destruct (truthy (token cn)) eqn:Ht; [|done]. destruct fault as [m|]; [|done].
      intros _. left. by exists c, cn, m.
    + unfold deriv_message. destruct (conns st !! c) as [cn|] eqn:Hc; [|done].
      destruct data as [msg|]; [|done].
      destruct (get msg "authorize") as [a|] eqn:Ha.
      2:{ intros _. right. exists c, msg. split; [done|]. split; [by eauto|].
          destruct msg; simpl in Ha; try done; auto. }
      destruct (get_defined msg _ "tick" _ Ha) as [t Ht].
      destruct (get_defined msg _ "buy" _ Ha) as [b Hb].
      destruct (get_defined msg _ "error" _ Ha) as [e He]. simpl.
      destruct (truthy a) eqn:Hta.
      * unfold on_authorize.
        destruct (truthy_defined a "error" Hta) as [x ->].
        destruct (truthy_defined a "loginid" Hta) as [l ->].
        destruct (truthy_defined a "currency" Hta) as [cu ->].
        destruct (truthy_defined a "balance" Hta) as [ba ->]. simpl.
        destruct (truthy x) eqn:Hx; [|done].
        by destruct (truthy_defined x "message" Hx) as [m ->].
      * rewrite Ht. simpl. destruct (truthy t) eqn:Htt.
        -- unfold on_tick.
           destruct (truthy_defined t "symbol" Htt) as [x1 ->].
           destruct (truthy_defined t "quote" Htt) as [x2 ->].
           by destruct (truthy_defined t "epoch" Htt) as [x3 ->].
        -- rewrite Hb, He. simpl. by destruct (truthy b || truthy e).
    + unfold deriv_close. by case_match.
    + unfold client_message. destruct (conns st !! c); [|done]. by case_match.
    + unfold client_close. by repeat case_match.
  - intros [(c & cn & m & -> & Hc & Ht)|(c & msg & -> & [cn Hc] & Hmsg)]; cbn [handle].
    + unfold deriv_open. by rewrite Hc, Ht.
    + unfold deriv_message. rewrite Hc. by destruct Hmsg as [-> | ->].
Qed.

(** X13.  The simple proxy lets an exception escape only when the write of
    the authorize request throws in the handler of the opening; every frame
    from the upstream and from the client is handled inside [try]. *)
Theorem simple_uncaught_exceptions (st : SimpleProxy.State) (ev : SimpleProxy.Event) :
  SimpleProxy.handle st ev = None ↔
  ∃ c cn message, ev = SimpleProxy.DerivOpen c (Some message)
                  ∧ SimpleProxy.conns st !! c = Some cn
                  ∧ truthy (SimpleProxy.token cn) = true.
Proof.
  split.
  - destruct ev as [res tok uuid|sid|c fault|c data|c|c raw fault|c];
      cbn [SimpleProxy.handle].
    + unfold SimpleProxy.store_token. by case_match.
    + done.
    + unfold SimpleProxy.deriv_open.
      destruct (SimpleProxy.conns st !! c) as [cn|] eqn:Hc; [|done].
      destruct (truthy (SimpleProxy.token cn)) eqn:Ht; [|done].
      destruct fault as [m|]; [|done]. intros _. by exists c, cn, m.
    + unfold SimpleProxy.deriv_message. by repeat case_match.
    + unfold SimpleProxy.deriv_close. by case_match.
    + unfold SimpleProxy.client_message. by repeat case_match.
    + unfold SimpleProxy.client_close. by repeat case_match.
  - intros (c & cn & m & -> & Hc & Ht). cbn [SimpleProxy.handle].
    unfold SimpleProxy.deriv_open. by rewrite Hc, Ht.
Qed.

End UpstreamEdges.

(** ** Client messages and disconnects *)

Section ClientEdges.

Lemma is_str_eq (v : jsval) (s : string) : is_str v s = true → v = JStr s.
Proof. destruct v; simpl; try done. by intros ->%String.eqb_eq. Qed.

(** X14.  The extended proxy acts on a client frame only if it parses to a
    message of type [subscribe] with a truthy symbol while the upstream
    socket is open.  Any other frame (unparsable, [null], another type, no
    symbol) and any frame that arrives while the upstream socket is
    connecting, closing or closed is dropped: nothing is written, nothing is
    answered, nothing changes. *)
Theorem client_message_dropped (st : State) (c : nat) (raw : option jsval)
    (fault : option string) :
  (∀ cn msg symbol,
     conns st !! c = Some cn → raw = Some msg →
     client_command "subscribe" symbol msg → is_open (derivWs (meta cn)) = false) →
  handle st (ClientMessage c raw fault) = Some (st, []).
Proof.
  intros Hnot. cbn [handle]. unfold client_message, client_try.
  destruct (conns st !! c) as [cn|] eqn:Hc; [|done].
  destruct raw as [msg|]; [|done]. simpl.
  destruct (get msg "type") as [ty|] eqn:Hty; [|done]. simpl.
  destruct (get msg "symbol") as [sy|] eqn:Hsy; [|done]. simpl.
  destruct (is_str ty "subscribe") eqn:Hs; [|done].
  destruct (truthy sy) eqn:Ht; [|done]. simpl.
  apply is_str_eq in Hs as ->.
  by rewrite (Hnot cn msg sy eq_refl eq_refl (conj Hty (conj Hsy Ht))).
Qed.

Lemma client_message_dropped_witness :
  handle closed_S1 (ClientMessage 0 (Some subscribe_R100) None) = Some (closed_S1, []).
Proof.
  apply (client_message_dropped closed_S1 0 (Some subscribe_R100) None).
  intros cn msg symbol Hc _ _. vm_compute in Hc. by injection Hc as <-.
Defined.

(** X15.  When the write of the ticks request throws, the client gets no
    answer from either proxy.  The extended proxy has added the symbol to
    [subscribed] before the write and keeps it there; the simple proxy, which
    writes first, has changed nothing. *)
Theorem subscribe_write_failure (c : nat) (symbol msg : jsval) (message : string) :
  client_command "subscribe" symbol msg →
  (∀ (st : State) (cn : Conn),
     conns st !! c = Some cn → is_open (derivWs (meta cn)) = true →
     handle st (ClientMessage c (Some msg) (Some message))
     = Some (set_meta c (with_subscribed (Set_add symbol (subscribed (meta cn))) (meta cn)) st,
             []))
  ∧ (∀ st : SimpleProxy.State,
       SimpleProxy.handle st (SimpleProxy.ClientMessage c (Some msg) (Some message))
       = Some (st, [])).
Proof.
  intros (Hty & Hsy & Ht). split.
  - intros st cn Hc Hopen. cbn [handle]. unfold client_message, client_try.
    rewrite Hc. simpl. rewrite Hty, Hsy. simpl. by rewrite Ht, Hopen.
  - intros st. cbn [SimpleProxy.handle]. unfold SimpleProxy.client_message.
    destruct (SimpleProxy.conns st !! c); [|done]. rewrite Hty, Hsy. simpl.
    by rewrite Ht.
Qed.

Lemma subscribe_write_failure_witness :
  handle ready_S1 (ClientMessage 0 (Some subscribe_R100) (Some "write EPIPE"))
  = Some (set_meta 0 (with_subscribed (Set_add (JStr "R_100") (subscribed (meta_S1 OPEN [])))
                        (meta_S1 OPEN [])) ready_S1, [])
  ∧ SimpleProxy.handle simple_S1
      (SimpleProxy.ClientMessage 0 (Some subscribe_R100) (Some "write EPIPE"))
    = Some (simple_S1, []).
Proof.
  assert (Hcmd : client_command "subscribe" (JStr "R_100") subscribe_R100)
    by (by vm_compute).
  destruct (subscribe_write_failure 0 (JStr "R_100") subscribe_R100 "write EPIPE" Hcmd)
    as [Hproxy Hsimple].
  split; [|apply Hsimple].
  apply (Hproxy ready_S1 (conn_S1 OPEN [])); by vm_compute.
Defined.

Lemma Set_add_idem (s : string) (l : list jsval) :
  Set_add (JStr s) (Set_add (JStr s) l) = Set_add (JStr s) l.
Proof.
  unfold Set_add at 1. fold (Set_has (JStr s) (Set_add (JStr s) l)).
  by rewrite Set_add_has.
Qed.

(** X16.  Subscribing to the same symbol again writes the ticks request again
    but leaves [subscribed] as the first subscription made it: the set holds
    the symbol once. *)
Theorem resubscribe_keeps_set (st : State) (c : nat) (cn : Conn) (s : string) (msg : jsval) :
  json msg = true → client_command "subscribe" (JStr s) msg →
  conns st !! c = Some cn → is_open (derivWs (meta cn)) = true →
  ∃ st1 st2 m1 m2,
    handle st (ClientMessage c (Some msg) None)
    = Some (st1, [UpstreamSend c (ticks_request (JStr s));
                  ClientSend c (typed_symbol "subscribed" (JStr s))])
    ∧ handle st1 (ClientMessage c (Some msg) None)
      = Some (st2, [UpstreamSend c (ticks_request (JStr s));
                    ClientSend c (typed_symbol "subscribed" (JStr s))])
    ∧ meta_of st1 c = Some m1 ∧ meta_of st2 c = Some m2
    ∧ subscribed m2 = subscribed m1
    ∧ (Set_has (JStr s) (subscribed (meta cn)) = false →
       subscribed m2 = subscribed (meta cn) ++ [JStr s]).
Proof.
  intros Hj Hcmd Hc Hopen.
  set (m1 := with_subscribed (Set_add (JStr s) (subscribed (meta cn))) (meta cn)).
  set (st1 := set_meta c m1 st).
  assert (conns st1 !! c = Some {| token := token cn; meta := m1 |}) as Hc1
    by by apply conns_set_meta.
  exists st1, (set_meta c (with_subscribed (Set_add (JStr s) (subscribed m1)) m1) st1),
    m1, (with_subscribed (Set_add (JStr s) (subscribed m1)) m1).
  split; [by apply (proxy_subscribe st c cn)|].
  split; [by apply (proxy_subscribe st1 c _ (JStr s) msg Hj Hcmd Hc1)|].
  split; [by eapply meta_of_set_meta|]. split; [by eapply meta_of_set_meta|].
  cbn [subscribed with_subscribed m1]. rewrite Set_add_idem. split; [done|].
  intros Hnew. unfold Set_add. unfold Set_has in Hnew. by rewrite Hnew.
Qed.

Lemma resubscribe_keeps_set_witness :
  ∃ st1 st2 m1 m2,
    handle ready_S1 (ClientMessage 0 (Some subscribe_R100) None)
    = Some (st1, [UpstreamSend 0 (ticks_request (JStr "R_100"));
                  ClientSend 0 (typed_symbol "subscribed" (JStr "R_100"))])
    ∧ handle st1 (ClientMessage 0 (Some subscribe_R100) None)
      = Some (st2, [UpstreamSend 0 (ticks_request (JStr "R_100"));
                    ClientSend 0 (typed_symbol "subscribed" (JStr "R_100"))])
    ∧ meta_of st1 0 = Some m1 ∧ meta_of st2 0 = Some m2
    ∧ subscribed m2 = subscribed m1
    ∧ (Set_has (JStr "R_100") (subscribed (meta (conn_S1 OPEN []))) = false →
       subscribed m2 = subscribed (meta (conn_S1 OPEN [])) ++ [JStr "R_100"]).
Proof.
  apply (resubscribe_keeps_set ready_S1 0 (conn_S1 OPEN []) "R_100" subscribe_R100);
    by vm_compute.
Defined.

(** X17.  When a client disconnects, its upstream socket is closed and its
    connection leaves the registry, so that neither [/me] nor [/api/buy] finds
    it again; the other registered connections keep their order.  No pending
    request of the connection is answered or dropped by the disconnect: the
    resolvers stay in its [meta], unanswered. *)
Theorem client_close_deregisters (st : State) (c : nat) (cn : Conn) (s : ReadyState) :
  conns st !! c = Some cn → derivWs (meta cn) = Some s →
  ∃ st',
    handle st (ClientClose c) = Some (st', [UpstreamClose c])
    ∧ clientMeta st' = filter (λ k, k ≠ c) (clientMeta st)
    ∧ (∀ test m, find_meta test (conns st') (clientMeta st') ≠ Some (c, m))
    ∧ (pendingRequests <$> meta_of st' c) = Some (pendingRequests (meta cn))
    ∧ (∀ c', c' ≠ c → conns st' !! c' = conns st !! c')
    ∧ sessionTokenStore st' = sessionTokenStore st.
Proof.
  intros Hc Hs. eexists. split.
  { cbn [handle]. unfold client_close. by rewrite Hc, Hs. }
  cbn [clientMeta conns sessionTokenStore]. split; [done|]. split.
  { intros test m Hf. apply find_meta_some in Hf as (Hin & _).
    by apply list_elem_of_filter in Hin as [Hne _]. }
  split; [|split; [|done]].
  - unfold meta_of. cbn [conns set_meta]. by rewrite list_lookup_alter_eq, Hc.
  - intros c' Hne. cbn [set_meta conns]. by rewrite list_lookup_alter_ne.
Qed.

Lemma client_close_deregisters_witness :
  ∃ st',
    handle two_pending (ClientClose 0) = Some (st', [UpstreamClose 0])
    ∧ clientMeta st' = filter (λ k, k ≠ 0) (clientMeta two_pending)
    ∧ (∀ test m, find_meta test (conns st') (clientMeta st') ≠ Some (0, m))
    ∧ (pendingRequests <$> meta_of st' 0)
      = Some (pendingRequests
                (meta (conn_S1 OPEN [(1700000000000%Z, 1); (1700000000001%Z, 2)])))
    ∧ (∀ c', c' ≠ 0 → conns st' !! c' = conns two_pending !! c')
    ∧ sessionTokenStore st' = sessionTokenStore two_pending.
Proof.
  apply (client_close_deregisters two_pending 0
           (conn_S1 OPEN [(1700000000000%Z, 1); (1700000000001%Z, 2)]) OPEN);
    by vm_compute.
Defined.

(** X18.  An upstream reply that comes after the client has gone still
    answers the trades that wait on the connection: the handlers of the
    upstream socket keep the [meta] object alive after
    [clientMeta.delete(ws)]. *)
Theorem reply_after_disconnect (st : State) (c : nat) (cn : Conn) (s : ReadyState)
    (msg : jsval) :
  conns st !! c = Some cn → derivWs (meta cn) = Some s →
  buy_or_error_message msg = true →
  (run st [ClientClose c; DerivMessage c (Some msg)]).2
  = UpstreamClose c :: ClientSend c (wire (buy_result_event msg))
    :: map (λ e, HttpReply e.2 200 (wire (result_body msg))) (pendingRequests (meta cn)).
Proof.
  intros Hc Hs Hmsg. rewrite run_cons. cbn [handle]. unfold client_close.
  rewrite Hc, Hs. cbn [fst snd app]. rewrite run_cons.
  erewrite deriv_buy_result;
    [|cbn [conns set_meta]; by rewrite list_lookup_alter_eq, Hc|done].
  cbn [fst snd run meta with_derivWs pendingRequests fmap option_fmap option_map].
  by rewrite app_nil_r.
Qed.

Lemma reply_after_disconnect_witness :
  (run two_pending [ClientClose 0; DerivMessage 0 (Some buy_reply)]).2
  = [UpstreamClose 0; ClientSend 0 (buy_result_event buy_reply);
     HttpReply 1 200 (result_body buy_reply);
     HttpReply 2 200 (result_body buy_reply)].
Proof.
  apply (reply_after_disconnect two_pending 0
           (conn_S1 OPEN [(1700000000000%Z, 1); (1700000000001%Z, 2)]) OPEN buy_reply);
    by vm_compute.
Defined.

End ClientEdges.

(** ** One answer per response object *)

Section Replies.

Lemma pending_set_values (k : Z) (res : nat) (p : list (Z * nat)) (x : nat) :
  x ∈ (pending_set k res p).*2 → x = res ∨ x ∈ p.*2.
Proof.
  induction p as [|[k' r] p IH]; simpl.
  - intros [->|[]%elem_of_nil]%elem_of_cons. by left.
  - destruct (Z.eqb_spec k' k) as [->|Hne]; simpl.
    + intros [->|H]%elem_of_cons; [by left|]. right. by right.
    + intros [->|H]%elem_of_cons; [right; by left|].
      destruct (IH H); [by left|]. right. by right.
Qed.

Lemma pending_set_values_NoDup (k : Z) (res : nat) (p : list (Z * nat)) :
  NoDup p.*2 → res ∉ p.*2 → NoDup (pending_set k res p).*2.
Proof.
  induction p as [|[k' r] p IH]; simpl.
  - intros _ _. apply NoDup_singleton.
  - intros [Hr Hnd]%NoDup_cons [Hne Hres]%not_elem_of_cons.
    destruct (Z.eqb_spec k' k) as [->|Hk]; simpl.
    + by apply NoDup_cons.
    + apply NoDup_cons. split; [|by apply IH].
      intros [->|H]%pending_set_values; done.
Qed.

Lemma pending_set_registered (k : Z) (res : nat) (p : list (Z * nat)) :
  (k, res) ∈ pending_set k res p.
Proof.
  induction p as [|[k' r] p IH]; simpl; [by left|].
  destruct (Z.eqb k' k); [by left|by right].
Qed.

(** A write through one [meta] changes the part of [waiting] that belongs to
    its connection. *)
Lemma waiting_alter (cs : list Conn) (c : nat) (cn : Conn) (m : Meta) :
  cs !! c = Some cn →
  ∃ W1 W2,
    concat (map (λ cn, (pendingRequests (meta cn)).*2) cs)
    = W1 ++ (pendingRequests (meta cn)).*2 ++ W2
    ∧ concat (map (λ cn, (pendingRequests (meta cn)).*2)
                (alter (λ cn, {| token := token cn; meta := m |}) c cs))
      = W1 ++ (pendingRequests m).*2 ++ W2.
Proof.
  revert c. induction cs as [|x cs IH]; intros c; [done|].
  destruct c as [|c].
  - intros [= ->]. by exists [], (concat (map (λ cn, (pendingRequests (meta cn)).*2) cs)).
  - intros H. change ((x :: cs) !! S c) with (cs !! c) in H.
    destruct (IH c H) as (W1 & W2 & E1 & E2).
    exists ((pendingRequests (meta x)).*2 ++ W1), W2. split.
    + cbn [map concat]. rewrite E1. by rewrite <- app_assoc.
    + change (alter ?f (S c) (x :: cs)) with (x :: alter f c cs).
      cbn [map concat]. rewrite E2. by rewrite <- app_assoc.
Qed.

Lemma waiting_set_meta (st : State) (c : nat) (cn : Conn) (m : Meta) :
  conns st !! c = Some cn →
  ∃ W1 W2,
    waiting st = W1 ++ (pendingRequests (meta cn)).*2 ++ W2
    ∧ waiting (set_meta c m st) = W1 ++ (pendingRequests m).*2 ++ W2.
Proof. apply waiting_alter. Qed.

Lemma waiting_part (st : State) (c : nat) (cn : Conn) :
  conns st !! c = Some cn → NoDup (waiting st) →
  NoDup (pendingRequests (meta cn)).*2
  ∧ ∀ x, x ∈ (pendingRequests (meta cn)).*2 → x ∈ waiting st.
Proof.
  intros Hc Hnd. destruct (waiting_set_meta st c cn (meta cn) Hc) as (W1 & W2 & E & _).
  rewrite E in *. apply NoDup_app in Hnd as (_ & _ & [Hp _]%NoDup_app).
  split; [done|]. intros x Hx. rewrite !elem_of_app. auto.
Qed.

Lemma shape_idle (st st' : State) (ev : Event) (out : list Effect) :
  waiting st' = waiting st → replied out = [] → step_shape st st' ev out.
Proof.
  intros Hw Hr. exists (waiting st), [], [], []. rewrite Hw, Hr, !app_nil_r.
  split; [done|]. split; [done|]. split; [apply NoDup_nil_2|].
  by intros x ?%elem_of_nil.
Qed.

Lemma shape_reply (st st' : State) (ev : Event) (out : list Effect) (res : nat) :
  waiting st' = waiting st → replied out = [res] → event_res ev = Some res →
  step_shape st st' ev out.
Proof.
  intros Hw Hr He. exists (waiting st), [], [], []. rewrite Hw, Hr, !app_nil_r.
  split; [done|]. split; [done|]. split; [apply NoDup_singleton|].
  intros x ->%list_elem_of_singleton. by right.
Qed.

Lemma shape_meta (st st' : State) (c : nat) (cn : Conn) (m : Meta)
    (ev : Event) (out : list Effect) :
  conns st !! c = Some cn → waiting st' = waiting (set_meta c m st) →
  NoDup ((pendingRequests m).*2 ++ replied out) →
  (∀ x, x ∈ (pendingRequests m).*2 ++ replied out →
        x ∈ (pendingRequests (meta cn)).*2 ∨ event_res ev = Some x) →
  step_shape st st' ev out.
Proof.
  intros Hc Hw Hnd Hin. destruct (waiting_set_meta st c cn m Hc) as (W1 & W2 & E1 & E2).
  exists W1, (pendingRequests (meta cn)).*2, W2, (pendingRequests m).*2.
  by rewrite Hw.
Qed.

Lemma shape_meta_same (st st' : State) (c : nat) (cn : Conn) (m : Meta)
    (ev : Event) (out : list Effect) :
  conns st !! c = Some cn → waiting st' = waiting (set_meta c m st) →
  pendingRequests m = pendingRequests (meta cn) → replied out = [] →
  NoDup (waiting st) → step_shape st st' ev out.
Proof.
  intros Hc Hw Hp Hr Hnd. apply (shape_meta st st' c cn m); try done.
  - rewrite Hr, app_nil_r, Hp. by apply (waiting_part st c cn).
  - rewrite Hr, app_nil_r, Hp. auto.
Qed.

(** Every handler has that shape. *)
Lemma handle_step_shape (st st' : State) (ev : Event) (out : list Effect) :
  handle st ev = Some (st', out) →
  NoDup (waiting st) → (∀ r, event_res ev = Some r → r ∉ waiting st) →
  step_shape st st' ev out.
Proof.
  intros H Hnd Hfresh.
  destruct ev as [res tok uuid|res sid|res sid|res sid symbol stake now fault
                 |sid|c fault|c data|c|c raw fault|c]; cbn [handle] in H.
  - unfold store_token, reply in H. case_match; simplify_eq; by eapply shape_reply.
  - unfold me, reply in H. repeat case_match; simplify_eq; by eapply shape_reply.
  - unfold logout, reply in H. repeat case_match; simplify_eq; by eapply shape_reply.
  - unfold buy, reply in H.
    destruct (negb (logged (sessionTokenStore st) sid));
      [simplify_eq; by eapply shape_reply|].
    destruct (negb (truthy symbol) || negb (truthy stake));
      [simplify_eq; by eapply shape_reply|].
    destruct (find_meta _ _ _) as [[c found]|] eqn:Hf;
      [|simplify_eq; by eapply shape_reply].
    destruct (find_meta_some _ _ _ _ _ Hf) as (_ & _ & cn & Hc & <-).
    destruct (waiting_part st c cn Hc Hnd) as [Hp Hsub].
    assert (res ∉ (pendingRequests (meta cn)).*2) as Hres
      by (intros Hin; by apply (Hfresh res eq_refl), Hsub).
    destruct fault as [message|]; simplify_eq.
    + eapply (shape_meta st _ c cn); [done|done| |]; cbn [pendingRequests with_pending replied omap].
      * rewrite pending_delete_set. apply NoDup_app. split; [|split].
        -- apply (sublist_NoDup _ (pendingRequests (meta cn)).*2); [done|].
           apply fmap_sublist, sublist_filter.
        -- intros x Hx ->%list_elem_of_singleton. apply Hres.
           apply list_elem_of_fmap in Hx as (e & -> & He).
           apply list_elem_of_fmap. exists e. split; [done|].
           by apply pending_delete_subseteq in He.
        -- apply NoDup_singleton.
      * rewrite pending_delete_set. intros x [Hx| ->%list_elem_of_singleton]%elem_of_app;
          [left|by right].
        apply list_elem_of_fmap in Hx as (e & -> & He).
        apply list_elem_of_fmap. exists e. split; [done|].
        by apply pending_delete_subseteq in He.
    + eapply (shape_meta st _ c cn); [done|done| |]; cbn [pendingRequests with_pending replied omap];
        rewrite app_nil_r.
      * by apply pending_set_values_NoDup.
      * intros x [->|Hx]%pending_set_values; [by right|by left].
  - unfold connection in H. simplify_eq. apply shape_idle; [|done].
    unfold waiting. cbn [conns]. rewrite map_app, concat_app. simpl.
    by rewrite app_nil_r.
  - unfold deriv_open in H. destruct (conns st !! c) as [cn|] eqn:Hc;
      [|simplify_eq; by apply shape_idle].
    repeat case_match; simplify_eq; by eapply (shape_meta_same st _ c cn).
  - unfold deriv_message in H. destruct (conns st !! c) as [cn|] eqn:Hc;
      [|simplify_eq; by apply shape_idle].
    destruct data as [msg|]; [|simplify_eq; by apply shape_idle].
    destruct (get msg "authorize") as [a|]; [|done]. simpl in H.
    destruct (truthy a).
    + unfold on_authorize in H.
      destruct (get a "error") as [e|]; [|done]. simpl in H.
      destruct (truthy e).
      * destruct (get e "message"); [|done]. simpl in H. simplify_eq.
        by apply shape_idle.
      * destruct (get a "loginid"); [|done]. simpl in H.
        destruct (get a "currency"); [|done]. simpl in H.
        destruct (get a "balance"); [|done]. simpl in H. simplify_eq.
        by eapply (shape_meta_same st _ c cn).
    + destruct (get msg "tick") as [t|]; [|done]. simpl in H.
      destruct (truthy t).
      * unfold on_tick in H.
        destruct (get t "symbol"); [|done]. simpl in H.
        destruct (get t "quote"); [|done]. simpl in H.
        destruct (get t "epoch"); [|done]. simpl in H. simplify_eq.
        by apply shape_idle.
      * destruct (get msg "buy") as [b|]; [|done]. simpl in H.
        destruct (get msg "error") as [e|]; [|done]. simpl in H.
        destruct (truthy b || truthy e); [|simplify_eq; by apply shape_idle].
        unfold on_buy_result in H. simplify_eq.
        destruct (waiting_part st c cn Hc Hnd) as [Hp Hsub].
        assert (replied (ClientSend c (wire (buy_result_event msg))
                         :: map (λ e, HttpReply e.2 200 (wire (result_body msg)))
                              (pendingRequests (meta cn)))
                = (pendingRequests (meta cn)).*2) as Hr.
        { cbn [replied omap]. induction (pendingRequests (meta cn)) as [|x l IH];
            [done|]. cbn [map omap fmap list_fmap]. simpl. f_equal.
          apply IH; [by apply NoDup_cons in Hp as [_ ?]|].
          intros y Hy. apply Hsub. by right. }
        eapply (shape_meta st _ c cn); [done|done| |]; rewrite Hr; simpl; auto.
  - unfold deriv_close in H. destruct (conns st !! c) as [cn|] eqn:Hc;
      simplify_eq; [by eapply (shape_meta_same st _ c cn)|by apply shape_idle].
  - unfold client_message, client_try in H.
    destruct (conns st !! c) as [cn|] eqn:Hc; [|simplify_eq; by apply shape_idle].
    destruct raw as [msg|]; simpl in H; [|simplify_eq; by apply shape_idle].
    destruct (get msg "type") as [ty|]; simpl in H; [|simplify_eq; by apply shape_idle].
    destruct (get msg "symbol") as [sy|]; simpl in H; [|simplify_eq; by apply shape_idle].
    destruct (is_str ty "subscribe" && truthy sy && is_open (derivWs (meta cn)));
      [|simplify_eq; by apply shape_idle].
    destruct fault; simplify_eq; by eapply (shape_meta_same st _ c cn).
  - unfold client_close in H. destruct (conns st !! c) as [cn|] eqn:Hc;
      [|simplify_eq; by apply shape_idle].
    destruct (derivWs (meta cn)); simplify_eq;
      [by eapply (shape_meta_same st _ c cn)|by apply shape_idle].
Qed.

Lemma elem_of_event_res_cons (ev : Event) (evs : list Event) (r : nat) :
  r ∈ omap event_res (ev :: evs) ↔ event_res ev = Some r ∨ r ∈ omap event_res evs.
Proof.
  cbn [omap list_omap]. destruct (event_res ev) as [x|].
  - rewrite elem_of_cons. split; intros [H|H]; simplify_eq; auto.
  - split; [auto|]. by intros [?|?].
Qed.

Lemma NoDup_event_res_cons (ev : Event) (evs : list Event) :
  NoDup (omap event_res (ev :: evs)) →
  NoDup (omap event_res evs)
  ∧ ∀ r, event_res ev = Some r → r ∉ omap event_res evs.
Proof.
  cbn [omap list_omap]. destruct (event_res ev) as [x|].
  - intros [? ?]%NoDup_cons. split; [done|]. by intros r [= <-].
  - intros ?. split; [done|]. by intros r ?.
Qed.

Lemma replied_app (out1 out2 : list Effect) :
  replied (out1 ++ out2) = replied out1 ++ replied out2.
Proof. apply omap_app. Qed.

(** Over a run, the answers go to distinct response objects, each of which
    waited before the run or came with one of its events. *)
Lemma replies_run (evs : list Event) :
  ∀ st : State,
    NoDup (waiting st) → NoDup (omap event_res evs) →
    (∀ r, r ∈ waiting st → r ∉ omap event_res evs) →
    NoDup (replied (run st evs).2)
    ∧ ∀ r, r ∈ replied (run st evs).2 → r ∈ waiting st ∨ r ∈ omap event_res evs.
Proof.
  induction evs as [|ev evs IH]; intros st Hnd Hev Hdisj.
  - split; [apply NoDup_nil_2|]. by intros r ?%elem_of_nil.
  - apply NoDup_event_res_cons in Hev as [Hevs Hres].
    assert (∀ r, event_res ev = Some r → r ∉ waiting st) as Hfresh.
    { intros r Hr Hin. apply (Hdisj r Hin), elem_of_event_res_cons. by left. }
    rewrite run_cons. destruct (handle st ev) as [[st1 out1]|] eqn:Hh.
    2:{ split; [apply NoDup_nil_2|]. by intros r ?%elem_of_nil. }
    destruct (handle_step_shape _ _ _ _ Hh Hnd Hfresh)
      as (W1 & P & W2 & P' & Ew & Ew1 & HndP & HinP).
    rewrite Ew in Hnd. apply NoDup_app in Hnd as (HW1 & HW1d & HPW2).
    apply NoDup_app in HPW2 as (HP & HPd & HW2).
    apply NoDup_app in HndP as (HP' & HP'd & HR).
    assert (∀ x, x ∈ P' → (x ∉ W1) ∧ (x ∉ W2)) as HP'W.
    { intros x Hx. destruct (HinP x) as [HxP|Hxr]; [apply elem_of_app; by left| |].
      - split; [intros HxW; apply (HW1d x HxW), elem_of_app; by left|by apply HPd].
      - apply Hfresh in Hxr. rewrite Ew, !elem_of_app in Hxr. split; intros ?; apply Hxr; auto. }
    assert (∀ x, x ∈ replied out1 → (x ∉ W1) ∧ (x ∉ W2)) as HRW.
    { intros x Hx. destruct (HinP x) as [HxP|Hxr]; [apply elem_of_app; by right| |].
      - split; [intros HxW; apply (HW1d x HxW), elem_of_app; by left|by apply HPd].
      - apply Hfresh in Hxr. rewrite Ew, !elem_of_app in Hxr. split; intros ?; apply Hxr; auto. }
    assert (NoDup (waiting st1)) as Hnd1.
    { rewrite Ew1. apply NoDup_app. split; [done|]. split.
      - intros x HxW [HxP|HxW2]%elem_of_app.
        + by destruct (HP'W x HxP).
        + apply (HW1d x HxW), elem_of_app. by right.
      - apply NoDup_app. split; [done|]. split; [|done].
        intros x Hx. by destruct (HP'W x Hx). }
    assert (∀ r, r ∈ waiting st1 → r ∉ omap event_res evs) as Hdisj1.
    { intros r Hr Hin. rewrite Ew1, !elem_of_app in Hr.
      assert (r ∈ waiting st ∨ event_res ev = Some r) as [Hw|He].
      { rewrite Ew, !elem_of_app. destruct Hr as [?|[Hr|?]]; auto.
        destruct (HinP r) as [?|?]; [apply elem_of_app; by left|auto|auto]. }
      - apply (Hdisj r Hw), elem_of_event_res_cons. by right.
      - by apply (Hres r He). }
    destruct (IH st1 Hnd1 Hevs Hdisj1) as [Hnd2 Hin2].
    cbn [fst snd]. rewrite replied_app. split.
    + apply NoDup_app. split; [done|]. split; [|done].
      intros x Hx Hx2. destruct (Hin2 x Hx2) as [Hw1|He].
      * rewrite Ew1, !elem_of_app in Hw1. destruct Hw1 as [?|[HxP'|?]].
        -- by destruct (HRW x Hx).
        -- by apply (HP'd x HxP').
        -- by destruct (HRW x Hx).
      * destruct (HinP x) as [HxP|Hxr]; [apply elem_of_app; by right| |].
        -- apply (Hdisj x); [rewrite Ew, !elem_of_app; auto|].
           apply elem_of_event_res_cons. by right.
        -- by apply (Hres x Hxr).
    + intros r [Hr|Hr]%elem_of_app.
      * destruct (HinP r) as [HrP|Hrr]; [apply elem_of_app; by right| |].
        -- left. rewrite Ew, !elem_of_app. auto.
        -- right. apply elem_of_event_res_cons. by left.
      * destruct (Hin2 r Hr) as [Hw1|He].
        -- rewrite Ew1, !elem_of_app in Hw1. destruct Hw1 as [?|[HrP'|?]].
           ++ left. rewrite Ew, !elem_of_app. auto.
           ++ destruct (HinP r) as [HrP|Hrr]; [apply elem_of_app; by left| |].
              ** left. rewrite Ew, !elem_of_app. auto.
              ** right. apply elem_of_event_res_cons. by left.
           ++ left. rewrite Ew, !elem_of_app. auto.
        -- right. apply elem_of_event_res_cons. by right.
Qed.

(** X19.  When every HTTP request brings a response object of its own, no
    response object is answered twice in any run from the start, and only
    response objects of requests that have arrived are answered. *)
Theorem one_answer_per_request (evs : list Event) :
  NoDup (omap event_res evs) →
  NoDup (replied (run initial evs).2)
  ∧ ∀ r, r ∈ replied (run initial evs).2 → r ∈ omap event_res evs.
Proof.
  intros Hev. destruct (replies_run evs initial) as [Hnd Hin]; try done.
  - apply NoDup_nil_2.
  - by intros r ?%elem_of_nil.
  - split; [done|]. intros r Hr. destruct (Hin r Hr) as [[]%elem_of_nil|]; done.
Qed.

End Replies.

Section ReplyScenario.

Lemma one_answer_per_request_witness :
  NoDup (replied (run initial
           (login_S1 ++ [PostBuy 1 (Some "S1") (JStr "R_100") (num 5) 1700000000000 None;
                         PostBuy 2 (Some "S1") (JStr "V_75") (num 9) 1700000000000 None;
                         GetMe 3 (Some "S1");
                         DerivMessage 0 (Some buy_reply)])).2)
  ∧ ∀ r, r ∈ replied (run initial
           (login_S1 ++ [PostBuy 1 (Some "S1") (JStr "R_100") (num 5) 1700000000000 None;
                         PostBuy 2 (Some "S1") (JStr "V_75") (num 9) 1700000000000 None;
                         GetMe 3 (Some "S1");
                         DerivMessage 0 (Some buy_reply)])).2 →
         r ∈ omap event_res
           (login_S1 ++ [PostBuy 1 (Some "S1") (JStr "R_100") (num 5) 1700000000000 None;
                         PostBuy 2 (Some "S1") (JStr "V_75") (num 9) 1700000000000 None;
                         GetMe 3 (Some "S1");
                         DerivMessage 0 (Some buy_reply)]).
Proof.
  apply one_answer_per_request.
  vm_compute.
  repeat (apply NoDup_cons_2; [intros H%list_elem_of_In; simpl in H; intuition lia|]).
  apply NoDup_nil_2.
Defined.

End ReplyScenario.

(** ** Each connection on its own *)

Section Isolation.

Lemma isolated_out (st : State) (c : nat) (out : list Effect) :
  (∀ e c', e ∈ out → effect_conn e = Some c' → c' = c) →
  (∀ c', c' ≠ c → conns st !! c' = conns st !! c')
  ∧ sessionTokenStore st = sessionTokenStore st
  ∧ (∀ e c', e ∈ out → effect_conn e = Some c' → c' = c)
  ∧ (∀ c', c' ∈ clientMeta st → c' ∈ clientMeta st).
Proof. intros H. split; [done|]. split; [done|]. split; [exact H|auto]. Qed.

Lemma isolated_set_meta (st : State) (c : nat) (m : Meta) (out : list Effect) :
  (∀ e c', e ∈ out → effect_conn e = Some c' → c' = c) →
  (∀ c', c' ≠ c → conns (set_meta c m st) !! c' = conns st !! c')
  ∧ sessionTokenStore (set_meta c m st) = sessionTokenStore st
  ∧ (∀ e c', e ∈ out → effect_conn e = Some c' → c' = c)
  ∧ (∀ c', c' ∈ clientMeta (set_meta c m st) → c' ∈ clientMeta st).
Proof.
  intros H. split; [intros c' Hne; by apply conns_set_meta_ne|].
  split; [done|]. split; [exact H|auto].
Qed.

Lemma effects_of_conn (c : nat) (out : list Effect) :
  Forall (λ e, effect_conn e = Some c ∨ effect_conn e = None) out →
  ∀ e c', e ∈ out → effect_conn e = Some c' → c' = c.
Proof.
  intros Hall e c' He Hc'. rewrite Forall_forall in Hall.
  destruct (Hall e He) as [E|E]; rewrite E in Hc'; by simplify_eq.
Qed.

(** X20.  An event on the sockets of one connection reads and writes the
    state of that connection only: the [meta] objects of the other
    connections and the session store are as before, nothing is written to
    another connection's client or upstream socket, and no connection enters
    the registry. *)
Theorem socket_event_isolated (st st' : State) (ev : Event) (out : list Effect) (c : nat) :
  event_conn ev = Some c → handle st ev = Some (st', out) →
  (∀ c', c' ≠ c → conns st' !! c' = conns st !! c')
  ∧ sessionTokenStore st' = sessionTokenStore st
  ∧ (∀ e c', e ∈ out → effect_conn e = Some c' → c' = c)
  ∧ (∀ c', c' ∈ clientMeta st' → c' ∈ clientMeta st).
Proof.
  intros Hev H.
  destruct ev as [res tok uuid|res sid|res sid|res sid symbol stake now fault
                 |sid|c0 fault|c0 data|c0|c0 raw fault|c0];
    simpl in Hev; try discriminate; injection Hev as ->; cbn [handle] in H.
  - unfold deriv_open in H.
    destruct (conns st !! c) as [cn|];
      [|simplify_eq; apply isolated_out, effects_of_conn; by repeat constructor].
    destruct (truthy (token cn)); [destruct fault; [done|]|]; simplify_eq;
      apply isolated_set_meta, effects_of_conn; repeat constructor; by left.
  - unfold deriv_message in H.
    destruct (conns st !! c) as [cn|];
      [|simplify_eq; apply isolated_out, effects_of_conn; by repeat constructor].
    destruct data as [msg|];
      [|simplify_eq; apply isolated_out, effects_of_conn; by repeat constructor].
    destruct (get msg "authorize") as [a|]; [|done]. simpl in H.
    destruct (truthy a).
    + unfold on_authorize in H.
      destruct (get a "error") as [e0|]; [|done]. simpl in H.
      destruct (truthy e0).
      * destruct (get e0 "message"); [|done]. simpl in H. simplify_eq.
        apply isolated_out, effects_of_conn; repeat constructor; by left.
      * destruct (get a "loginid"); [|done]. simpl in H.
        destruct (get a "currency"); [|done]. simpl in H.
        destruct (get a "balance"); [|done]. simpl in H. simplify_eq.
        apply isolated_set_meta, effects_of_conn; repeat constructor; by left.
    + destruct (get msg "tick") as [t|]; [|done]. simpl in H.
      destruct (truthy t).
      * unfold on_tick in H.
        destruct (get t "symbol"); [|done]. simpl in H.
        destruct (get t "quote"); [|done]. simpl in H.
        destruct (get t "epoch"); [|done]. simpl in H. simplify_eq.
        apply isolated_out, effects_of_conn; repeat constructor; by left.
      * destruct (get msg "buy") as [b|]; [|done]. simpl in H.
        destruct (get msg "error") as [e0|]; [|done]. simpl in H.
        destruct (truthy b || truthy e0);
          [|simplify_eq; apply isolated_out, effects_of_conn; by repeat constructor].
        unfold on_buy_result in H. simplify_eq.
        apply isolated_set_meta, effects_of_conn. constructor; [by left|].
        apply Forall_fmap, Forall_forall. intros x _. by right.
  - unfold deriv_close in H.
    destruct (conns st !! c) as [cn|]; simplify_eq;
      [apply isolated_set_meta|apply isolated_out]; apply effects_of_conn;
      by repeat constructor.
  - unfold client_message, client_try in H.
    destruct (conns st !! c) as [cn|];
      [|simplify_eq; apply isolated_out, effects_of_conn; by repeat constructor].
    destruct raw as [msg|]; simpl in H;
      [|simplify_eq; apply isolated_out, effects_of_conn; by repeat constructor].
    destruct (get msg "type") as [ty|]; simpl in H;
      [|simplify_eq; apply isolated_out, effects_of_conn; by repeat constructor].
    destruct (get msg "symbol") as [sy|]; simpl in H;
      [|simplify_eq; apply isolated_out, effects_of_conn; by repeat constructor].
    destruct (is_str ty "subscribe" && truthy sy && is_open (derivWs (meta cn)));
      [|simplify_eq; apply isolated_out, effects_of_conn; by repeat constructor].
    destruct fault; simplify_eq;
      apply isolated_set_meta, effects_of_conn; repeat constructor; by left.
  - unfold client_close in H.
    destruct (conns st !! c) as [cn|];
      [|simplify_eq; apply isolated_out, effects_of_conn; by repeat constructor].
    destruct (derivWs (meta cn)); simplify_eq.
    + destruct (isolated_set_meta st c (with_derivWs
                  (Some match r with CLOSED => CLOSED | _ => CLOSING end) (meta cn))
                  [UpstreamClose c]) as (H1 & H2 & H3 & H4).
      { apply effects_of_conn. repeat constructor. }
      split; [exact H1|]. split; [exact H2|]. split; [exact H3|].
      intros c' [_ ?]%list_elem_of_filter. done.
    + repeat (split; [done|]). split; [by intros e c' ?%elem_of_nil|].
      intros c' [_ ?]%list_elem_of_filter. done.
Qed.

Lemma socket_event_isolated_witness :
  ∃ st' out,
    handle twice_S1 (DerivMessage 1 (Some tick_R100)) = Some (st', out)
    ∧ (∀ c', c' ≠ 1 → conns st' !! c' = conns twice_S1 !! c')
    ∧ sessionTokenStore st' = sessionTokenStore twice_S1
    ∧ (∀ e c', e ∈ out → effect_conn e = Some c' → c' = 1)
    ∧ (∀ c', c' ∈ clientMeta st' → c' ∈ clientMeta twice_S1).
Proof.
  eexists _, _. split; [by vm_compute|].
  apply (socket_event_isolated twice_S1 _ (DerivMessage 1 (Some tick_R100))); by vm_compute.
Defined.

End Isolation.

(** ** From the submission to the answer, from the cookie to the token *)

Section Composition.

Lemma wire_buy_request (stake symbol : jsval) :
  json stake = true → json symbol = true →
  wire (buy_request stake symbol) = buy_request stake symbol.
Proof.
  intros H1 H2. unfold buy_request. simpl.
  by rewrite (json_serialisable _ H1), (json_serialisable _ H2),
    (wire_json _ H1), (wire_json _ H2).
Qed.

(** X21.  A trade that is accepted is written upstream as
    [{ buy: 1, price: stake, subscribe: 0, symbol }] without an answer to
    the caller; the next buy or error message on that connection answers the
    caller with [{ ok: true, result: message }] and empties the table. *)
Theorem buy_then_reply (st : State) (res : nat) (s : string) (symbol stake : jsval)
    (now : Z) (c : nat) (found : Meta) (msg : jsval) :
  logged (sessionTokenStore st) (Some s) = true →
  truthy symbol = true → truthy stake = true →
  json symbol = true → json stake = true →
  find_meta (buy_ready s) (conns st) (clientMeta st) = Some (c, found) →
  buy_or_error_message msg = true →
  ∃ st',
    run st [PostBuy res (Some s) symbol stake now None; DerivMessage c (Some msg)]
    = (st', UpstreamSend c (buy_request stake symbol)
            :: ClientSend c (wire (buy_result_event msg))
            :: map (λ e, HttpReply e.2 200 (wire (result_body msg)))
                 (pending_set now res (pendingRequests found)))
    ∧ HttpReply res 200 (wire (result_body msg))
      ∈ map (λ e, HttpReply e.2 200 (wire (result_body msg)))
          (pending_set now res (pendingRequests found))
    ∧ (pendingRequests <$> meta_of st' c) = Some [].
Proof.
  intros Hl Hsy Hst Hjsy Hjst Hf Hmsg.
  destruct (find_meta_some _ _ _ _ _ Hf) as (_ & _ & cn & Hc & Hm).
  set (m1 := with_pending (pending_set now res (pendingRequests found)) found).
  exists (set_meta c (with_pending [] m1) (set_meta c m1 st)).
  split; [|split].
  - rewrite run_cons, (buy_found st res s symbol stake now None c found) by done.
    fold m1. cbn [fst snd]. rewrite run_cons.
    rewrite (deriv_buy_result (set_meta c m1 st) c {| token := token cn; meta := m1 |} msg);
      [|by apply conns_set_meta|done].
    cbn [fst snd run]. by rewrite app_nil_r, wire_buy_request.
  - apply list_elem_of_fmap. exists (now, res). split; [done|].
    apply pending_set_registered.
  - unfold meta_of. cbn [conns set_meta].
    rewrite list_lookup_alter_eq, list_lookup_alter_eq, Hc. done.
Qed.

Lemma buy_then_reply_witness :
  ∃ st',
    run ready_S1 [PostBuy 1 (Some "S1") (JStr "R_100") (num 5) 1700000000000 None;
                  DerivMessage 0 (Some buy_reply)]
    = (st', UpstreamSend 0 (buy_request (num 5) (JStr "R_100"))
            :: ClientSend 0 (wire (buy_result_event buy_reply))
            :: map (λ e, HttpReply e.2 200 (wire (result_body buy_reply)))
                 (pending_set 1700000000000 1 (pendingRequests (meta_S1 OPEN []))))
    ∧ HttpReply 1 200 (wire (result_body buy_reply))
      ∈ map (λ e, HttpReply e.2 200 (wire (result_body buy_reply)))
          (pending_set 1700000000000 1 (pendingRequests (meta_S1 OPEN [])))
    ∧ (pendingRequests <$> meta_of st' 0) = Some [].
Proof.
  apply (buy_then_reply ready_S1 1 "S1" (JStr "R_100") (num 5) 1700000000000 0
           (meta_S1 OPEN []) buy_reply); by vm_compute.
Defined.

Lemma pathname_client_proxy (rest : string) :
  pathname ("/client-proxy" ++ rest) = ("/client-proxy" ++ pathname rest)%string.
Proof. reflexivity. Qed.

Lemma client_proxy_eqb (rest : string) :
  String.eqb ("/client-proxy" ++ rest) "/client-proxy" = String.eqb rest "".
Proof. reflexivity. Qed.

(** X22.  A request for [/client-proxy], with or without a query, whose
    cookie header starts with the pair [SESSION_ID=v] is accepted with session
    id [v]; if a token is stored under [v], the connection made for it writes
    [{ authorize: token }] when its upstream socket opens, and nothing else.
    A request whose url does not start with [/client-proxy] is destroyed; one
    whose url goes on after [/client-proxy] with anything but a query is
    refused by the server's [path] option; in both cases no connection is
    made.  A request without a cookie header is accepted without a session id
    and writes nothing at the opening. *)
Theorem upgrade_then_authorize (st : State) (url v post : string) (tok : jsval) :
  url = "/client-proxy" ∨ (∃ query, url = "/client-proxy" ++ String "?" query)%string →
  v ≠ "" → (∀ u w, v ≠ (u ++ String ";" w)%string) →
  post = "" ∨ (∃ w, post = String ";" w) →
  sessionTokenStore st !! v = Some tok → truthy tok = true → json tok = true →
  (upgrade url (Some ("SESSION_ID=" ++ v ++ post)%string) = Accepted (Some v)
   ∧ (run st [Connection (Some v); DerivOpen (length (conns st)) None]).2
     = [UpstreamSend (length (conns st)) (authorize_request tok)])
  ∧ (∀ other cookie, String.prefix "/client-proxy" other = false →
                     upgrade other cookie = Destroyed)
  ∧ (∀ a rest cookie, a ≠ "?"%char →
                      upgrade ("/client-proxy" ++ String a rest)%string cookie = Refused)
  ∧ (upgrade url None = Accepted None
     ∧ ∀ fault, (run st [Connection None; DerivOpen (length (conns st)) fault]).2 = []).
Proof.
  intros Hurl Hv Hfree Hpost Hs Ht Hj.
  assert (truthy (JStr v) = true) as Hu.
  { simpl. destruct (String.eqb_spec v ""); done. }
  assert (∀ cookie, upgrade url cookie = Accepted (session_cookie (default "" cookie)))
    as Hacc.
  { intros cookie. by destruct Hurl as [->|[query ->]]. }
  split; [|split; [|split]].
  - rewrite Hacc. cbn [default]. unfold id.
    destruct (session_cookie_complete "" post "x" v) as [_ Hc].
    rewrite (Hc Hv Hfree Hpost). split; [done|].
    assert (token_of (sessionTokenStore st) (Some v) = tok) as Htok
      by (unfold token_of, store_get; by rewrite Hu, Hs).
    rewrite run_cons. cbn [handle]. unfold connection. cbn [fst snd app].
    rewrite Htok, run_cons. cbn [handle]. unfold deriv_open. cbn [conns].
    rewrite list_lookup_middle by done. cbn [token]. rewrite Ht.
    cbn [fst snd run app]. unfold authorize_request. simpl.
    by rewrite (json_serialisable _ Hj), (wire_json _ Hj).
  - intros other cookie Hp. unfold upgrade. by rewrite Hp.
  - intros a rest cookie Ha. unfold upgrade.
    rewrite prefix_append. cbn [negb].
    rewrite pathname_client_proxy, client_proxy_eqb. cbn [pathname].
    destruct (Ascii.eqb_spec a "?"%char) as [->|_]; done.
  - rewrite Hacc. split; [done|].
    intros fault. rewrite run_cons. cbn [handle]. unfold connection.
    cbn [fst snd app]. rewrite run_cons. cbn [handle]. unfold deriv_open.
    cbn [conns]. rewrite list_lookup_middle by done. done.
Qed.

Lemma upgrade_then_authorize_witness :
  upgrade "/client-proxy?v=2" (Some "SESSION_ID=S1; lang=pt") = Accepted (Some "S1")
  ∧ (run ready_S1 [Connection (Some "S1"); DerivOpen (length (conns ready_S1)) None]).2
    = [UpstreamSend (length (conns ready_S1)) (authorize_request (JStr "abc"))].
Proof.
  destruct (upgrade_then_authorize ready_S1 "/client-proxy?v=2" "S1" "; lang=pt"
              (JStr "abc"))
    as [H _];
    [right; by exists "v=2"|done|apply no_semicolon_S1|right; by eexists
    |by vm_compute..|exact H].
Defined.

(** X23.  The simple proxy acts on a client frame only if it parses to a
    message of type [subscribe] or [unsubscribe] with a truthy symbol; any
    other frame, [config] messages included, changes nothing, writes nothing
    and is not answered. *)
Theorem simple_client_message_dropped (st : SimpleProxy.State) (c : nat)
    (raw : option jsval) (fault : option string) :
  (∀ msg t symbol, raw = Some msg → client_command t symbol msg →
                   t ≠ "subscribe" ∧ t ≠ "unsubscribe") →
  SimpleProxy.handle st (SimpleProxy.ClientMessage c raw fault) = Some (st, []).
Proof.
  intros Hnot. cbn [SimpleProxy.handle]. unfold SimpleProxy.client_message.
  destruct (SimpleProxy.conns st !! c) as [cn|]; [|done].
  destruct raw as [msg|]; [|done].
  destruct (get msg "type") as [ty|] eqn:Hty; [|done].
  destruct (get msg "symbol") as [sy|] eqn:Hsy; [|done].
  destruct (is_str ty "config"); [done|].
  destruct (truthy sy) eqn:Ht; [|by rewrite !andb_false_r].
  destruct (is_str ty "subscribe") eqn:H1.
  { apply is_str_eq in H1 as ->.
    by destruct (Hnot msg "subscribe" sy eq_refl (conj Hty (conj Hsy Ht))). }
  destruct (is_str ty "unsubscribe") eqn:H2; [|done].
  apply is_str_eq in H2 as ->.
  by destruct (Hnot msg "unsubscribe" sy eq_refl (conj Hty (conj Hsy Ht))).
Qed.

Lemma simple_client_message_dropped_witness :
  SimpleProxy.handle simple_S1
    (SimpleProxy.ClientMessage 0
       (Some (JObj [("type", JStr "config"); ("symbol", JStr "R_100")])) None)
  = Some (simple_S1, []).
Proof.
  apply (simple_client_message_dropped simple_S1 0
           (Some (JObj [("type", JStr "config"); ("symbol", JStr "R_100")])) None).
  intros msg t symbol [= <-] (Ht & _). vm_compute in Ht. by injection Ht as <-.
Defined.

End Composition.

(** ** Client frames *)

Section Frames.

(** X24.  A client frame whose text has the type [subscribe] and a non-empty
    string as its symbol is a subscription, whatever else the text holds:
    of several members of one name [JSON.parse] keeps the last.  With the
    upstream socket open the extended proxy adds the symbol, requests its
    ticks and acknowledges; the simple proxy does the same for a connection
    that is in [clientMap]. *)
Theorem subscribe_frame (c : nat) (members : list (string * text)) (s : string) :
  member members "type" = Some (TStr "subscribe") →
  member members "symbol" = Some (TStr s) → s ≠ "" →
  (∀ (st : State) (cn : Conn),
     conns st !! c = Some cn → is_open (derivWs (meta cn)) = true →
     handle st (client_frame c (Some (TObj members)) None)
     = Some (set_meta c (with_subscribed (Set_add (JStr s) (subscribed (meta cn))) (meta cn)) st,
             [UpstreamSend c (ticks_request (JStr s));
              ClientSend c (typed_symbol "subscribed" (JStr s))]))
  ∧ (∀ (st : SimpleProxy.State) (cn : SimpleProxy.Conn),
       SimpleProxy.conns st !! c = Some cn → SimpleProxy.in_map st c = true →
       SimpleProxy.handle st (SimpleProxy.client_frame c (Some (TObj members)) None)
       = Some (SimpleProxy.set_conn c
                 (SimpleProxy.with_subscribed (Set_add (JStr s) (SimpleProxy.subscribed cn)) cn)
                 st,
               [UpstreamSend c (ticks_request (JStr s));
                ClientSend c (typed_symbol "subscribed" (JStr s))])).
Proof.
  intros Ht Hs Hne.
  assert (get (parse (TObj members)) "type" = Some (JStr "subscribe")) as Hgt
    by exact (get_parse_member members "type" _ Ht).
  assert (get (parse (TObj members)) "symbol" = Some (JStr s)) as Hgs
    by exact (get_parse_member members "symbol" _ Hs).
  assert (truthy (JStr s) = true) as Htr.
  { simpl. by destruct (String.eqb_spec s ""). }
  split.
  - intros st cn Hc Hopen. unfold client_frame. cbn [JSON_parse fmap option_fmap option_map].
    cbn [handle]. unfold client_message, client_try. rewrite Hc. cbn [mbind option_bind].
    rewrite Hgt. cbn [mbind option_bind]. rewrite Hgs. cbn [mbind option_bind].
    by rewrite Htr, Hopen.
  - intros st cn Hc Hin. unfold SimpleProxy.client_frame.
    cbn [JSON_parse fmap option_fmap option_map SimpleProxy.handle].
    unfold SimpleProxy.client_message. rewrite Hc, Hgt, Hgs.
    cbn [is_str]. rewrite Htr. cbn [String.eqb Ascii.eqb Bool.eqb andb].
    unfold SimpleProxy.forward. by rewrite Hin.
Qed.

Lemma subscribe_frame_witness :
  handle ready_S1 (client_frame 0 (Some subscribe_R100_frame) None)
  = Some (set_meta 0 (with_subscribed [JStr "R_100"] (meta_S1 OPEN [])) ready_S1,
          [UpstreamSend 0 (ticks_request (JStr "R_100"));
           ClientSend 0 (typed_symbol "subscribed" (JStr "R_100"))]).
Proof.
  destruct (subscribe_frame 0
              [("symbol", TStr "R_50"); ("type", TStr "subscribe");
               ("req_id", TNum (inject_Z (10 ^ 999))); ("symbol", TStr "R_100")]
              "R_100") as [H _]; [done..|].
  apply (H ready_S1 (conn_S1 OPEN [])); by vm_compute.
Defined.

End Frames.
